(** * csim: a set-associative cache simulator (csim.c)

    A shallow embedding of the cache model ([access_data]) and of the
    trace replayer ([replay_trace]) of csim.c, together with the
    properties of the simulator that its specification states.

    Conventions of the embedding.
    - [unsigned long] values are integers in [0, 2^64); arithmetic on
      them wraps ([wrap64]).  [long] values are their two's-complement
      reading ([to_long]).
    - [int] values are integers in [[-2^31, 2^31)].  Signed overflow has
      no defined result in C: an increment of [INT_MAX] is modelled as a
      failure ([None]), like an out-of-bounds array access and the use
      of a local variable that was never assigned.
    - The heap arrays built by [allocate_cache] are lists; an index is a
      [nat]; reads and writes outside an array fail.
    - The globals [hit_count], [miss_count], [eviction_count], [count]
      and [currCache] are the fields of an explicit [State]. *)

From Stdlib Require Import ZArith Lia Bool List Ascii String.
From stdpp Require Import base option list.

Open Scope Z_scope.

(** * The program *)

(** ** C integers *)

Definition INT_MAX : Z := 2147483647.

Definition wrap32 (x : Z) : Z := x mod 2 ^ 32.
Definition wrap64 (x : Z) : Z := x mod 2 ^ 64.

(** Conversion of an [unsigned long] to [long]. *)
Definition to_long (x : Z) : Z := if x <? 2 ^ 63 then x else x - 2 ^ 64.

(** [x++] on an [int]. *)
Definition int_incr (x : Z) : option Z :=
  if x <? INT_MAX then Some (x + 1) else None.

(** [__builtin_clz] on a 32-bit operand: the number of zero bits above
    the most significant one bit (the builtin has no defined result at
    0; the count below gives 32 there). *)
Fixpoint clz_from (n : nat) (x : Z) : Z :=
  match n with
  | O => 0
  | S n' => if Z.testbit x (Z.of_nat n') then 0 else 1 + clz_from n' x
  end.

Definition builtin_clz (x : Z) : Z := clz_from 32 x.

(** [#define INT_LOG2(x) (31 - __builtin_clz(x))] *)
Definition INT_LOG2 (x : Z) : Z := 31 - builtin_clz x.

(** ** Parameters and cache data structures *)

(** [typedef enum { FIFO = 1, LRU = 2 } Policy;] *)
Inductive Policy : Type := FIFO | LRU.

Definition Policy_code (p : Policy) : Z :=
  match p with FIFO => 1 | LRU => 2 end.

(** The parameters set by the command line: the globals [S], [K], [B]
    and [policy]. *)
Record Params : Type := mkParams {
  num_S : Z;
  num_K : Z;
  num_B : Z;
  policy : Policy
}.

(** What [parse_arguments] lets through: [S] and [B] are positive powers
    of two that fit an [int], [K] is a positive [int]. *)
Definition valid_params (p : Params) : Prop :=
  (exists s, 0 <= s <= 30 /\ num_S p = 2 ^ s) /\
  (exists b, 0 <= b <= 30 /\ num_B p = 2 ^ b) /\
  0 < num_K p <= INT_MAX.

(** [struct Block { bool Valid; long tag; int trackID; };] *)
Record Block : Type := mkBlock {
  Valid : bool;
  tag : Z;
  trackID : Z
}.

(** [struct Set] is an array of [K] blocks and [struct Cache] an array
    of [S] sets. *)
Record State : Type := mkState {
  currCache : list (list Block);
  miss_count : Z;
  hit_count : Z;
  eviction_count : Z;
  count : Z
}.

(** [allocate_cache]: [S] sets of [K] blocks; [malloc] leaves [tag] and
    [trackID] of every block as it finds them ([heap i j]), only [Valid]
    is cleared. *)
Definition allocate_cache (p : Params) (heap : nat -> nat -> Block)
  : list (list Block) :=
  map (fun i =>
         map (fun j => mkBlock false (tag (heap i j)) (trackID (heap i j)))
             (seq 0 (Z.to_nat (num_K p))))
      (seq 0 (Z.to_nat (num_S p))).

(** The state of the program when [replay_trace] starts. *)
Definition initial_state (p : Params) (heap : nat -> nat -> Block) : State :=
  mkState (allocate_cache p heap) 0 0 0 0.

(** ** The cache model: [access_data] *)

(** Address decoding, the first lines of [access_data]. *)
Definition set_mask (p : Params) : Z :=
  wrap32 (Z.shiftl 1 (INT_LOG2 (num_S p)) - 1).

Definition set_index (p : Params) (addr : Z) : Z :=
  to_long (Z.land (Z.shiftr addr (INT_LOG2 (num_B p))) (set_mask p)).

Definition tag_bits (p : Params) (addr : Z) : Z :=
  to_long (Z.shiftr addr (INT_LOG2 (num_S p) + INT_LOG2 (num_B p))).

(** The locals of the lookup loop; [hitBlock] is [Some hitBlockIndex]
    when [didHit] is set. *)
Record Scan : Type := mkScan {
  allValid : bool;
  firstEmptySlot : nat;
  hitBlock : option nat
}.

(** The lookup loop [for(int i=0; i<K; i++)], with [n] iterations left
    at index [i]. *)
Fixpoint scan_loop (blocks : list Block) (tagBits : Z) (n i : nat)
    (allV : bool) (firstEmpty : nat) : option Scan :=
  match n with
  | O => Some (mkScan allV firstEmpty None)
  | S n' =>
      currBlock ← blocks !! i;
      let '(allV1, firstEmpty1) :=
        if allV && negb (Valid currBlock) then (false, i)
        else (allV, firstEmpty) in
      if (tag currBlock =? tagBits) && Valid currBlock
      then Some (mkScan allV1 firstEmpty1 (Some i))
      else scan_loop blocks tagBits n' (S i) allV1 firstEmpty1
  end.

(** The victim loop; [idx] is [None] as long as [setIndexToEvict] has
    not been assigned. *)
Fixpoint evict_loop (blocks : list Block) (n i : nat)
    (minTrackID : Z) (idx : option nat) : option (option nat) :=
  match n with
  | O => Some idx
  | S n' =>
      b ← blocks !! i;
      if trackID b <? minTrackID
      then evict_loop blocks n' (S i) (trackID b) (Some i)
      else evict_loop blocks n' (S i) minTrackID idx
  end.

(** A write through [currSet.blockInSet[j]], where [currSet] is the set
    at [setIndex]. *)
Definition store_block (c : list (list Block)) (setIndex j : nat)
    (f : Block -> Block) : option (list (list Block)) :=
  blocks ← c !! setIndex;
  b ← blocks !! j;
  Some (<[setIndex := <[j := f b]> blocks]> c).

Definition stamp (cnt : Z) (b : Block) : Block :=
  mkBlock (Valid b) (tag b) cnt.

Definition fill (tagBits cnt : Z) (b : Block) : Block :=
  mkBlock true tagBits cnt.

Definition access_data (p : Params) (st : State) (addr : Z) : option State :=
  let setIndex := Z.to_nat (set_index p addr) in
  let tagBits := tag_bits p addr in
  currSet ← currCache st !! setIndex;
  v ← scan_loop currSet tagBits (Z.to_nat (num_K p)) 0 true 0;
  match hitBlock v with
  | Some hitBlockIndex =>
      c ← (if Policy_code (policy p) =? 2
            then store_block (currCache st) setIndex hitBlockIndex
                             (stamp (count st))
            else Some (currCache st));
      h ← int_incr (hit_count st);
      Some (mkState c (miss_count st) h (eviction_count st) (count st))
  | None =>
      if allValid v then
        idx ← evict_loop currSet (Z.to_nat (num_K p)) 0 INT_MAX None;
        setIndexToEvict ← idx;
        c ← store_block (currCache st) setIndex setIndexToEvict
                        (fill tagBits (count st));
        m ← int_incr (miss_count st);
        e ← int_incr (eviction_count st);
        Some (mkState c m (hit_count st) e (count st))
      else
        c ← store_block (currCache st) setIndex (firstEmptySlot v)
                        (fill tagBits (count st));
        m ← int_incr (miss_count st);
        Some (mkState c m (hit_count st) (eviction_count st) (count st))
  end.

(** ** The trace replayer: [replay_trace] *)

(** A trace line that passed the [op[0] != ' '] filter, as parsed by the
    [strtok] loop: [operation], [value] (unsigned long) and [len]
    (unsigned int). *)
Record Access : Type := mkAccess {
  operation : ascii;
  value : Z;
  len : Z
}.

(** [count++] *)
Definition count_incr (st : State) : option State :=
  c ← int_incr (count st);
  Some (mkState (currCache st) (miss_count st) (hit_count st)
                (eviction_count st) c).

(** [count++] on a state whose clock can advance. *)
Definition tick (st : State) : State :=
  mkState (currCache st) (miss_count st) (hit_count st) (eviction_count st)
          (count st + 1).

(** One [for(unsigned int i=0; i<len; i++)] loop of [replay_trace], with
    [n] iterations left at index [i]; [mask] is the mask the loop
    computes. *)
Fixpoint pass_loop (p : Params) (mask val : Z) (n : nat) (i : Z)
    (prevSetVal : Z) (st : State) : option State :=
  match n with
  | O => Some st
  | S n' =>
      let a := wrap64 (val + i) in
      let setValue := to_long (Z.land (Z.shiftr a (INT_LOG2 (num_B p))) mask) in
      if negb (prevSetVal =? setValue) then
        st1 ← access_data p st a;
        st2 ← count_incr st1;
        pass_loop p mask val n' (i + 1) setValue st2
      else pass_loop p mask val n' (i + 1) prevSetVal st
  end.

(** The mask of the first loop is computed from [B], the mask of the
    second one (operation [M]) from [S]. *)
Definition first_mask (p : Params) : Z :=
  wrap32 (Z.shiftl 1 (INT_LOG2 (num_B p)) - 1).

Definition second_mask (p : Params) : Z :=
  wrap32 (Z.shiftl 1 (INT_LOG2 (num_S p)) - 1).

(** The body of the [while] loop for one parsed line. *)
Definition replay_access (p : Params) (st : State) (r : Access)
  : option State :=
  st1 ← pass_loop p (first_mask p) (value r) (Z.to_nat (len r)) 0 (-1) st;
  if Ascii.eqb (operation r) "M"%char
  then pass_loop p (second_mask p) (value r) (Z.to_nat (len r)) 0 (-1) st1
  else Some st1.

Fixpoint replay_trace (p : Params) (st : State) (trace : list Access)
  : option State :=
  match trace with
  | [] => Some st
  | r :: rest => st1 ← replay_access p st r; replay_trace p st1 rest
  end.

(** ** Output *)

(** [%d] of [printf]. *)
Fixpoint digits (fuel : nat) (n : Z) (acc : string) : string :=
  match fuel with
  | O => acc
  | S fuel' =>
      let d := String (ascii_of_nat (48 + Z.to_nat (n mod 10))) acc in
      if n <? 10 then d else digits fuel' (n / 10) d
  end.

Definition format_d (n : Z) : string :=
  if n <? 0 then String "-"%char (digits 10 (- n) EmptyString)
  else digits 10 n EmptyString.

(** [print_summary]:
    [printf("hits:%d misses:%d evictions:%d\n", hits, misses, evictions)];
    the character of code 10 is the newline. *)
Definition print_summary (hits misses evictions : Z) : string :=
  ("hits:" ++ format_d hits ++ " misses:" ++ format_d misses ++
   " evictions:" ++ format_d evictions ++
   String (ascii_of_nat 10) EmptyString)%string.

(** [main] after [parse_arguments]: what the program writes to its
    standard output for the parsed lines of the trace file. *)
Definition main (p : Params) (heap : nat -> nat -> Block)
    (trace : list Access) : option string :=
  st ← replay_trace p (initial_state p heap) trace;
  Some (print_summary (hit_count st) (miss_count st) (eviction_count st)).

(** ** Command-line arguments: [parse_arguments] *)

(** [__builtin_ctz] on a 32-bit operand: the number of zero bits below
    the least significant one bit (no defined result at 0). *)
Fixpoint ctz_from (n : nat) (i : Z) (x : Z) : Z :=
  match n with
  | O => 0
  | S n' => if Z.testbit x i then 0 else 1 + ctz_from n' (i + 1) x
  end.

Definition builtin_ctz (x : Z) : Z := ctz_from 32 0 x.

(** [#define NOT_POWER2(x) (__builtin_clz(x) + __builtin_ctz(x) != 31)];
    the builtins take the [int] as an [unsigned int] and have no defined
    result when it is 0. *)
Definition NOT_POWER2 (x : Z) : option bool :=
  if wrap32 x =? 0 then None
  else Some (negb (builtin_clz x + builtin_ctz x =? 31)).

(** The globals that [parse_arguments] sets; [policy] is 0 (here
    [None]) until a policy is chosen, [trace_fp] is [NULL] (here [None])
    until a file is opened. *)
Record Globals : Type := mkGlobals {
  verbose : Z;
  arg_S : Z;
  arg_K : Z;
  arg_B : Z;
  arg_policy : option Policy;
  trace_fp : option string
}.

Definition globals_at_start : Globals := mkGlobals 0 0 0 0 None None.

(** The places where [parse_arguments] leaves the program. *)
Inductive Stop : Type :=
| S_not_power_of_2
| K_not_positive
| B_not_power_of_2
| policy_unknown
| file_not_opened
| help_asked
| option_unknown
| arguments_missing.

(** The argument of [exit]. *)
Definition exit_status (why : Stop) : Z :=
  match why with help_asked => 0 | _ => 1 end.

Inductive Parsing : Type :=
| Going (g : Globals)
| Exited (why : Stop)
| Undefined.

Section ParseArguments.
(** The two library functions [parse_arguments] relies on: [atoi], and
    whether [fopen(path, "r")] returns a stream. *)
Variable atoi : string -> Z.
Variable fopen : string -> bool.

(** One turn of the [while] loop: [c] is what [getopt] returned and
    [optarg] its argument. *)
Definition parse_option (g : Globals) (c : ascii) (optarg : string)
  : Parsing :=
  if Ascii.eqb c "S" then
    let S := atoi optarg in
    match NOT_POWER2 S with
    | None => Undefined
    | Some true => Exited S_not_power_of_2
    | Some false =>
        Going (mkGlobals (verbose g) S (arg_K g) (arg_B g) (arg_policy g)
                         (trace_fp g))
    end
  else if Ascii.eqb c "K" then
    let K := atoi optarg in
    if K <=? 0 then Exited K_not_positive
    else Going (mkGlobals (verbose g) (arg_S g) K (arg_B g) (arg_policy g)
                          (trace_fp g))
  else if Ascii.eqb c "B" then
    let B := atoi optarg in
    match NOT_POWER2 B with
    | None => Undefined
    | Some true => Exited B_not_power_of_2
    | Some false =>
        Going (mkGlobals (verbose g) (arg_S g) (arg_K g) B (arg_policy g)
                         (trace_fp g))
    end
  else if Ascii.eqb c "p" then
    let policy1 :=
      if String.eqb optarg "FIFO" then Some FIFO else arg_policy g in
    let policy2 :=
      if String.eqb optarg "LRU" then Some LRU else policy1 in
    match policy2 with
    | None => Exited policy_unknown
    | Some _ =>
        Going (mkGlobals (verbose g) (arg_S g) (arg_K g) (arg_B g) policy2
                         (trace_fp g))
    end
  else if Ascii.eqb c "t" then
    if fopen optarg
    then Going (mkGlobals (verbose g) (arg_S g) (arg_K g) (arg_B g)
                          (arg_policy g) (Some optarg))
    else Exited file_not_opened
  else if Ascii.eqb c "v" then
    Going (mkGlobals 1 (arg_S g) (arg_K g) (arg_B g) (arg_policy g)
                     (trace_fp g))
  else if Ascii.eqb c "h" then Exited help_asked
  else Exited option_unknown.

(** The [while] loop over what [getopt] returns, option by option. *)
Fixpoint parse_options (g : Globals) (opts : list (ascii * string))
  : Parsing :=
  match opts with
  | [] => Going g
  | (c, optarg) :: rest =>
      match parse_option g c optarg with
      | Going g1 => parse_options g1 rest
      | stopped => stopped
      end
  end.

(** [parse_arguments]: the loop, then the check that all the required
    arguments were given. *)
Definition parse_arguments (opts : list (ascii * string)) : Parsing :=
  match parse_options globals_at_start opts with
  | Going g =>
      if (arg_S g <=? 0) || (arg_K g <=? 0) || (arg_B g <=? 0) ||
         match arg_policy g with None => true | Some _ => false end ||
         match trace_fp g with None => true | Some _ => false end
      then Exited arguments_missing
      else Going g
  | stopped => stopped
  end.

End ParseArguments.

(** * Vocabulary of the properties *)

(** ** What a set holds *)

(** The test of the lookup loop:
    [(currTag == tagBits) && (currValid == 1)]. *)
Definition matches (t : Z) (b : Block) : bool := (tag b =? t) && Valid b.

(** [h] is the lowest index of a valid block with tag [t]. *)
Definition first_match (blocks : list Block) (t : Z) (h : nat) : Prop :=
  (exists b, blocks !! h = Some b /\ matches t b = true) /\
  forall j b, (j < h)%nat -> blocks !! j = Some b -> matches t b = false.

Definition no_match (blocks : list Block) (t : Z) : Prop :=
  forall j b, blocks !! j = Some b -> matches t b = false.

Definition all_valid (blocks : list Block) : Prop :=
  forall j b, blocks !! j = Some b -> Valid b = true.

(** [e] is the lowest index of an invalid block. *)
Definition first_invalid (blocks : list Block) (e : nat) : Prop :=
  (exists b, blocks !! e = Some b /\ Valid b = false) /\
  forall j b, (j < e)%nat -> blocks !! j = Some b -> Valid b = true.

(** [v] is the lowest index among the blocks of minimal [trackID]. *)
Definition first_min (blocks : list Block) (v : nat) : Prop :=
  exists b, blocks !! v = Some b /\
    (forall j b', blocks !! j = Some b' -> trackID b <= trackID b') /\
    (forall j b', (j < v)%nat -> blocks !! j = Some b' ->
                  trackID b < trackID b').

(** Within a set, no two distinct valid lines have the same tag. *)
Definition distinct_tags (blocks : list Block) : Prop :=
  forall i j bi bj,
    blocks !! i = Some bi -> blocks !! j = Some bj ->
    Valid bi = true -> Valid bj = true -> tag bi = tag bj -> i = j.

(** Some valid line of the set has tag [t]: the set holds the tag. *)
Definition holds_tag (blocks : list Block) (t : Z) : bool :=
  existsb (matches t) blocks.

(** ** The three outcomes of [access_data] *)

(** The states the three branches of [access_data] end in. *)
Definition hit_state (p : Params) (st : State) (setIndex h : nat)
    (blocks : list Block) (b : Block) : State :=
  mkState
    (match policy p with
     | LRU => <[setIndex := <[h := stamp (count st) b]> blocks]> (currCache st)
     | FIFO => currCache st
     end)
    (miss_count st) (hit_count st + 1) (eviction_count st) (count st).

Definition miss_state (st : State) (setIndex e : nat) (blocks : list Block)
    (tagBits : Z) : State :=
  mkState
    (<[setIndex := <[e := mkBlock true tagBits (count st)]> blocks]>
       (currCache st))
    (miss_count st + 1) (hit_count st) (eviction_count st) (count st).

Definition evict_state (st : State) (setIndex v : nat) (blocks : list Block)
    (tagBits : Z) : State :=
  mkState
    (<[setIndex := <[v := mkBlock true tagBits (count st)]> blocks]>
       (currCache st))
    (miss_count st + 1) (hit_count st) (eviction_count st + 1) (count st).

(** How a call ends, told from the addressed set alone. *)
Inductive Outcome : Type :=
| Hit (h : nat) (b : Block)
| MissFill (e : nat)
| MissEvict (v : nat)
| NoVictim.

Definition outcome_ok (blocks : list Block) (t : Z) (o : Outcome) : Prop :=
  match o with
  | Hit h b => first_match blocks t h /\ blocks !! h = Some b
  | MissFill e => no_match blocks t /\ first_invalid blocks e
  | MissEvict v =>
      no_match blocks t /\ all_valid blocks /\ first_min blocks v /\
      exists b, blocks !! v = Some b /\ trackID b < INT_MAX
  | NoVictim =>
      no_match blocks t /\ all_valid blocks /\
      forall j b, blocks !! j = Some b -> INT_MAX <= trackID b
  end.

Definition outcome_result (p : Params) (st : State) (setIndex : nat)
    (blocks : list Block) (t : Z) (o : Outcome) : option State :=
  match o with
  | Hit h b =>
      if hit_count st <? INT_MAX
      then Some (hit_state p st setIndex h blocks b) else None
  | MissFill e =>
      if miss_count st <? INT_MAX
      then Some (miss_state st setIndex e blocks t) else None
  | MissEvict v =>
      if (miss_count st <? INT_MAX) && (eviction_count st <? INT_MAX)
      then Some (evict_state st setIndex v blocks t) else None
  | NoVictim => None
  end.

(** ** Runs and their invariant *)

(** A run of the cache model as [replay_trace] drives it: every call of
    [access_data] is followed by [count++]. *)
Fixpoint run_calls (p : Params) (st : State) (addrs : list Z) : option State :=
  match addrs with
  | [] => Some st
  | a :: rest =>
      st1 ← access_data p st a;
      st2 ← count_incr st1;
      run_calls p st2 rest
  end.

(** The states between two calls of a run that starts from the freshly
    allocated cache. *)
Definition reachable (p : Params) (st : State) : Prop :=
  exists heap addrs, run_calls p (initial_state p heap) addrs = Some st.

Definition cache_shape (p : Params) (c : list (list Block)) : Prop :=
  length c = Z.to_nat (num_S p) /\
  forall i blocks, c !! i = Some blocks -> length blocks = Z.to_nat (num_K p).

(** The cache part of the invariant, at clock value [cnt]: the arrays
    have their sizes, the valid lines carry stamps of earlier calls, and
    the valid lines of a set have distinct tags. *)
Definition cache_inv (p : Params) (c : list (list Block)) (cnt : Z) : Prop :=
  cache_shape p c /\
  (forall i blocks j b, c !! i = Some blocks -> blocks !! j = Some b ->
                        Valid b = true -> 0 <= trackID b < cnt) /\
  (forall i blocks, c !! i = Some blocks -> distinct_tags blocks).

Definition Inv (p : Params) (st : State) : Prop :=
  cache_inv p (currCache st) (count st) /\
  0 <= count st <= INT_MAX /\
  hit_count st + miss_count st = count st /\
  0 <= hit_count st /\
  0 <= eviction_count st <= miss_count st.

(** ** The calls the replayer makes *)

(** The addresses one [for] loop of [replay_trace] hands to
    [access_data], in order. *)
Fixpoint pass_calls (p : Params) (mask val : Z) (n : nat) (i : Z)
    (prevSetVal : Z) : list Z :=
  match n with
  | O => []
  | S n' =>
      let a := wrap64 (val + i) in
      let setValue := to_long (Z.land (Z.shiftr a (INT_LOG2 (num_B p))) mask) in
      if negb (prevSetVal =? setValue)
      then a :: pass_calls p mask val n' (i + 1) setValue
      else pass_calls p mask val n' (i + 1) prevSetVal
  end.

Definition read_calls (p : Params) (r : Access) : list Z :=
  pass_calls p (first_mask p) (value r) (Z.to_nat (len r)) 0 (-1).

Definition write_calls (p : Params) (r : Access) : list Z :=
  if Ascii.eqb (operation r) "M"%char
  then pass_calls p (second_mask p) (value r) (Z.to_nat (len r)) 0 (-1)
  else [].

Definition access_calls (p : Params) (r : Access) : list Z :=
  read_calls p r ++ write_calls p r.

Definition trace_calls (p : Params) (trace : list Access) : list Z :=
  flat_map (access_calls p) trace.

(** ** Counters and stamps *)

(** The three ways a call of [access_data] moves the counters. *)
Definition counts_hit (st st1 : State) : Prop :=
  hit_count st1 = hit_count st + 1 /\ miss_count st1 = miss_count st /\
  eviction_count st1 = eviction_count st.

Definition counts_miss (st st1 : State) : Prop :=
  hit_count st1 = hit_count st /\ miss_count st1 = miss_count st + 1 /\
  eviction_count st1 = eviction_count st.

Definition counts_miss_eviction (st st1 : State) : Prop :=
  hit_count st1 = hit_count st /\ miss_count st1 = miss_count st + 1 /\
  eviction_count st1 = eviction_count st + 1.

(** The call that leads from [st] to [st1] left the stamp [s] in a line
    it changed. *)
Definition restamped (st st1 : State) (s : Z) : Prop :=
  exists i j bl blk bl1 blk1,
    currCache st !! i = Some bl /\ bl !! j = Some blk /\
    currCache st1 !! i = Some bl1 /\ bl1 !! j = Some blk1 /\
    blk1 <> blk /\ trackID blk1 = s.

(** ** Scenarios of the specification *)

(** The scenario of the two-line FIFO set: the calls for [a], [b], [a]
    again and [c]. *)
Definition fifo_scenario (p : Params) (st : State) (a b c : Z)
  : option State :=
  run_calls p st [a; b; a; c].

(** What C2 says of the scenario: afterwards the addressed set still
    holds the tag of [a] and no longer holds the tag of [b]. *)
Definition evicts_second_keeps_first (p : Params) (st : State) (a b c : Z)
  : Prop :=
  exists st' blocks,
    fifo_scenario p st a b c = Some st' /\
    currCache st' !! Z.to_nat (set_index p a) = Some blocks /\
    holds_tag blocks (tag_bits p a) = true /\
    holds_tag blocks (tag_bits p b) = false.

(** What C5 says of a record: it makes two calls, the first one a miss
    (with or without an eviction) and the second one a hit. *)
Definition one_miss_then_one_hit (p : Params) (st : State) (r : Access)
  : Prop :=
  exists a1 a2 st1 st3,
    access_calls p r = [a1; a2] /\
    access_data p st a1 = Some st1 /\
    (counts_miss st st1 \/ counts_miss_eviction st st1) /\
    access_data p (tick st1) a2 = Some st3 /\
    counts_hit (tick st1) st3 /\
    replay_access p st r = Some (tick st3).

(** The bytes [val .. val+len-1] lie in one line of [B] bytes. *)
Definition within_one_line (p : Params) (val len : Z) : Prop :=
  0 <= val /\ 0 < len /\ val + len <= 2 ^ 64 /\
  Z.shiftr (val + len - 1) (INT_LOG2 (num_B p))
    = Z.shiftr val (INT_LOG2 (num_B p)).

(** The cache line of [B] bytes an address lies in. *)
Definition line_of (p : Params) (a : Z) : Z :=
  Z.shiftr a (INT_LOG2 (num_B p)).

(** The distinct cache lines touched by the bytes
    [value .. value+len-1] of a record, each once (after the words of
    the specification, to compare the replayer with). *)
Definition lines_touched (p : Params) (r : Access) : list Z :=
  remove_dups
    (map (fun i => line_of p (wrap64 (value r + i))) (seqZ 0 (len r))).

(** ** Occupancy, provenance and comparison of states *)

(** The number of valid lines of a set, and of the cache. *)
Definition occupied (blocks : list Block) : Z :=
  Z.of_nat (length (List.filter Valid blocks)).

Definition occupied_cache (c : list (list Block)) : Z :=
  fold_right (fun blocks n => occupied blocks + n) 0 c.

(** Valid lines, wherever they are in the cache, carry different
    stamps. *)
Definition distinct_stamps (c : list (list Block)) : Prop :=
  forall i j i' j' bl b bl' b',
    c !! i = Some bl -> bl !! j = Some b ->
    c !! i' = Some bl' -> bl' !! j' = Some b' ->
    Valid b = true -> Valid b' = true -> trackID b = trackID b' ->
    i = i' /\ j = j'.

(** Two lines that agree as far as the program can tell: both invalid,
    or valid and equal. *)
Definition same_line (b1 b2 : Block) : Prop :=
  Valid b1 = Valid b2 /\ (Valid b1 = true -> b1 = b2).

(** Two states that differ at most in what their invalid lines hold. *)
Definition same_results (st1 st2 : State) : Prop :=
  Forall2 (Forall2 same_line) (currCache st1) (currCache st2) /\
  miss_count st1 = miss_count st2 /\
  hit_count st1 = hit_count st2 /\
  eviction_count st1 = eviction_count st2 /\
  count st1 = count st2.

(** Every valid line of the cache holds the set and the tag of one of
    the addresses [addrs]. *)
Definition lines_from (p : Params) (addrs : list Z) (c : list (list Block))
  : Prop :=
  forall i blocks j b,
    c !! i = Some blocks -> blocks !! j = Some b -> Valid b = true ->
    exists a, In a addrs /\ Z.to_nat (set_index p a) = i /\
              tag_bits p a = tag b.

(** The addresses of the bytes [value .. value+len-1] of a record, as
    the loops of [replay_trace] compute them. *)
Definition span_bytes (r : Access) : list Z :=
  map (fun i => wrap64 (value r + i)) (seqZ 0 (len r)).

(** The parameters [p] with another eviction policy. *)
Definition with_policy (p : Params) (pol : Policy) : Params :=
  mkParams (num_S p) (num_K p) (num_B p) pol.

(** Two lines that hold the same: both invalid, or both valid with the
    same tag (their stamps may differ). *)
Definition same_tag (b1 b2 : Block) : Prop :=
  Valid b1 = Valid b2 /\ (Valid b1 = true -> tag b1 = tag b2).

Definition same_contents (st1 st2 : State) : Prop :=
  Forall2 (Forall2 same_tag) (currCache st1) (currCache st2) /\
  miss_count st1 = miss_count st2 /\
  hit_count st1 = hit_count st2 /\
  eviction_count st1 = eviction_count st2 /\
  count st1 = count st2.

(** What a call finds in a set of one line. *)
Definition one_line_outcome (t : Z) (b : Block) : Outcome :=
  if matches t b then Hit 0 b
  else if Valid b then MissEvict 0 else MissFill 0.

(** ** The command line *)

(** The spelling of a policy on the command line. *)
Definition policy_name (pol : Policy) : string :=
  match pol with FIFO => "FIFO" | LRU => "LRU" end.

(** What the loop of [parse_arguments] has established about the globals
    after some of the options [all]: a global still has its initial
    value or was set from an option that passed its check. *)
Definition args_checked (atoi : string -> Z) (fopen : string -> bool)
    (all : list (ascii * string)) (g : Globals) : Prop :=
  (arg_S g = 0 \/
   NOT_POWER2 (arg_S g) = Some false /\
   exists s, In ("S"%char, s) all /\ atoi s = arg_S g) /\
  (arg_K g = 0 \/
   0 < arg_K g /\ exists s, In ("K"%char, s) all /\ atoi s = arg_K g) /\
  (arg_B g = 0 \/
   NOT_POWER2 (arg_B g) = Some false /\
   exists s, In ("B"%char, s) all /\ atoi s = arg_B g) /\
  (forall pol, arg_policy g = Some pol ->
               In ("p"%char, policy_name pol) all) /\
  (forall path, trace_fp g = Some path ->
                fopen path = true /\ In ("t"%char, path) all).

(** ** Example inputs *)

(** What [malloc] hands out in the examples: lines that look valid, with
    tag 77 and stamp 99. *)
Definition stale_heap (i j : nat) : Block := mkBlock true 77 99.

(** [-S 1 -K 2 -B 16 -p FIFO] *)
Definition two_way_fifo : Params := mkParams 1 2 16 FIFO.

(** [-S 4 -K 1 -B 16 -p LRU] *)
Definition four_sets_lru : Params := mkParams 4 1 16 LRU.

(** [-S 1 -K 1 -B 16 -p LRU] *)
Definition one_line_lru : Params := mkParams 1 1 16 LRU.

(** [-S 2 -K 1 -B 1 -p LRU] *)
Definition byte_lines_lru : Params := mkParams 2 1 1 LRU.

(** The lines [ L 0,1] and [ L 20,1] of a trace file as the [strtok]
    loop parses them: the address is read in base 16, the length in
    base 10. *)
Definition two_loads : list Access :=
  [mkAccess "L" 0 1; mkAccess "L" 32 1].

(** The state after the load of address 0 into the fresh cache of one
    line. *)
Definition after_first_load : State :=
  mkState [[mkBlock true 0 0]] 1 0 0 1.

(** Memory that happens to be zeroed. *)
Definition zeroed_heap (i j : nat) : Block := mkBlock false 0 0.

(** [-S 1 -K 2 -B 16 -p LRU] *)
Definition two_way_lru : Params := mkParams 1 2 16 LRU.

(** An [atoi] for the numbers of the example command lines. *)
Definition example_atoi (s : string) : Z :=
  if String.eqb s "16" then 16
  else if String.eqb s "2" then 2
  else if String.eqb s "1" then 1
  else 0.

(** A file system in which only [yi2.trace] can be opened. *)
Definition example_fopen (path : string) : bool :=
  String.eqb path "yi2.trace".

Definition example_options : list (ascii * string) :=
  [("S"%char, "1"); ("K"%char, "2"); ("B"%char, "16"); ("p"%char, "LRU");
   ("t"%char, "yi2.trace")]%string.

(** [-S 1 -K 3 -B 16 -p FIFO] *)
Definition three_way_fifo : Params := mkParams 1 3 16 FIFO.

(** A state whose only set is full, and in which the two lines of least
    stamp carry the same stamp. *)
Definition tied_stamps : State :=
  mkState [[mkBlock true 0 7; mkBlock true 1 5; mkBlock true 2 5]] 3 0 0 8.

(** * Lemmas *)

(** ** C integers: facts *)

Lemma int_incr_Some x y : int_incr x = Some y <-> x < INT_MAX /\ y = x + 1.
Proof.
  unfold int_incr. destruct (Z.ltb_spec x INT_MAX); split.
  - intros [= <-]. lia.
  - intros [_ ->]. reflexivity.
  - discriminate.
  - lia.
Qed.

Lemma INT_LOG2_pow2 s : 0 <= s <= 30 -> INT_LOG2 (2 ^ s) = s.
Proof.
  intros Hs.
  assert (Hall : forallb (fun n => INT_LOG2 (2 ^ Z.of_nat n) =? Z.of_nat n)
                         (seq 0 31) = true) by (vm_compute; reflexivity).
  rewrite forallb_forall in Hall.
  specialize (Hall (Z.to_nat s)).
  rewrite Z2Nat.id in Hall by lia.
  apply Z.eqb_eq, Hall, in_seq. lia.
Qed.

Lemma mask_pow2 s : 0 <= s <= 30 -> wrap32 (Z.shiftl 1 s - 1) = Z.ones s.
Proof.
  intros Hs. unfold wrap32. rewrite Z.ones_equiv, Z.shiftl_1_l.
  assert (0 < 2 ^ s) by (apply Z.pow_pos_nonneg; lia).
  assert (2 ^ s <= 2 ^ 30) by (apply Z.pow_le_mono_r; lia).
  apply Z.mod_small. change (2 ^ 30) with 1073741824 in *.
  change (2 ^ 32) with 4294967296. lia.
Qed.

Lemma to_long_small x : 0 <= x < 2 ^ 63 -> to_long x = x.
Proof.
  intros Hx. unfold to_long. destruct (Z.ltb_spec x (2 ^ 63)); lia.
Qed.

(** The decoded set index names one of the [S] sets. *)
Lemma set_index_range p addr :
  valid_params p -> 0 <= set_index p addr < num_S p.
Proof.
  intros [[s [Hs HS]] _]. unfold set_index, set_mask.
  rewrite HS, INT_LOG2_pow2, mask_pow2, Z.land_ones by lia.
  assert (0 < 2 ^ s) by (apply Z.pow_pos_nonneg; lia).
  assert (2 ^ s <= 2 ^ 30) by (apply Z.pow_le_mono_r; lia).
  pose proof (Z.mod_pos_bound (Z.shiftr addr (INT_LOG2 (num_B p))) (2 ^ s)).
  change (2 ^ 30) with 1073741824 in *.
  rewrite to_long_small; [lia|]. change (2 ^ 63) with 9223372036854775808. lia.
Qed.

(** ** The two loops of [access_data] *)

Section Loops.
Variable blocks : list Block.

(** The lookup loop over the lines [i .. i+n-1]: it stops at the first
    valid line with the tag; without one it reports whether all lines
    were valid and otherwise the first invalid one. *)
Lemma scan_loop_range (t : Z) : forall n i allV fe,
  (i + n <= length blocks)%nat ->
  exists v, scan_loop blocks t n i allV fe = Some v /\
    match hitBlock v with
    | Some h =>
        (i <= h < i + n)%nat /\
        (exists b, blocks !! h = Some b /\ matches t b = true) /\
        (forall j b, (i <= j < h)%nat -> blocks !! j = Some b ->
                     matches t b = false)
    | None =>
        (forall j b, (i <= j < i + n)%nat -> blocks !! j = Some b ->
                     matches t b = false) /\
        if allValid v
        then allV = true /\
             forall j b, (i <= j < i + n)%nat -> blocks !! j = Some b ->
                         Valid b = true
        else (allV = false /\ firstEmptySlot v = fe) \/
             (allV = true /\
              (i <= firstEmptySlot v < i + n)%nat /\
              (exists b, blocks !! firstEmptySlot v = Some b /\
                         Valid b = false) /\
              forall j b, (i <= j < firstEmptySlot v)%nat ->
                          blocks !! j = Some b -> Valid b = true)
    end.
Proof.
  induction n as [|n IH]; intros i allV fe Hlen.
  - eexists; split; [reflexivity|]. simpl. split; [intros; lia|].
    destruct allV; [split; [reflexivity|intros; lia] | left; auto].
  - destruct (lookup_lt_is_Some_2 blocks i) as [b Hb]; [lia|].
    simpl. rewrite Hb. simpl.
    fold (matches t b).
    destruct (matches t b) eqn:Hm.
    + destruct (allV && negb (Valid b)); eexists; (split; [reflexivity|]);
        simpl; (split; [lia|]); (split; [eauto|]); intros; lia.
    + destruct (IH (S i) (if allV && negb (Valid b) then false else allV)
                   (if allV && negb (Valid b) then i else fe))
        as (v & Hv & Hspec); [lia|].
      exists v. split.
      { destruct (allV && negb (Valid b)); exact Hv. }
      destruct (hitBlock v) as [h|].
      * destruct Hspec as (Hh & Hhit & Hbefore).
        split; [lia|]. split; [exact Hhit|].
        intros j b' Hj Hjb. destruct (decide (j = i)) as [->|Hne].
        -- congruence.
        -- apply (Hbefore j); [lia|done].
      * destruct Hspec as (Hno & Hval). split.
        { intros j b' Hj Hjb. destruct (decide (j = i)) as [->|Hne].
          - congruence.
          - apply (Hno j); [lia|done]. }
        destruct (allValid v).
        -- destruct Hval as [HallV Hval].
           destruct allV; [|destruct (negb (Valid b)); discriminate].
           destruct (Valid b) eqn:HVb; [|discriminate]. simpl in *.
           split; [reflexivity|].
           intros j b' Hj Hjb. destruct (decide (j = i)) as [->|Hne].
           ++ congruence.
           ++ apply (Hval j); [lia|done].
        -- destruct allV;
             [|left; simpl in *;
               destruct Hval as [[_ ?]|[? _]]; [done|discriminate]].
           right. split; [reflexivity|].
           destruct (Valid b) eqn:HVb; simpl in *.
           ++ destruct Hval as [[? _]|(_ & Hfe & Hinv & Hpre)];
                [discriminate|].
              split; [lia|]. split; [exact Hinv|].
              intros j b' Hj Hjb. destruct (decide (j = i)) as [->|Hne].
              ** congruence.
              ** apply (Hpre j); [lia|done].
           ++ destruct Hval as [[_ ->]|[? _]]; [|discriminate].
              split; [lia|]. split; [eauto|]. intros; lia.
Qed.

(** The victim loop over the lines [i .. i+n-1], entered with the
    minimum [m] seen so far: it ends on the first line of least
    [trackID] below [m], and leaves [idx] as it was when there is
    none. *)
Lemma evict_loop_range : forall n i m idx,
  (i + n <= length blocks)%nat ->
  exists r, evict_loop blocks n i m idx = Some r /\
    ((r = idx /\
      forall j b, (i <= j < i + n)%nat -> blocks !! j = Some b ->
                  m <= trackID b) \/
     (exists v b, r = Some v /\ (i <= v < i + n)%nat /\
        blocks !! v = Some b /\ trackID b < m /\
        (forall j b', (i <= j < i + n)%nat -> blocks !! j = Some b' ->
                      trackID b <= trackID b') /\
        (forall j b', (i <= j < v)%nat -> blocks !! j = Some b' ->
                      trackID b < trackID b'))).
Proof.
  induction n as [|n IH]; intros i m idx Hlen.
  - exists idx. split; [reflexivity|]. left. split; [reflexivity|].
    intros; lia.
  - destruct (lookup_lt_is_Some_2 blocks i) as [b Hb]; [lia|].
    simpl. rewrite Hb. simpl.
    destruct (Z.ltb_spec (trackID b) m) as [Hlt|Hge].
    + destruct (IH (S i) (trackID b) (Some i)) as (r & Hr & Hspec); [lia|].
      exists r. split; [exact Hr|]. right.
      destruct Hspec as [[-> Hall]|(v & b' & -> & Hv & Hvb & Hlt' & Hmin & Hpre)].
      * exists i, b. split; [done|]; split; [lia|]; split; [done|]; split; [lia|]; split.
        -- intros j b' Hj Hjb. destruct (decide (j = i)) as [->|Hne].
           ++ assert (b' = b) by congruence. subst. lia.
           ++ apply (Hall j); [lia|done].
        -- intros; lia.
      * exists v, b'. split; [done|]; split; [lia|]; split; [done|]; split; [lia|]; split.
        -- intros j b'' Hj Hjb. destruct (decide (j = i)) as [->|Hne].
           ++ assert (b'' = b) by congruence. subst. lia.
           ++ apply (Hmin j); [lia|done].
        -- intros j b'' Hj Hjb. destruct (decide (j = i)) as [->|Hne].
           ++ assert (b'' = b) by congruence. subst. lia.
           ++ apply (Hpre j); [lia|done].
    + destruct (IH (S i) m idx) as (r & Hr & Hspec); [lia|].
      exists r. split; [exact Hr|].
      destruct Hspec as [[-> Hall]|(v & b' & -> & Hv & Hvb & Hlt' & Hmin & Hpre)].
      * left. split; [reflexivity|].
        intros j b' Hj Hjb. destruct (decide (j = i)) as [->|Hne].
        -- assert (b' = b) by congruence. subst. lia.
        -- apply (Hall j); [lia|done].
      * right. exists v, b'. split; [done|]; split; [lia|]; split; [done|]; split; [lia|]; split.
        -- intros j b'' Hj Hjb. destruct (decide (j = i)) as [->|Hne].
           ++ assert (b'' = b) by congruence. subst. lia.
           ++ apply (Hmin j); [lia|done].
        -- intros j b'' Hj Hjb. destruct (decide (j = i)) as [->|Hne].
           ++ assert (b'' = b) by congruence. subst. lia.
           ++ apply (Hpre j); [lia|done].
Qed.
End Loops.

(** The loops as [access_data] runs them: over all the lines of a set. *)
Lemma scan_loop_full (blocks : list Block) (t : Z) :
  exists v, scan_loop blocks t (length blocks) 0 true 0 = Some v /\
    match hitBlock v with
    | Some h => first_match blocks t h
    | None =>
        no_match blocks t /\
        if allValid v then all_valid blocks
        else first_invalid blocks (firstEmptySlot v)
    end.
Proof.
  destruct (scan_loop_range blocks t (length blocks) 0 true 0)
    as (v & Hv & Hspec); [lia|].
  exists v. split; [exact Hv|].
  destruct (hitBlock v) as [h|].
  - destruct Hspec as (_ & Hhit & Hpre). split; [exact Hhit|].
    intros j b Hj. apply Hpre. lia.
  - destruct Hspec as (Hno & Hval). split.
    + intros j b Hjb. apply (Hno j); [|done].
      apply lookup_lt_Some in Hjb. lia.
    + destruct (allValid v).
      * destruct Hval as [_ Hval]. intros j b Hjb. apply (Hval j); [|done].
        apply lookup_lt_Some in Hjb. lia.
      * destruct Hval as [[? _]|(_ & _ & Hinv & Hpre)]; [discriminate|].
        split; [exact Hinv|]. intros j b Hj. apply Hpre. lia.
Qed.

Lemma evict_loop_full (blocks : list Block) :
  (exists v, evict_loop blocks (length blocks) 0 INT_MAX None = Some (Some v) /\
             first_min blocks v /\
             exists b, blocks !! v = Some b /\ trackID b < INT_MAX) \/
  (evict_loop blocks (length blocks) 0 INT_MAX None = Some None /\
   forall j b, blocks !! j = Some b -> INT_MAX <= trackID b).
Proof.
  destruct (evict_loop_range blocks (length blocks) 0 INT_MAX None)
    as (r & Hr & [[-> Hall]|(v & b & -> & Hv & Hvb & Hlt & Hmin & Hpre)]);
    [lia| |].
  - right. split; [exact Hr|]. intros j b Hjb. apply (Hall j); [|done].
    apply lookup_lt_Some in Hjb. lia.
  - left. exists v. split; [exact Hr|]. split; [|eauto].
    exists b. split; [exact Hvb|]. split.
    + intros j b' Hjb. apply (Hmin j); [|done].
      apply lookup_lt_Some in Hjb. lia.
    + intros j b' Hj. apply Hpre. lia.
Qed.

(** What the lines of a set say is unambiguous. *)
Lemma first_match_unique blocks t h h' :
  first_match blocks t h -> first_match blocks t h' -> h = h'.
Proof.
  intros [(b & Hb & Hm) Hpre] [(b' & Hb' & Hm') Hpre'].
  destruct (Nat.lt_trichotomy h h') as [Hlt|[Heq|Hgt]]; [|exact Heq|].
  - rewrite (Hpre' h b Hlt Hb) in Hm. discriminate.
  - rewrite (Hpre h' b' Hgt Hb') in Hm'. discriminate.
Qed.

Lemma first_match_no_match blocks t h :
  first_match blocks t h -> no_match blocks t -> False.
Proof.
  intros [(b & Hb & Hm) _] Hno. rewrite (Hno h b Hb) in Hm. discriminate.
Qed.

Lemma first_invalid_unique blocks e e' :
  first_invalid blocks e -> first_invalid blocks e' -> e = e'.
Proof.
  intros [(b & Hb & Hv) Hpre] [(b' & Hb' & Hv') Hpre'].
  destruct (Nat.lt_trichotomy e e') as [Hlt|[Heq|Hgt]]; [|exact Heq|].
  - rewrite (Hpre' e b Hlt Hb) in Hv. discriminate.
  - rewrite (Hpre e' b' Hgt Hb') in Hv'. discriminate.
Qed.

Lemma first_invalid_all_valid blocks e :
  first_invalid blocks e -> all_valid blocks -> False.
Proof.
  intros [(b & Hb & Hv) _] Hall. rewrite (Hall e b Hb) in Hv. discriminate.
Qed.

Lemma first_min_unique blocks v v' :
  first_min blocks v -> first_min blocks v' -> v = v'.
Proof.
  intros (b & Hb & Hmin & Hpre) (b' & Hb' & Hmin' & Hpre').
  destruct (Nat.lt_trichotomy v v') as [Hlt|[Heq|Hgt]]; [|exact Heq|].
  - specialize (Hpre' v b Hlt Hb). specialize (Hmin v' b' Hb'). lia.
  - specialize (Hpre v' b' Hgt Hb'). specialize (Hmin' v b Hb). lia.
Qed.

(** ** The outcome determines the call *)

Lemma int_incr_bind {A} x (k : Z -> option A) :
  (int_incr x ≫= k) = if x <? INT_MAX then k (x + 1) else None.
Proof. unfold int_incr. destruct (x <? INT_MAX); reflexivity. Qed.

Lemma store_block_Some c si j f blocks b :
  c !! si = Some blocks -> blocks !! j = Some b ->
  store_block c si j f = Some (<[si := <[j := f b]> blocks]> c).
Proof. intros Hc Hb. unfold store_block. rewrite Hc. simpl. rewrite Hb. done. Qed.

(** Every call on a set of [K] lines ends in exactly one of the
    outcomes, and the outcome fixes the result. *)
Lemma access_data_outcome p st addr blocks :
  currCache st !! Z.to_nat (set_index p addr) = Some blocks ->
  length blocks = Z.to_nat (num_K p) ->
  exists o,
    outcome_ok blocks (tag_bits p addr) o /\
    access_data p st addr =
      outcome_result p st (Z.to_nat (set_index p addr)) blocks
                     (tag_bits p addr) o.
Proof.
  intros Hset HK. unfold access_data. rewrite Hset. simpl. rewrite <- HK.
  destruct (scan_loop_full blocks (tag_bits p addr)) as (v & -> & Hspec).
  simpl. destruct (hitBlock v) as [h|].
  - destruct (Hspec) as [(b & Hb & Hm) Hpre].
    exists (Hit h b). split; [split; done|]. simpl.
    unfold hit_state. destruct (policy p); simpl.
    + rewrite int_incr_bind. reflexivity.
    + rewrite (store_block_Some _ _ _ _ blocks b) by done. simpl.
      rewrite int_incr_bind. reflexivity.
  - destruct Hspec as [Hno Hval]. destruct (allValid v).
    + destruct (evict_loop_full blocks) as [(w & -> & Hmin & b & Hb & Hlt)|[-> Hall]].
      * exists (MissEvict w). split; [simpl; eauto 10|]. simpl.
        rewrite (store_block_Some _ _ _ _ blocks b) by done. simpl.
        rewrite !int_incr_bind. unfold evict_state, fill.
        destruct (miss_count st <? INT_MAX); [|reflexivity]. simpl.
        try rewrite int_incr_bind.
        destruct (eviction_count st <? INT_MAX); reflexivity.
      * exists NoVictim. split; [simpl; auto|]. reflexivity.
    + exists (MissFill (firstEmptySlot v)). split; [split; done|]. simpl.
      destruct Hval as [(b & Hb & _) _].
      rewrite (store_block_Some _ _ _ _ blocks b) by done. simpl.
      rewrite int_incr_bind. reflexivity.
Qed.

(** The outcome is determined by the set. *)
Lemma outcome_ok_unique blocks t o o' :
  outcome_ok blocks t o -> outcome_ok blocks t o' -> o = o'.
Proof.
  destruct o as [h b|e|v|], o' as [h' b'|e'|v'|]; simpl; intros H H'.
  - destruct H as [Hf Hb], H' as [Hf' Hb'].
    assert (h = h') by eauto using first_match_unique. subst.
    congruence.
  - exfalso. destruct H, H'. eauto using first_match_no_match.
  - exfalso. destruct H, H'. eauto using first_match_no_match.
  - exfalso. destruct H, H'. eauto using first_match_no_match.
  - exfalso. destruct H, H'. eauto using first_match_no_match.
  - destruct H, H'. f_equal. eauto using first_invalid_unique.
  - exfalso. destruct H as [_ ?], H' as (_ & ? & _).
    eauto using first_invalid_all_valid.
  - exfalso. destruct H as [_ ?], H' as (_ & ? & _).
    eauto using first_invalid_all_valid.
  - exfalso. destruct H, H'. eauto using first_match_no_match.
  - exfalso. destruct H' as [_ ?], H as (_ & ? & _).
    eauto using first_invalid_all_valid.
  - destruct H as (_ & _ & ? & _), H' as (_ & _ & ? & _).
    f_equal. eauto using first_min_unique.
  - exfalso. destruct H as (_ & _ & _ & b & Hb & Hlt), H' as (_ & _ & Hall).
    specialize (Hall _ _ Hb). lia.
  - exfalso. destruct H, H'. eauto using first_match_no_match.
  - exfalso. destruct H' as [_ ?], H as (_ & ? & _).
    eauto using first_invalid_all_valid.
  - exfalso. destruct H' as (_ & _ & _ & b & Hb & Hlt), H as (_ & _ & Hall).
    specialize (Hall _ _ Hb). lia.
  - reflexivity.
Qed.

(** The result of a call whose outcome is known. *)
Lemma access_data_by_outcome p st addr blocks o :
  currCache st !! Z.to_nat (set_index p addr) = Some blocks ->
  length blocks = Z.to_nat (num_K p) ->
  outcome_ok blocks (tag_bits p addr) o ->
  access_data p st addr =
    outcome_result p st (Z.to_nat (set_index p addr)) blocks
                   (tag_bits p addr) o.
Proof.
  intros Hset HK Hok.
  destruct (access_data_outcome p st addr blocks Hset HK) as (o' & Hok' & ->).
  f_equal. eauto using outcome_ok_unique.
Qed.

(** The results of the three outcomes when the counters can be
    incremented. *)
Lemma hit_result p st si blocks t h b :
  hit_count st < INT_MAX ->
  outcome_result p st si blocks t (Hit h b)
    = Some (hit_state p st si h blocks b).
Proof. simpl. destruct (Z.ltb_spec (hit_count st) INT_MAX); [done|lia]. Qed.

Lemma miss_result p st si blocks t e :
  miss_count st < INT_MAX ->
  outcome_result p st si blocks t (MissFill e)
    = Some (miss_state st si e blocks t).
Proof. simpl. destruct (Z.ltb_spec (miss_count st) INT_MAX); [done|lia]. Qed.

Lemma evict_result p st si blocks t v :
  miss_count st < INT_MAX -> eviction_count st < INT_MAX ->
  outcome_result p st si blocks t (MissEvict v)
    = Some (evict_state st si v blocks t).
Proof.
  simpl. destruct (Z.ltb_spec (miss_count st) INT_MAX); [|lia].
  destruct (Z.ltb_spec (eviction_count st) INT_MAX); [done|lia].
Qed.

(** ** The invariant of runs *)

Lemma cache_inv_mono p c cnt :
  cache_inv p c cnt -> cache_inv p c (cnt + 1).
Proof.
  intros (Hsh & Hst & Htg). split; [exact Hsh|]. split; [|exact Htg].
  intros i blocks j b Hi Hj Hv. specialize (Hst i blocks j b Hi Hj Hv). lia.
Qed.

(** One line of one set is overwritten. *)
Lemma lookup_update (c : list (list Block)) si k blocks nb i bl j b :
  c !! si = Some blocks ->
  (<[si := <[k := nb]> blocks]> c) !! i = Some bl ->
  bl !! j = Some b ->
  (i = si /\ j = k /\ b = nb /\ bl = <[k := nb]> blocks) \/
  (exists bl0, c !! i = Some bl0 /\ bl0 !! j = Some b /\
               (i = si -> bl0 = blocks /\ j <> k /\ bl = <[k := nb]> blocks)).
Proof.
  intros Hsi Hi Hj.
  apply list_lookup_insert_Some in Hi as [(<- & <- & Hlt)|[Hne Hi]].
  - apply list_lookup_insert_Some in Hj as [(<- & <- & Hlt')|[Hne Hj]].
    + left. done.
    + right. exists blocks. split; [done|]. split; [done|].
      intros _. split; [done|]. split; [congruence|done].
  - right. exists bl. split; [done|]. split; [done|]. intros <-. done.
Qed.

Lemma cache_inv_update p c cnt si k blocks nb :
  cache_inv p c cnt -> 0 <= cnt ->
  c !! si = Some blocks ->
  (Valid nb = true -> trackID nb = cnt) ->
  (Valid nb = true -> forall j b, j <> k -> blocks !! j = Some b ->
                                  Valid b = true -> tag b <> tag nb) ->
  cache_inv p (<[si := <[k := nb]> blocks]> c) (cnt + 1).
Proof.
  intros ((Hlen & Hsets) & Hst & Htg) Hcnt Hsi Hstamp Hfresh.
  split; [|split].
  - split; [rewrite length_insert; exact Hlen|].
    intros i bl Hi.
    apply list_lookup_insert_Some in Hi as [(<- & <- & Hlt)|[Hne Hi]].
    + rewrite length_insert. eauto.
    + eauto.
  - intros i bl j b Hi Hj Hv.
    destruct (lookup_update c si k blocks nb i bl j b Hsi Hi Hj)
      as [(-> & -> & -> & _)|(bl0 & Hi0 & Hj0 & _)].
    + rewrite Hstamp by done. lia.
    + specialize (Hst i bl0 j b Hi0 Hj0 Hv). lia.
  - intros i bl Hi x y bx by' Hx Hy Hvx Hvy Htag.
    pose proof (lookup_update c si k blocks nb i bl x bx Hsi Hi Hx) as Lx.
    pose proof (lookup_update c si k blocks nb i bl y by' Hsi Hi Hy) as Ly.
    destruct Lx as [(Hix & -> & -> & _)|(bl0 & Hi0 & Hx0 & Hsame)];
    destruct Ly as [(Hiy & -> & -> & _)|(bl1 & Hi1 & Hy1 & Hsame')].
    + reflexivity.
    + destruct (Hsame' Hix) as (-> & Hne & _).
      exfalso. apply (Hfresh Hvx y by'); [done|done|done|congruence].
    + destruct (Hsame Hiy) as (-> & Hne & _).
      exfalso. apply (Hfresh Hvy x bx); [done|done|done|congruence].
    + assert (bl1 = bl0) by congruence. subst bl1.
      exact (Htg i bl0 Hi0 x y bx by' Hx0 Hy1 Hvx Hvy Htag).
Qed.

(** The freshly allocated cache. *)
Lemma allocate_cache_lookup p heap i blocks j b :
  allocate_cache p heap !! i = Some blocks -> blocks !! j = Some b ->
  Valid b = false.
Proof.
  unfold allocate_cache. intros Hi Hj.
  rewrite list_lookup_fmap in Hi.
  destruct (seq 0 (Z.to_nat (num_S p)) !! i) as [i'|]; [|discriminate].
  simpl in Hi. injection Hi as <-.
  rewrite list_lookup_fmap in Hj.
  destruct (seq 0 (Z.to_nat (num_K p)) !! j) as [j'|]; [|discriminate].
  simpl in Hj. injection Hj as <-. reflexivity.
Qed.

Lemma allocate_cache_shape p heap : cache_shape p (allocate_cache p heap).
Proof.
  unfold allocate_cache. split.
  - rewrite length_map, length_seq. reflexivity.
  - intros i blocks Hi. rewrite list_lookup_fmap in Hi.
    destruct (seq 0 (Z.to_nat (num_S p)) !! i) as [i'|]; [|discriminate].
    simpl in Hi. injection Hi as <-.
    rewrite length_map, length_seq. reflexivity.
Qed.

Lemma Inv_initial p heap : Inv p (initial_state p heap).
Proof.
  unfold Inv, initial_state; simpl.
  split; [|unfold INT_MAX; lia].
  split; [apply allocate_cache_shape|]. split.
  - intros i blocks j b Hi Hj Hv.
    rewrite (allocate_cache_lookup p heap i blocks j b Hi Hj) in Hv.
    discriminate.
  - intros i blocks Hi x y bx by' Hx Hy Hvx.
    rewrite (allocate_cache_lookup p heap i blocks x bx Hi Hx) in Hvx.
    discriminate.
Qed.

Lemma matches_true t b : matches t b = true <-> tag b = t /\ Valid b = true.
Proof.
  unfold matches. rewrite andb_true_iff, Z.eqb_eq. reflexivity.
Qed.

Lemma no_match_fresh blocks t j b :
  no_match blocks t -> blocks !! j = Some b -> Valid b = true -> tag b <> t.
Proof.
  intros Hno Hj Hv Ht. specialize (Hno j b Hj).
  assert (matches t b = true) by (apply matches_true; done). congruence.
Qed.

(** The addressed set exists and has [K] lines. *)
Lemma addressed_set p c addr :
  valid_params p -> cache_shape p c ->
  exists blocks, c !! Z.to_nat (set_index p addr) = Some blocks /\
                 length blocks = Z.to_nat (num_K p).
Proof.
  intros Hp [Hlen Hsets].
  pose proof (set_index_range p addr Hp) as Hr.
  destruct (lookup_lt_is_Some_2 c (Z.to_nat (set_index p addr)))
    as [blocks Hb]; [lia|].
  exists blocks. split; [exact Hb|]. eauto.
Qed.

(** One call of [access_data] between two states of a run. *)
Lemma access_data_Inv p st addr st1 :
  valid_params p -> Inv p st -> access_data p st addr = Some st1 ->
  cache_inv p (currCache st1) (count st + 1) /\
  count st1 = count st /\
  hit_count st1 + miss_count st1 = count st + 1 /\
  0 <= hit_count st1 /\
  0 <= eviction_count st1 <= miss_count st1.
Proof.
  intros Hp (Hc & Hcnt & Hhm & Hh & He) Hacc.
  destruct (addressed_set p (currCache st) addr Hp (proj1 Hc))
    as (blocks & Hset & HK).
  destruct (access_data_outcome p st addr blocks Hset HK) as (o & Hok & Hres).
  rewrite Hacc in Hres.
  destruct o as [h b|e|v|]; simpl in Hok, Hres.
  - destruct (hit_count st <? INT_MAX); [|discriminate].
    injection Hres as ->. unfold hit_state; simpl.
    split; [|lia]. destruct Hok as [[(b' & Hb' & Hm) _] Hb].
    assert (b' = b) by congruence. subst b'.
    apply matches_true in Hm as [Ht Hv].
    destruct (policy p); [apply cache_inv_mono, Hc|].
    apply cache_inv_update; try done; [lia|].
    simpl. intros _ j bj Hne Hj Hvj Htag.
    destruct Hc as (_ & _ & Htg).
    apply Hne. exact (Htg _ blocks Hset j h bj b Hj Hb Hvj Hv Htag).
  - destruct (miss_count st <? INT_MAX); [|discriminate].
    injection Hres as ->. unfold miss_state; simpl.
    split; [|lia]. destruct Hok as [Hno _].
    apply cache_inv_update; try done; [lia|].
    simpl. intros _ j bj _ Hj Hvj. eauto using no_match_fresh.
  - destruct ((miss_count st <? INT_MAX) && (eviction_count st <? INT_MAX));
      [|discriminate].
    injection Hres as ->. unfold evict_state; simpl.
    split; [|lia]. destruct Hok as [Hno _].
    apply cache_inv_update; try done; [lia|].
    simpl. intros _ j bj _ Hj Hvj. eauto using no_match_fresh.
  - discriminate.
Qed.

Lemma count_incr_Some st st2 :
  count_incr st = Some st2 <->
  count st < INT_MAX /\
  st2 = mkState (currCache st) (miss_count st) (hit_count st)
                (eviction_count st) (count st + 1).
Proof.
  unfold count_incr. rewrite int_incr_bind.
  destruct (Z.ltb_spec (count st) INT_MAX); split.
  - intros [= <-]. done.
  - intros [_ ->]. done.
  - discriminate.
  - lia.
Qed.

Lemma step_Inv p st addr st1 st2 :
  valid_params p -> Inv p st ->
  access_data p st addr = Some st1 -> count_incr st1 = Some st2 ->
  Inv p st2.
Proof.
  intros Hp HI Hacc Hinc.
  destruct (access_data_Inv p st addr st1 Hp HI Hacc)
    as (Hc & Hcnt & Hhm & Hh & He).
  apply count_incr_Some in Hinc as [Hlt ->].
  destruct HI as (_ & Hcb & _).
  unfold Inv; simpl. rewrite Hcnt. split; [exact Hc|]. lia.
Qed.

Lemma run_calls_Inv p : forall addrs st st',
  valid_params p -> Inv p st -> run_calls p st addrs = Some st' -> Inv p st'.
Proof.
  induction addrs as [|a rest IH]; intros st st' Hp HI Hrun; simpl in Hrun.
  - injection Hrun as <-. exact HI.
  - destruct (access_data p st a) as [st1|] eqn:Hacc; [|discriminate].
    simpl in Hrun.
    destruct (count_incr st1) as [st2|] eqn:Hinc; [|discriminate].
    simpl in Hrun. eauto using step_Inv.
Qed.

Lemma reachable_Inv p st : valid_params p -> reachable p st -> Inv p st.
Proof.
  intros Hp (heap & addrs & Hrun).
  eauto using run_calls_Inv, Inv_initial.
Qed.

(** Between two calls, a full set has a line whose stamp is below
    [INT_MAX]: the victim loop finds a victim. *)
Lemma no_victim_unreachable p st addr blocks :
  valid_params p -> Inv p st ->
  currCache st !! Z.to_nat (set_index p addr) = Some blocks ->
  outcome_ok blocks (tag_bits p addr) NoVictim -> False.
Proof.
  intros (_ & _ & HKpos) (((_ & HK) & Hst & _) & Hcnt & _) Hset
         (_ & Hall & Hbig).
  specialize (HK _ _ Hset).
  destruct (lookup_lt_is_Some_2 blocks 0%nat) as [b Hb]; [lia|].
  specialize (Hst _ blocks 0%nat b Hset Hb (Hall _ _ Hb)).
  specialize (Hbig _ _ Hb). lia.
Qed.

(** Between two calls, the next call is defined as long as the clock
    can still be advanced. *)
Lemma access_data_defined p st addr :
  valid_params p -> Inv p st -> count st < INT_MAX ->
  exists st1, access_data p st addr = Some st1.
Proof.
  intros Hp (Hc & Hcnt & Hhm & Hh & He) Hlt.
  destruct (addressed_set p (currCache st) addr Hp (proj1 Hc))
    as (blocks & Hset & HK).
  destruct (access_data_outcome p st addr blocks Hset HK) as (o & Hok & ->).
  destruct o as [h b|e|v|]; simpl in *.
  - destruct (Z.ltb_spec (hit_count st) INT_MAX); [eauto|lia].
  - destruct (Z.ltb_spec (miss_count st) INT_MAX); [eauto|lia].
  - destruct (Z.ltb_spec (miss_count st) INT_MAX); [|lia].
    destruct (Z.ltb_spec (eviction_count st) INT_MAX); [eauto|lia].
  - exfalso.
    apply (no_victim_unreachable p st addr blocks);
      [exact Hp|unfold Inv; tauto|exact Hset|exact Hok].
Qed.

(** [access_data] ends on one of its three branches; [inv_access]
    takes a successful call apart. *)
Ltac inv_access H :=
  unfold access_data in H;
  repeat (match type of H with
          | context [match ?x with _ => _ end] => destruct x eqn:?
          | context [mbind _ ?x] => destruct x eqn:?; simpl in H
          end; try discriminate);
  injection H as <-.

(** [access_data] reads the clock and leaves it as it is. *)
Lemma access_data_count p st addr st1 :
  access_data p st addr = Some st1 -> count st1 = count st.
Proof. intros Hacc. inv_access Hacc; reflexivity. Qed.

Lemma run_calls_count p : forall addrs st st',
  run_calls p st addrs = Some st' ->
  count st' = count st + Z.of_nat (length addrs).
Proof.
  induction addrs as [|a rest IH]; intros st st' Hrun; simpl in Hrun.
  - injection Hrun as <-. simpl. lia.
  - destruct (access_data p st a) as [st1|] eqn:Hacc; [|discriminate].
    simpl in Hrun.
    destruct (count_incr st1) as [st2|] eqn:Hinc; [|discriminate].
    simpl in Hrun. rewrite (IH _ _ Hrun).
    apply count_incr_Some in Hinc as [_ ->]. cbn [count].
    rewrite (access_data_count _ _ _ _ Hacc), length_cons. lia.
Qed.

(** A run of at most [INT_MAX] calls is defined. *)
Lemma run_calls_defined p : forall addrs st,
  valid_params p -> Inv p st ->
  count st + Z.of_nat (length addrs) <= INT_MAX ->
  exists st', run_calls p st addrs = Some st'.
Proof.
  induction addrs as [|a rest IH]; intros st Hp HI Hlen; simpl.
  - eauto.
  - rewrite length_cons in Hlen.
    destruct (access_data_defined p st a Hp HI) as [st1 Hacc]; [lia|].
    rewrite Hacc. simpl.
    destruct (access_data_Inv p st a st1 Hp HI Hacc) as (_ & Hcnt & _).
    destruct (count_incr st1) as [st2|] eqn:Hinc.
    + simpl. apply IH; [done|eauto using step_Inv|].
      apply count_incr_Some in Hinc as [_ ->]. simpl. lia.
    + exfalso. assert (count st1 < INT_MAX) as Hlt by lia.
      pose proof (proj2 (count_incr_Some st1 _) (conj Hlt eq_refl)).
      congruence.
Qed.

Lemma run_calls_app p : forall xs ys st,
  run_calls p st (xs ++ ys) = (run_calls p st xs ≫= fun st1 => run_calls p st1 ys).
Proof.
  induction xs as [|a xs IH]; intros ys st; simpl; [reflexivity|].
  destruct (access_data p st a) as [st1|]; [|reflexivity]. simpl.
  destruct (count_incr st1) as [st2|]; [|reflexivity]. simpl. apply IH.
Qed.

Lemma run_calls_two p st a1 a2 st1 st3 :
  access_data p st a1 = Some st1 -> count st1 < INT_MAX ->
  access_data p (tick st1) a2 = Some st3 -> count st3 < INT_MAX ->
  run_calls p st [a1; a2] = Some (tick st3).
Proof.
  intros H1 Hc1 H3 Hc3. simpl. rewrite H1. simpl.
  assert (count_incr st1 = Some (tick st1)) as ->
    by (apply count_incr_Some; split; [lia|reflexivity]).
  simpl. rewrite H3. simpl.
  assert (count_incr st3 = Some (tick st3)) as ->
    by (apply count_incr_Some; split; [lia|reflexivity]).
  reflexivity.
Qed.

(** ** The replayer as a run *)

Lemma pass_loop_calls p mask val : forall n i prev st,
  pass_loop p mask val n i prev st =
  run_calls p st (pass_calls p mask val n i prev).
Proof.
  induction n as [|n IH]; intros i prev st; simpl; [reflexivity|].
  destruct (negb _); simpl; [|apply IH].
  destruct (access_data p st _) as [st1|]; [|reflexivity]. simpl.
  destruct (count_incr st1) as [st2|]; [|reflexivity]. simpl. apply IH.
Qed.

(** Every call of [access_data] the replayer makes is followed by
    [count++], and it makes no other change to the state. *)
Lemma replay_access_calls p st r :
  replay_access p st r = run_calls p st (access_calls p r).
Proof.
  unfold replay_access, access_calls, read_calls, write_calls.
  rewrite run_calls_app, pass_loop_calls.
  destruct (run_calls p st _) as [st1|]; [|reflexivity]. simpl.
  destruct (Ascii.eqb _ _); [apply pass_loop_calls|reflexivity].
Qed.

Lemma replay_trace_calls p : forall trace st,
  replay_trace p st trace = run_calls p st (trace_calls p trace).
Proof.
  induction trace as [|r rest IH]; intros st; simpl; [reflexivity|].
  unfold trace_calls in *. simpl.
  rewrite run_calls_app, replay_access_calls.
  destruct (run_calls p st _) as [st1|]; [|reflexivity]. simpl. apply IH.
Qed.

(** The states [replay_trace] leaves are states of runs. *)
Lemma replay_trace_reachable p heap trace st :
  replay_trace p (initial_state p heap) trace = Some st -> reachable p st.
Proof.
  rewrite replay_trace_calls. intros Hrun.
  exists heap, (trace_calls p trace). exact Hrun.
Qed.

(** ** The boolean tests and the predicates *)

Lemma holds_tag_lookup blocks t j b :
  blocks !! j = Some b -> matches t b = true -> holds_tag blocks t = true.
Proof.
  intros Hj Hm. unfold holds_tag. apply existsb_exists. exists b.
  split; [|exact Hm]. apply list_elem_of_In, list_elem_of_lookup. eauto.
Qed.

Lemma no_match_holds_tag blocks t :
  no_match blocks t <-> holds_tag blocks t = false.
Proof.
  split.
  - intros Hno. destruct (holds_tag blocks t) eqn:Hh; [|reflexivity].
    unfold holds_tag in Hh. apply existsb_exists in Hh as (b & Hin & Hm).
    apply list_elem_of_In, list_elem_of_lookup in Hin as [j Hj].
    rewrite (Hno j b Hj) in Hm. discriminate.
  - intros Hh j b Hj. destruct (matches t b) eqn:Hm; [|reflexivity].
    rewrite (holds_tag_lookup blocks t j b Hj Hm) in Hh. discriminate.
Qed.

Lemma all_valid_forallb blocks :
  all_valid blocks <-> forallb Valid blocks = true.
Proof.
  rewrite forallb_forall. split.
  - intros Hall b Hin.
    apply list_elem_of_In, list_elem_of_lookup in Hin as [j Hj]. eauto.
  - intros Hall j b Hj. apply Hall, list_elem_of_In, list_elem_of_lookup. eauto.
Qed.

Lemma update_lookup_same (c : list (list Block)) si k blocks nb :
  c !! si = Some blocks ->
  (<[si := <[k := nb]> blocks]> c) !! si = Some (<[k := nb]> blocks).
Proof.
  intros Hsi. apply list_lookup_insert_eq. eapply lookup_lt_Some, Hsi.
Qed.

(** * Properties of the cache model *)

(** ** Miss in a full set *)

(** In a state between two calls of a run every set has [K] lines, and
    a set whose lines are all valid has a line with a stamp below
    [INT_MAX]. *)
Lemma full_set_of_a_run p st i blocks :
  valid_params p -> reachable p st ->
  currCache st !! i = Some blocks -> forallb Valid blocks = true ->
  length blocks = Z.to_nat (num_K p) /\
  exists j b, blocks !! j = Some b /\ trackID b < INT_MAX.
Proof.
  intros Hp Hreach Hset Hall. apply all_valid_forallb in Hall.
  destruct (reachable_Inv p st Hp Hreach) as (((_ & HK) & Hst & _) & Hcnt & _).
  destruct Hp as (_ & _ & HKpos).
  specialize (HK _ _ Hset). split; [exact HK|].
  destruct (lookup_lt_is_Some_2 blocks 0%nat) as [b Hb]; [lia|].
  exists 0%nat, b. split; [exact Hb|].
  specialize (Hst _ blocks 0%nat b Hset Hb (Hall _ _ Hb)). lia.
Qed.

(** C3.  An access that misses in a set whose [K] lines are all valid
    increments the miss counter and the eviction counter (and not the
    hit counter); the victim is the line of minimal recency stamp among
    all the lines of the set, the one of lowest index when several have
    that stamp; the victim, and no other line, is overwritten: it stays
    valid, gets the new tag, and its stamp is the current value of the
    global counter.  This holds in every state, whatever the stamps, in
    which the C code is defined: the two counters can be incremented,
    and some line has a stamp below [INT_MAX] (the loop starts from
    [minTrackID = INT_MAX] and leaves [setIndexToEvict] unassigned
    otherwise).  The states of runs are among them
    ([full_set_of_a_run]). *)
Theorem miss_in_full_set_evicts_min_stamp p st addr blocks :
  miss_count st < INT_MAX -> eviction_count st < INT_MAX ->
  currCache st !! Z.to_nat (set_index p addr) = Some blocks ->
  length blocks = Z.to_nat (num_K p) ->
  forallb Valid blocks = true ->
  holds_tag blocks (tag_bits p addr) = false ->
  (exists j b, blocks !! j = Some b /\ trackID b < INT_MAX) ->
  exists v st1,
    first_min blocks v /\
    access_data p st addr = Some st1 /\
    miss_count st1 = miss_count st + 1 /\
    eviction_count st1 = eviction_count st + 1 /\
    hit_count st1 = hit_count st /\
    count st1 = count st /\
    currCache st1 =
      <[Z.to_nat (set_index p addr) :=
          <[v := mkBlock true (tag_bits p addr) (count st)]> blocks]>
        (currCache st).
Proof.
  intros Hm He Hset HK Hall Hno (j & bj & Hj & Hlt).
  apply all_valid_forallb in Hall. apply no_match_holds_tag in Hno.
  destruct (access_data_outcome p st addr blocks Hset HK) as (o & Hok & Hres).
  destruct o as [h b|e|v|].
  - exfalso. destruct Hok. eauto using first_match_no_match.
  - exfalso. destruct Hok. eauto using first_invalid_all_valid.
  - destruct Hok as (_ & _ & Hmin & _).
    rewrite evict_result in Hres by done.
    exists v, (evict_state st (Z.to_nat (set_index p addr)) v blocks
                           (tag_bits p addr)).
    unfold evict_state in *; simpl. done.
  - exfalso. destruct Hok as (_ & _ & Hbig).
    specialize (Hbig j bj Hj). lia.
Qed.

(** ** Hit *)

(** C4.  In a state between two calls of a run, an access whose tag is
    held by a valid line of the addressed set increments the hit counter
    and no other counter.  Under LRU the stamp of the hit line becomes
    the current value of the global counter; under FIFO the cache is
    left as it is.  Under both policies every line keeps its valid flag
    and its tag, and every line but the hit line is unchanged. *)
Theorem hit_updates_recency_by_policy p st addr blocks :
  valid_params p -> reachable p st -> hit_count st < INT_MAX ->
  currCache st !! Z.to_nat (set_index p addr) = Some blocks ->
  holds_tag blocks (tag_bits p addr) = true ->
  exists h b st1,
    first_match blocks (tag_bits p addr) h /\ blocks !! h = Some b /\
    access_data p st addr = Some st1 /\
    hit_count st1 = hit_count st + 1 /\
    miss_count st1 = miss_count st /\
    eviction_count st1 = eviction_count st /\
    count st1 = count st /\
    currCache st1 =
      match policy p with
      | LRU => <[Z.to_nat (set_index p addr) :=
                   <[h := mkBlock (Valid b) (tag b) (count st)]> blocks]>
                 (currCache st)
      | FIFO => currCache st
      end /\
    forall i j bl blk,
      currCache st !! i = Some bl -> bl !! j = Some blk ->
      exists bl1 blk1,
        currCache st1 !! i = Some bl1 /\ bl1 !! j = Some blk1 /\
        Valid blk1 = Valid blk /\ tag blk1 = tag blk /\
        (i <> Z.to_nat (set_index p addr) \/ j <> h -> blk1 = blk) /\
        (policy p = FIFO -> blk1 = blk) /\
        (policy p = LRU -> i = Z.to_nat (set_index p addr) -> j = h ->
         trackID blk1 = count st).
Proof.
  intros Hp Hreach Hlt Hset Hhold.
  pose proof (reachable_Inv p st Hp Hreach) as HI.
  pose proof (proj2 (proj1 (proj1 HI)) _ _ Hset) as HK.
  destruct (access_data_outcome p st addr blocks Hset HK) as (o & Hok & Hres).
  destruct o as [h b|e|v|];
    try (exfalso; destruct Hok as [Hno _];
         apply no_match_holds_tag in Hno; congruence).
  destruct Hok as [Hfirst Hb].
  rewrite hit_result in Hres by done.
  exists h, b, (hit_state p st (Z.to_nat (set_index p addr)) h blocks b).
  unfold hit_state, stamp; simpl.
  do 7 (split; [done|]). split; [reflexivity|].
  intros i j bl blk Hi Hj. destruct (policy p) eqn:Hpol.
  - exists bl, blk. repeat split; try done.
  - destruct (decide (i = Z.to_nat (set_index p addr))) as [->|Hi'].
    + assert (bl = blocks) by congruence. subst bl.
      exists (<[h := mkBlock (Valid b) (tag b) (count st)]> blocks).
      rewrite (update_lookup_same _ _ _ blocks) by done.
      destruct (decide (j = h)) as [->|Hj'].
      * assert (blk = b) by congruence. subst blk.
        eexists. split; [reflexivity|].
        rewrite list_lookup_insert_eq by (eapply lookup_lt_Some; eauto).
        split; [reflexivity|]. simpl. repeat split; try done;
          try (intros [?|?]; congruence).
      * exists blk. split; [reflexivity|].
        rewrite list_lookup_insert_ne by done. repeat split; try done;
          try (intros _ _ ?; congruence).
    + exists bl, blk. rewrite list_lookup_insert_ne by done.
      repeat split; try done; try (intros _ ? _; congruence).
Qed.

(** ** Counters *)

Lemma access_data_counts p st addr st1 :
  access_data p st addr = Some st1 ->
  counts_hit st st1 \/ counts_miss st st1 \/ counts_miss_eviction st st1.
Proof.
  intros Hacc. unfold counts_hit, counts_miss, counts_miss_eviction.
  inv_access Hacc; simpl;
    repeat match goal with
           | H : int_incr _ = Some _ |- _ => apply int_incr_Some in H as [_ ->]
           end; tauto.
Qed.

(** C6.  At every point of a run that starts with the freshly allocated
    cache and the counters at zero, [hit_count + miss_count] is the
    number of calls of [access_data] made so far and
    [eviction_count <= miss_count]; every call moves the counters in
    exactly one of three ways: a hit, a miss, or a miss with an
    eviction; and the next call is defined as long as the clock has not
    reached [INT_MAX].  A run of at most [INT_MAX] calls is defined. *)
Theorem counters_are_conserved p heap addrs :
  valid_params p ->
  (Z.of_nat (length addrs) <= INT_MAX ->
   exists st, run_calls p (initial_state p heap) addrs = Some st) /\
  (forall st,
     run_calls p (initial_state p heap) addrs = Some st ->
     hit_count st + miss_count st = Z.of_nat (length addrs) /\
     0 <= eviction_count st <= miss_count st /\
     (count st < INT_MAX ->
      forall a, exists st1, access_data p st a = Some st1) /\
     (forall a st1, access_data p st a = Some st1 ->
        (counts_hit st st1 /\ ~ counts_miss st st1 /\
         ~ counts_miss_eviction st st1) \/
        (~ counts_hit st st1 /\ counts_miss st st1 /\
         ~ counts_miss_eviction st st1) \/
        (~ counts_hit st st1 /\ ~ counts_miss st st1 /\
         counts_miss_eviction st st1))).
Proof.
  intros Hp. split.
  - intros Hlen.
    apply (run_calls_defined p addrs (initial_state p heap) Hp
             (Inv_initial p heap)).
    simpl. lia.
  - intros st Hrun.
    pose proof (run_calls_Inv p addrs _ _ Hp (Inv_initial p heap) Hrun) as HI.
    pose proof (run_calls_count p addrs _ _ Hrun) as Hcnt. simpl in Hcnt.
    pose proof HI as (_ & _ & Hhm & _ & He).
    split; [lia|]. split; [exact He|]. split.
    + intros Hlt a. eauto using access_data_defined.
    + intros a st1 Hacc. unfold counts_hit, counts_miss, counts_miss_eviction.
      destruct (access_data_counts p st a st1 Hacc) as [H|[H|H]];
        unfold counts_hit, counts_miss, counts_miss_eviction in H; lia.
Qed.

(** ** Tags *)

(** C7.  After every call of a run that starts with the freshly
    allocated (all-invalid) cache, no set has two distinct valid lines
    with the same tag.  A run of at most [INT_MAX] calls is defined. *)
Theorem valid_lines_have_distinct_tags p heap addrs :
  valid_params p ->
  (Z.of_nat (length addrs) <= INT_MAX ->
   exists st, run_calls p (initial_state p heap) addrs = Some st) /\
  (forall st,
     run_calls p (initial_state p heap) addrs = Some st ->
     forall i blocks, currCache st !! i = Some blocks -> distinct_tags blocks).
Proof.
  intros Hp. split.
  - intros Hlen.
    apply (run_calls_defined p addrs (initial_state p heap) Hp
             (Inv_initial p heap)).
    simpl. lia.
  - intros st Hrun.
    pose proof (run_calls_Inv p addrs _ _ Hp (Inv_initial p heap) Hrun)
      as ((_ & _ & Htg) & _).
    exact Htg.
Qed.

(** ** The clock *)

Lemma store_block_changed c si k f c' i j bl blk bl1 blk1 :
  store_block c si k f = Some c' ->
  c !! i = Some bl -> bl !! j = Some blk ->
  c' !! i = Some bl1 -> bl1 !! j = Some blk1 -> blk1 <> blk ->
  exists b, blk1 = f b.
Proof.
  unfold store_block. intros Hst Hi Hj Hi1 Hj1 Hne.
  destruct (c !! si) as [blocks|] eqn:Hsi; [|discriminate]. simpl in Hst.
  destruct (blocks !! k) as [b|] eqn:Hk; [|discriminate]. simpl in Hst.
  injection Hst as <-.
  destruct (lookup_update c si k blocks (f b) i bl1 j blk1 Hsi Hi1 Hj1)
    as [(_ & _ & -> & _)|(bl0 & Hi0 & Hj0 & _)]; [eauto|].
  congruence.
Qed.

Lemma access_data_restamped p st addr st1 s :
  access_data p st addr = Some st1 -> restamped st st1 s -> s = count st.
Proof.
  intros Hacc (i & j & bl & blk & bl1 & blk1 & Hi & Hj & Hi1 & Hj1 & Hne & <-).
  inv_access Hacc; simpl in Hi1;
    try (match goal with
         | H : store_block _ _ _ _ = Some _ |- _ =>
             destruct (store_block_changed _ _ _ _ _ i j bl blk bl1 blk1
                         H Hi Hj Hi1 Hj1 Hne) as [b ->]; reflexivity
         end).
  congruence.
Qed.

(** C8.  The replayer makes its calls of [access_data] one after the
    other, each followed by [count++], which adds exactly one to the
    global access counter; so of two consecutive calls, the stamps the
    first one writes are the value of the counter at that call, and they
    are strictly less than the stamps the second one writes. *)
Theorem stamps_increase_from_call_to_call p :
  (forall st r,
     replay_access p st r = run_calls p st (access_calls p r)) /\
  (forall st a st1 st2,
     access_data p st a = Some st1 -> count_incr st1 = Some st2 ->
     count st2 = count st + 1) /\
  (forall st a st1 st2 a' st3 s s',
     access_data p st a = Some st1 -> count_incr st1 = Some st2 ->
     access_data p st2 a' = Some st3 ->
     restamped st st1 s -> restamped st2 st3 s' ->
     s = count st /\ s' = count st + 1 /\ s < s').
Proof.
  split; [apply replay_access_calls|].
  assert (Hstep : forall st a st1 st2,
             access_data p st a = Some st1 -> count_incr st1 = Some st2 ->
             count st2 = count st + 1).
  { intros st a st1 st2 Hacc Hinc.
    apply count_incr_Some in Hinc as [_ ->]. simpl.
    rewrite (access_data_count _ _ _ _ Hacc). reflexivity. }
  split; [exact Hstep|].
  intros st a st1 st2 a' st3 s s' Hacc Hinc Hacc' Hs Hs'.
  pose proof (access_data_restamped _ _ _ _ _ Hacc Hs).
  pose proof (access_data_restamped _ _ _ _ _ Hacc' Hs').
  pose proof (Hstep _ _ _ _ Hacc Hinc). lia.
Qed.

(** ** An access right after an access to the same address *)

Lemma stamp_matches t cnt b : matches t (stamp cnt b) = matches t b.
Proof. reflexivity. Qed.

(** After a call, the addressed set holds the tag of the address. *)
Lemma access_data_holds_tag p st addr st1 blocks :
  currCache st !! Z.to_nat (set_index p addr) = Some blocks ->
  length blocks = Z.to_nat (num_K p) ->
  access_data p st addr = Some st1 ->
  exists blocks1,
    currCache st1 !! Z.to_nat (set_index p addr) = Some blocks1 /\
    length blocks1 = Z.to_nat (num_K p) /\
    holds_tag blocks1 (tag_bits p addr) = true.
Proof.
  intros Hset HK Hacc.
  destruct (access_data_outcome p st addr blocks Hset HK) as (o & Hok & Hres).
  rewrite Hacc in Hres.
  assert (Hfilled : forall k b0,
            blocks !! k = Some b0 ->
            exists blocks1,
              (<[Z.to_nat (set_index p addr) :=
                   <[k := mkBlock true (tag_bits p addr) (count st)]> blocks]>
                 (currCache st)) !! Z.to_nat (set_index p addr) = Some blocks1 /\
              length blocks1 = Z.to_nat (num_K p) /\
              holds_tag blocks1 (tag_bits p addr) = true).
  { intros k b0 Hk. eexists. split; [apply update_lookup_same, Hset|].
    split; [rewrite length_insert; exact HK|].
    apply (holds_tag_lookup _ _ k (mkBlock true (tag_bits p addr) (count st))).
    - apply list_lookup_insert_eq. eapply lookup_lt_Some, Hk.
    - apply matches_true. done. }
  destruct o as [h b|e|v|]; simpl in Hok, Hres.
  - destruct (hit_count st <? INT_MAX); [|discriminate]. injection Hres as ->.
    destruct Hok as [[(b' & Hb' & Hm) _] Hb].
    assert (b' = b) by congruence. subst b'.
    unfold hit_state; simpl. destruct (policy p).
    + exists blocks. eauto using holds_tag_lookup.
    + eexists. split; [apply update_lookup_same, Hset|].
      split; [rewrite length_insert; exact HK|].
      apply (holds_tag_lookup _ _ h (stamp (count st) b)).
      * apply list_lookup_insert_eq. eapply lookup_lt_Some, Hb.
      * rewrite stamp_matches. exact Hm.
  - destruct (miss_count st <? INT_MAX); [|discriminate]. injection Hres as ->.
    destruct Hok as [_ [(b0 & Hb0 & _) _]]. simpl. eauto.
  - destruct (_ && _); [|discriminate]. injection Hres as ->.
    destruct Hok as (_ & _ & _ & b0 & Hb0 & _). simpl. eauto.
  - discriminate.
Qed.

(** A call on a set that holds the tag is a hit. *)
Lemma access_data_holding p st addr blocks :
  currCache st !! Z.to_nat (set_index p addr) = Some blocks ->
  length blocks = Z.to_nat (num_K p) ->
  holds_tag blocks (tag_bits p addr) = true ->
  hit_count st < INT_MAX ->
  exists st1, access_data p st addr = Some st1 /\ counts_hit st st1.
Proof.
  intros Hset HK Hhold Hlt.
  destruct (access_data_outcome p st addr blocks Hset HK) as (o & Hok & ->).
  destruct o as [h b|e|v|]; simpl in *;
    try (exfalso; destruct Hok as [Hno _];
         apply no_match_holds_tag in Hno; congruence).
  destruct (Z.ltb_spec (hit_count st) INT_MAX); [|lia].
  eexists. split; [reflexivity|]. unfold counts_hit, hit_state; simpl. done.
Qed.

(** C10.  In every state between two calls of a run and for every
    address, the call of [access_data] leaves a valid line with the tag
    of the address in the addressed set; a call for the same address in
    the resulting cache, with no other call in between, is a hit: it
    adds one to the hit counter and leaves the miss counter and the
    eviction counter as they are.  This holds right after the call and
    after the replayer's [count++]. *)
Theorem access_again_is_a_hit p st addr :
  valid_params p -> reachable p st -> count st + 1 < INT_MAX ->
  exists st1 st2 blocks1,
    access_data p st addr = Some st1 /\
    currCache st1 !! Z.to_nat (set_index p addr) = Some blocks1 /\
    holds_tag blocks1 (tag_bits p addr) = true /\
    count_incr st1 = Some st2 /\
    (exists st3, access_data p st2 addr = Some st3 /\ counts_hit st2 st3) /\
    (exists st3, access_data p st1 addr = Some st3 /\ counts_hit st1 st3).
Proof.
  intros Hp Hreach Hlt.
  pose proof (reachable_Inv p st Hp Hreach) as HI.
  destruct (access_data_defined p st addr Hp HI) as [st1 Hacc]; [lia|].
  destruct (access_data_Inv p st addr st1 Hp HI Hacc)
    as (_ & Hcnt & Hhm & Hh & He).
  destruct (addressed_set p (currCache st) addr Hp (proj1 (proj1 HI)))
    as (blocks & Hset & HK).
  destruct (access_data_holds_tag p st addr st1 blocks Hset HK Hacc)
    as (blocks1 & Hset1 & HK1 & Hhold).
  exists st1. eexists. exists blocks1.
  split; [exact Hacc|]. split; [exact Hset1|]. split; [exact Hhold|].
  split; [apply count_incr_Some; split; [lia|reflexivity]|].
  split.
  - apply (access_data_holding p _ addr blocks1); simpl; try done. lia.
  - apply (access_data_holding p _ addr blocks1); simpl; try done. lia.
Qed.

(** ** Replaying call by call *)

(** A step of a run whose outcome is known. *)
Lemma run_calls_step p st a rest blocks o st1 :
  currCache st !! Z.to_nat (set_index p a) = Some blocks ->
  length blocks = Z.to_nat (num_K p) ->
  outcome_ok blocks (tag_bits p a) o ->
  outcome_result p st (Z.to_nat (set_index p a)) blocks (tag_bits p a) o
    = Some st1 ->
  count st < INT_MAX ->
  run_calls p st (a :: rest) = run_calls p (tick st1) rest.
Proof.
  intros Hset HK Hok Hres Hlt.
  assert (access_data p st a = Some st1) as Hacc
    by (rewrite (access_data_by_outcome p st a blocks o Hset HK Hok); done).
  simpl. rewrite Hacc. simpl.
  pose proof (access_data_count _ _ _ _ Hacc) as Hcnt.
  assert (count_incr st1 = Some (tick st1)) as ->; [|reflexivity].
  apply count_incr_Some. split; [lia|reflexivity].
Qed.

(** Goals about the first lines of a set that is written out. *)
Ltac first_lines :=
  intros;
  match goal with
  | Hj : _ !! ?j = Some _ |- _ =>
      destruct j as [|[|[|j]]]; simpl in Hj; try discriminate Hj;
      try (injection Hj as <-); simpl; try done; try lia
  end.

(** ** FIFO: a hit does not protect a line *)

Lemma empty_two_lines (blocks : list Block) :
  length blocks = 2%nat -> forallb (fun b => negb (Valid b)) blocks = true ->
  exists t0 k0 t1 k1, blocks = [mkBlock false t0 k0; mkBlock false t1 k1].
Proof.
  destruct blocks as [|[v0 t0 k0] [|[v1 t1 k1] [|? ?]]]; try discriminate.
  intros _ H. simpl in H.
  destruct v0, v1; try discriminate. eauto.
Qed.

#[local] Arguments INT_LOG2 : simpl never.
#[local] Arguments set_index : simpl never.
#[local] Arguments tag_bits : simpl never.
#[local] Arguments run_calls : simpl never.

(** C2, as amended.  With two lines per set and policy FIFO, from a
    state between two calls in which the addressed set has no valid
    line: the calls for [a] and [b] (same set, different tags) fill the
    two lines, the call for [a] again is a hit, and the call for [c] (same
    set, a third tag) is a miss that evicts the line holding the tag of
    [a], the first one filled; the line holding the tag of [b] stays.
    The hit has not refreshed the stamp of the line of [a]. *)
Theorem fifo_hit_then_miss_evicts_first_in p st a b c blocks :
  valid_params p -> num_K p = 2 -> policy p = FIFO ->
  reachable p st -> count st + 3 < INT_MAX ->
  set_index p b = set_index p a -> set_index p c = set_index p a ->
  tag_bits p a <> tag_bits p b -> tag_bits p a <> tag_bits p c ->
  tag_bits p b <> tag_bits p c ->
  currCache st !! Z.to_nat (set_index p a) = Some blocks ->
  forallb (fun b => negb (Valid b)) blocks = true ->
  exists st',
    fifo_scenario p st a b c = Some st' /\
    currCache st' !! Z.to_nat (set_index p a) =
      Some [mkBlock true (tag_bits p c) (count st + 3);
            mkBlock true (tag_bits p b) (count st + 1)] /\
    ~ evicts_second_keeps_first p st a b c /\
    hit_count st' = hit_count st + 1 /\
    miss_count st' = miss_count st + 3 /\
    eviction_count st' = eviction_count st + 1.
Proof.
  intros Hp HK2 Hpol Hreach Hlt Hsb Hsc Hab Hac Hbc Hset Hempty.
  assert (Hmain : exists st',
    fifo_scenario p st a b c = Some st' /\
    currCache st' !! Z.to_nat (set_index p a) =
      Some [mkBlock true (tag_bits p c) (count st + 3);
            mkBlock true (tag_bits p b) (count st + 1)] /\
    hit_count st' = hit_count st + 1 /\
    miss_count st' = miss_count st + 3 /\
    eviction_count st' = eviction_count st + 1).
  {
    pose proof (reachable_Inv p st Hp Hreach)
      as (((_ & HK) & _) & Hcnt & Hhm & Hh & He).
    assert (Z.to_nat (num_K p) = 2%nat) as HKn by lia.
    specialize (HK _ _ Hset). rewrite HKn in HK.
    destruct (empty_two_lines blocks HK Hempty) as (t0 & k0 & t1 & k1 & ->).
    assert (HSi : (Z.to_nat (set_index p a) < length (currCache st))%nat)
      by (eapply lookup_lt_Some, Hset).
    set (si := Z.to_nat (set_index p a)) in *.
    set (ta := tag_bits p a) in *. set (tb := tag_bits p b) in *.
    set (tc := tag_bits p c) in *.
    assert (Eab : (ta =? tb) = false) by (apply Z.eqb_neq; done).
    assert (Eac : (ta =? tc) = false) by (apply Z.eqb_neq; done).
    assert (Ebc : (tb =? tc) = false) by (apply Z.eqb_neq; done).
    unfold fifo_scenario.
    (* a: a miss that fills the first line *)
    erewrite (run_calls_step p st a _ _ (MissFill 0));
      [|exact Hset|rewrite HKn; done| |apply miss_result; lia|lia].
    2:{ split; [apply no_match_holds_tag; unfold holds_tag, matches; simpl;
                rewrite !andb_false_r; done|].
        split; [eexists; split; [reflexivity|done]|intros; lia]. }
    unfold tick, miss_state; simpl. fold si ta.
    (* b: a miss that fills the second line *)
    erewrite (run_calls_step p _ b _ _ (MissFill 1));
      [|simpl; rewrite Hsb; apply list_lookup_insert_eq; exact HSi
       |rewrite HKn; done| |apply miss_result; simpl; lia|simpl; lia].
    2:{ split; [apply no_match_holds_tag; unfold holds_tag, matches; simpl;
                fold tb; rewrite Eab, !andb_false_r; done|].
        split; [eexists; split; [reflexivity|done]|first_lines]. }
    unfold tick, miss_state; simpl. rewrite Hsb. fold si tb.
    rewrite list_insert_insert_eq.
    (* a again: a hit, which under FIFO writes nothing *)
    erewrite (run_calls_step p _ a _ _ (Hit 0 _));
      [|simpl; apply list_lookup_insert_eq; exact HSi
       |rewrite HKn; done| |apply hit_result; simpl; lia|simpl; lia].
    2:{ split; [|reflexivity].
        split; [eexists; split; [reflexivity|]|intros; lia].
        unfold matches; simpl. rewrite Z.eqb_refl. done. }
    unfold tick, hit_state; simpl. rewrite Hpol.
    (* c: a miss in the full set *)
    erewrite (run_calls_step p _ c _ _ (MissEvict 0));
      [|simpl; rewrite Hsc; apply list_lookup_insert_eq; exact HSi
       |rewrite HKn; done| |apply evict_result; simpl; lia|simpl; lia].
    2:{ split; [apply no_match_holds_tag; unfold holds_tag, matches; simpl;
                fold tc; rewrite Eac, Ebc; done|].
        split; [apply all_valid_forallb; done|].
        split; [|eexists; split; [reflexivity|simpl; lia]].
        eexists. split; [reflexivity|].
        split; first_lines. }
    unfold tick, evict_state; simpl. rewrite Hsc. fold si tc.
    rewrite list_insert_insert_eq.
    eexists. split; [reflexivity|]. simpl.
    replace (count st + 1 + 1 + 1) with (count st + 3) by lia.
    split; [apply list_lookup_insert_eq; exact HSi|].
    lia.
  }
  destruct Hmain as (st' & Hrun & Hlook & Hcounts).
  exists st'. split; [exact Hrun|]. split; [exact Hlook|].
  split; [|exact Hcounts].
  intros (st'' & blocks' & Hrun' & Hlook' & Hholds & _).
  rewrite Hrun in Hrun'. injection Hrun' as <-.
  rewrite Hlook in Hlook'. injection Hlook' as <-.
  unfold holds_tag, matches in Hholds; simpl in Hholds.
  rewrite !andb_true_r, !orb_false_r in Hholds.
  apply orb_true_iff in Hholds as [H|H]; apply Z.eqb_eq in H; congruence.
Qed.

(** *** The scenario on a cache of one set of two lines *)

Lemma two_way_fifo_valid : valid_params two_way_fifo.
Proof.
  split; [exists 0; split; [lia|reflexivity]|].
  split; [exists 4; split; [lia|reflexivity]|].
  unfold INT_MAX; simpl; lia.
Qed.

(** C2 as the specification has it fails on the lines 0x00, 0x10, 0x20
    (tags 0, 1, 2): after the four calls the set holds the tags 2 and 1;
    the line that held tag 0 is the one evicted. *)
Lemma fifo_evicts_second_counterexample :
  fifo_scenario two_way_fifo (initial_state two_way_fifo stale_heap) 0 16 32
    = Some (mkState [[mkBlock true 2 3; mkBlock true 1 1]] 3 1 1 4) /\
  ~ evicts_second_keeps_first two_way_fifo
      (initial_state two_way_fifo stale_heap) 0 16 32.
Proof.
  split; [vm_compute; reflexivity|].
  intros (st' & blocks & Hrun & Hset & HA & _).
  vm_compute in Hrun. injection Hrun as <-.
  vm_compute in Hset. injection Hset as <-.
  vm_compute in HA. discriminate.
Qed.

Lemma fifo_hit_then_miss_witness :
  exists st',
    fifo_scenario two_way_fifo (initial_state two_way_fifo stale_heap)
                  0 16 32 = Some st' /\
    currCache st' !! Z.to_nat (set_index two_way_fifo 0) =
      Some [mkBlock true (tag_bits two_way_fifo 32) 3;
            mkBlock true (tag_bits two_way_fifo 16) 1] /\
    ~ evicts_second_keeps_first two_way_fifo
        (initial_state two_way_fifo stale_heap) 0 16 32 /\
    hit_count st' = 1 /\ miss_count st' = 3 /\ eviction_count st' = 1.
Proof.
  apply (fifo_hit_then_miss_evicts_first_in two_way_fifo
           (initial_state two_way_fifo stale_heap) 0 16 32
           [mkBlock false 77 99; mkBlock false 77 99]).
  - exact two_way_fifo_valid.
  - reflexivity.
  - reflexivity.
  - exists stale_heap, []. reflexivity.
  - vm_compute. reflexivity.
  - vm_compute. reflexivity.
  - vm_compute. reflexivity.
  - vm_compute. discriminate.
  - vm_compute. discriminate.
  - vm_compute. discriminate.
  - vm_compute. reflexivity.
  - vm_compute. reflexivity.
Defined.

(** ** Modify records *)

(** Both masks of the replayer give a value that differs from the
    initial [prevSetVal = -1]. *)
Lemma masked_nonneg p x :
  valid_params p ->
  0 <= to_long (Z.land x (first_mask p)) /\
  0 <= to_long (Z.land x (second_mask p)).
Proof.
  intros ([s [Hs HS]] & [b [Hb HB]] & _). unfold first_mask, second_mask.
  rewrite HS, HB, !INT_LOG2_pow2, !mask_pow2, !Z.land_ones by lia.
  assert (0 < 2 ^ s) by (apply Z.pow_pos_nonneg; lia).
  assert (2 ^ s <= 2 ^ 30) by (apply Z.pow_le_mono_r; lia).
  assert (0 < 2 ^ b) by (apply Z.pow_pos_nonneg; lia).
  assert (2 ^ b <= 2 ^ 30) by (apply Z.pow_le_mono_r; lia).
  pose proof (Z.mod_pos_bound x (2 ^ s)).
  pose proof (Z.mod_pos_bound x (2 ^ b)).
  change (2 ^ 30) with 1073741824 in *.
  rewrite !to_long_small; [lia| |];
    change (2 ^ 63) with 9223372036854775808; lia.
Qed.

(** A loop of the replayer over bytes of one line makes one call, for
    the first byte, unless it starts with the value of that line in
    [prevSetVal]. *)
Lemma pass_calls_one_line p mask val line : forall n i prev,
  (forall k, i <= k < i + Z.of_nat n ->
             Z.shiftr (wrap64 (val + k)) (INT_LOG2 (num_B p)) = line) ->
  pass_calls p mask val n i prev =
    if Nat.eqb n 0 || (prev =? to_long (Z.land line mask))
    then [] else [wrap64 (val + i)].
Proof.
  induction n as [|n IH]; intros i prev Hline; [reflexivity|].
  cbn [pass_calls Nat.eqb orb]. rewrite (Hline i) by lia.
  assert (Hrest : forall k, i + 1 <= k < i + 1 + Z.of_nat n ->
            Z.shiftr (wrap64 (val + k)) (INT_LOG2 (num_B p)) = line)
    by (intros k Hk; apply Hline; lia).
  destruct (prev =? to_long (Z.land line mask)) eqn:Hprev; cbn [negb].
  - rewrite (IH _ _ Hrest), Hprev, orb_true_r. reflexivity.
  - rewrite (IH _ _ Hrest), Z.eqb_refl, orb_true_r. reflexivity.
Qed.

Lemma within_one_line_bytes p val len k :
  valid_params p -> within_one_line p val len -> 0 <= k < len ->
  Z.shiftr (wrap64 (val + k)) (INT_LOG2 (num_B p))
    = Z.shiftr val (INT_LOG2 (num_B p)).
Proof.
  intros (_ & [b [Hb HB]] & _) (Hval & Hlen & Hend & Hline) Hk.
  rewrite HB, INT_LOG2_pow2 in * by lia.
  unfold wrap64. rewrite Z.mod_small by lia.
  rewrite !Z.shiftr_div_pow2 in * by lia.
  assert (0 < 2 ^ b) by (apply Z.pow_pos_nonneg; lia).
  pose proof (Z.div_le_mono val (val + k) (2 ^ b)).
  pose proof (Z.div_le_mono (val + k) (val + len - 1) (2 ^ b)).
  lia.
Qed.

Lemma one_line_calls p mask val len :
  valid_params p -> within_one_line p val len ->
  0 <= to_long (Z.land (Z.shiftr val (INT_LOG2 (num_B p))) mask) ->
  pass_calls p mask val (Z.to_nat len) 0 (-1) = [val].
Proof.
  intros Hp Hone Hnn.
  rewrite (pass_calls_one_line p mask val
             (Z.shiftr val (INT_LOG2 (num_B p)))).
  - destruct Hone as (Hval & Hlen & Hend & _).
    destruct (Nat.eqb_spec (Z.to_nat len) 0); [lia|].
    destruct (Z.eqb_spec (-1)
                (to_long (Z.land (Z.shiftr val (INT_LOG2 (num_B p))) mask)));
      [lia|].
    simpl. unfold wrap64. rewrite Z.add_0_r, Z.mod_small by lia. reflexivity.
  - intros k Hk. apply (within_one_line_bytes p val len); [done|done|lia].
Qed.

(** A call on a set that does not hold the tag is a miss. *)
Lemma access_data_missing p st addr blocks st1 :
  currCache st !! Z.to_nat (set_index p addr) = Some blocks ->
  length blocks = Z.to_nat (num_K p) ->
  holds_tag blocks (tag_bits p addr) = false ->
  access_data p st addr = Some st1 ->
  counts_miss st st1 \/ counts_miss_eviction st st1.
Proof.
  intros Hset HK Hhold Hacc. apply no_match_holds_tag in Hhold.
  destruct (access_data_outcome p st addr blocks Hset HK) as (o & Hok & Hres).
  rewrite Hacc in Hres.
  destruct o as [h b|e|v|]; simpl in Hok, Hres.
  - exfalso. destruct Hok. eauto using first_match_no_match.
  - destruct (miss_count st <? INT_MAX); [|discriminate]. injection Hres as ->.
    left. unfold counts_miss, miss_state; simpl. done.
  - destruct (_ && _); [|discriminate]. injection Hres as ->.
    right. unfold counts_miss_eviction, evict_state; simpl. done.
  - discriminate.
Qed.

(** C5, as amended.  For a Modify record whose bytes lie in one cache
    line that the cache does not hold, replayed from a state between two
    calls: the read loop and the write loop each make one call of
    [access_data], for the address of the record; the first call is a
    miss (which installs the line) and the second one is a hit. *)
Theorem modify_within_one_line_misses_then_hits p st r blocks :
  valid_params p -> reachable p st -> count st + 1 < INT_MAX ->
  operation r = "M"%char ->
  within_one_line p (value r) (len r) ->
  currCache st !! Z.to_nat (set_index p (value r)) = Some blocks ->
  holds_tag blocks (tag_bits p (value r)) = false ->
  read_calls p r = [value r] /\ write_calls p r = [value r] /\
  one_miss_then_one_hit p st r.
Proof.
  intros Hp Hreach Hlt Hop Hone Hset Hhold.
  pose proof (reachable_Inv p st Hp Hreach) as HI.
  assert (Hread : read_calls p r = [value r]).
  { unfold read_calls.
    apply one_line_calls; [exact Hp|exact Hone|].
    exact (proj1 (masked_nonneg p _ Hp)). }
  assert (Hwrite : write_calls p r = [value r]).
  { unfold write_calls. rewrite Hop. cbn [Ascii.eqb Bool.eqb].
    apply one_line_calls; [exact Hp|exact Hone|].
    exact (proj2 (masked_nonneg p _ Hp)). }
  split; [exact Hread|]. split; [exact Hwrite|].
  destruct (access_data_defined p st (value r) Hp HI) as [st1 Hacc]; [lia|].
  destruct (access_data_Inv p st (value r) st1 Hp HI Hacc)
    as (_ & Hcnt & Hhm & Hh & He).
  pose proof (proj2 (proj1 (proj1 HI)) _ _ Hset) as HK.
  destruct (access_data_holds_tag p st (value r) st1 blocks Hset HK Hacc)
    as (blocks1 & Hset1 & HK1 & Hhold1).
  destruct (access_data_holding p (tick st1) (value r) blocks1)
    as (st3 & Hacc3 & Hhit); [exact Hset1|exact HK1|exact Hhold1|simpl; lia|].
  exists (value r), (value r), st1, st3.
  split; [unfold access_calls; rewrite Hread, Hwrite; reflexivity|].
  split; [exact Hacc|].
  split; [eauto using access_data_missing|].
  split; [exact Hacc3|]. split; [exact Hhit|].
  rewrite replay_access_calls. unfold access_calls.
  rewrite Hread, Hwrite.
  apply (run_calls_two p st _ _ st1 st3); try assumption; [lia|].
  rewrite (access_data_count _ _ _ _ Hacc3). simpl. lia.
Qed.

(** *** A Modify record that spans two lines *)

Lemma one_line_lru_valid : valid_params one_line_lru.
Proof.
  split; [exists 0; split; [lia|reflexivity]|].
  split; [exists 4; split; [lia|reflexivity]|].
  unfold INT_MAX; simpl; lia.
Qed.

(** C5 as the specification has it fails on the record [M 0,32] with
    four sets of one line of 16 bytes: the record touches two lines that
    the fresh cache does not hold, the replayer makes four calls, and
    they are two misses followed by two hits. *)
Lemma modify_two_lines_counterexample :
  access_calls four_sets_lru (mkAccess "M" 0 32) = [0; 16; 0; 16] /\
  (exists st,
     replay_access four_sets_lru (initial_state four_sets_lru stale_heap)
                   (mkAccess "M" 0 32) = Some st /\
     miss_count st = 2 /\ hit_count st = 2) /\
  ~ one_miss_then_one_hit four_sets_lru
      (initial_state four_sets_lru stale_heap) (mkAccess "M" 0 32).
Proof.
  split; [vm_compute; reflexivity|]. split.
  - eexists. split; [vm_compute; reflexivity|]. split; reflexivity.
  - intros (a1 & a2 & st1 & st3 & Hcalls & _).
    vm_compute in Hcalls. discriminate.
Qed.

Lemma modify_within_one_line_witness :
  read_calls one_line_lru (mkAccess "M" 16 4) = [16] /\
  write_calls one_line_lru (mkAccess "M" 16 4) = [16] /\
  one_miss_then_one_hit one_line_lru
    (initial_state one_line_lru stale_heap) (mkAccess "M" 16 4).
Proof.
  apply (modify_within_one_line_misses_then_hits one_line_lru
           (initial_state one_line_lru stale_heap) (mkAccess "M" 16 4)
           [mkBlock false 77 99]).
  - exact one_line_lru_valid.
  - exists stale_heap, []. reflexivity.
  - vm_compute. reflexivity.
  - reflexivity.
  - unfold within_one_line. simpl value. simpl len.
    split; [lia|]. split; [lia|]. split; [vm_compute; discriminate|].
    vm_compute. reflexivity.
  - vm_compute. reflexivity.
  - vm_compute. reflexivity.
Defined.

(** ** One call per cache line? *)

(** C1 does not hold of [replay_trace].  With lines of one byte the
    record [L 0,2] touches the lines 0 and 1, and the replayer makes one
    call, for address 0: the mask of its first loop, computed from [B],
    is 0.  With one set of 16-byte lines the record [M 0,32] touches the
    lines 0 and 1; the first loop makes a call for each, the second
    loop, whose mask is computed from [S] and is 0, makes one call. *)
Theorem replayer_calls_fewer_than_lines :
  (lines_touched byte_lines_lru (mkAccess "L" 0 2) = [0; 1] /\
   first_mask byte_lines_lru = 0 /\
   access_calls byte_lines_lru (mkAccess "L" 0 2) = [0]) /\
  (lines_touched one_line_lru (mkAccess "M" 0 32) = [0; 1] /\
   second_mask one_line_lru = 0 /\
   read_calls one_line_lru (mkAccess "M" 0 32) = [0; 16] /\
   write_calls one_line_lru (mkAccess "M" 0 32) = [0]).
Proof. vm_compute. repeat split. Qed.

(** ** Where the replayer does make one call per line *)

Lemma div_pow2_succ a b :
  0 <= b -> (a + 1) / 2 ^ b = a / 2 ^ b \/ (a + 1) / 2 ^ b = a / 2 ^ b + 1.
Proof.
  intros Hb. assert (0 < 2 ^ b) by (apply Z.pow_pos_nonneg; lia).
  pose proof (Z.div_le_mono a (a + 1) (2 ^ b)).
  pose proof (Z.div_le_mono (a + 1) (a + 1 * 2 ^ b) (2 ^ b)).
  rewrite Z.div_add in * by lia. lia.
Qed.

Lemma mod_pow2_succ_ne l k : 1 <= k -> (l + 1) mod 2 ^ k <> l mod 2 ^ k.
Proof.
  intros Hk Heq.
  assert (2 <= 2 ^ k).
  { change 2 with (2 ^ 1) at 1. apply Z.pow_le_mono_r; lia. }
  assert ((l + 1 - l) mod 2 ^ k = 0) as Hz.
  { rewrite Zminus_mod, Heq, Z.sub_diag. apply Z.mod_0_l. lia. }
  replace (l + 1 - l) with 1 in Hz by lia.
  rewrite Z.mod_small in Hz by lia. discriminate.
Qed.

Lemma masked_line p b k a :
  INT_LOG2 (num_B p) = b -> 0 <= b -> 0 <= k <= 30 -> 0 <= a < 2 ^ 64 ->
  to_long (Z.land (Z.shiftr (wrap64 a) (INT_LOG2 (num_B p))) (Z.ones k))
    = (a / 2 ^ b) mod 2 ^ k.
Proof.
  intros Hb Hb0 Hk Ha. rewrite Hb. unfold wrap64.
  rewrite Z.mod_small, Z.shiftr_div_pow2, Z.land_ones by lia.
  assert (0 < 2 ^ k) by (apply Z.pow_pos_nonneg; lia).
  assert (2 ^ k <= 2 ^ 30) by (apply Z.pow_le_mono_r; lia).
  pose proof (Z.mod_pos_bound (a / 2 ^ b) (2 ^ k)).
  change (2 ^ 30) with 1073741824 in *.
  apply to_long_small. change (2 ^ 63) with 9223372036854775808. lia.
Qed.

(** A loop of the replayer whose mask has at least one bit, entered
    with the masked line of the byte before [val + i] in [prevSetVal]:
    the lines of its calls are the lines after that of the previous
    byte, up to that of the last byte. *)
Lemma pass_calls_lines p b k val :
  INT_LOG2 (num_B p) = b -> 0 <= b -> 1 <= k <= 30 -> 0 <= val ->
  forall n i,
    0 < i -> val + i + Z.of_nat n <= 2 ^ 64 ->
    map (line_of p)
        (pass_calls p (Z.ones k) val n i (((val + i - 1) / 2 ^ b) mod 2 ^ k))
    = seqZ ((val + i - 1) / 2 ^ b + 1)
           ((val + i + Z.of_nat n - 1) / 2 ^ b - (val + i - 1) / 2 ^ b).
Proof.
  intros Hb Hb0 Hk Hval.
  induction n as [|n IH]; intros i Hi Hend.
  - simpl. rewrite Z.add_0_r, Z.sub_diag. reflexivity.
  - cbn [pass_calls].
    rewrite (masked_line p b k (val + i) Hb) by lia.
    destruct (div_pow2_succ (val + i - 1) b Hb0) as [Hsame|Hnext];
      replace (val + i - 1 + 1) with (val + i) in * by lia.
    + rewrite Hsame, Z.eqb_refl. cbn [negb].
      specialize (IH (i + 1)).
      replace (val + (i + 1) - 1) with (val + i) in IH by lia.
      rewrite Hsame in IH. rewrite IH by lia.
      f_equal. f_equal. f_equal. lia.
    + destruct (Z.eqb_spec (((val + i - 1) / 2 ^ b) mod 2 ^ k)
                           (((val + i) / 2 ^ b) mod 2 ^ k)) as [Heq|Hne].
      { exfalso. rewrite Hnext in Heq. symmetry in Heq.
        exact (mod_pow2_succ_ne _ k ltac:(lia) Heq). }
      cbn [negb map].
      specialize (IH (i + 1)).
      replace (val + (i + 1) - 1) with (val + i) in IH by lia.
      rewrite IH by lia.
      assert (0 < 2 ^ b) by (apply Z.pow_pos_nonneg; lia).
      pose proof (Z.div_le_mono (val + i)
                    (val + i + Z.of_nat (S n) - 1) (2 ^ b)).
      rewrite (seqZ_cons ((val + i - 1) / 2 ^ b + 1)) by lia.
      f_equal.
      * unfold line_of, wrap64. rewrite Hb, Z.mod_small by lia.
        rewrite Z.shiftr_div_pow2 by lia. lia.
      * f_equal; [lia|].
        replace (val + (i + 1) + Z.of_nat n - 1)
          with (val + i + Z.of_nat (S n) - 1) by lia.
        lia.
Qed.

Lemma byte_lines_cons b a n :
  map (fun i => (a + i) / 2 ^ b) (seqZ 0 (Z.of_nat (S n)))
  = a / 2 ^ b :: map (fun i => (a + 1 + i) / 2 ^ b) (seqZ 0 (Z.of_nat n)).
Proof.
  rewrite seqZ_cons by lia. cbn [map]. rewrite Z.add_0_r. f_equal.
  replace (Z.pred (Z.of_nat (S n))) with (Z.of_nat n) by lia.
  change (Z.succ 0) with (1 + 0). rewrite <- fmap_add_seqZ.
  change (map (fun i => (a + i) / 2 ^ b) (Z.add 1 <$> seqZ 0 (Z.of_nat n)))
    with ((fun i => (a + i) / 2 ^ b) <$> (Z.add 1 <$> seqZ 0 (Z.of_nat n))).
  rewrite <- list_fmap_compose. apply list_fmap_ext.
  intros _ i _. simpl. f_equal. lia.
Qed.

(** The distinct lines of [n+1] consecutive bytes are the lines from
    that of the first byte to that of the last one. *)
Lemma remove_dups_byte_lines b :
  0 <= b ->
  forall n a,
    remove_dups (map (fun i => (a + i) / 2 ^ b) (seqZ 0 (Z.of_nat (S n))))
    = seqZ (a / 2 ^ b) ((a + Z.of_nat n) / 2 ^ b - a / 2 ^ b + 1).
Proof.
  intros Hb. assert (0 < 2 ^ b) by (apply Z.pow_pos_nonneg; lia).
  induction n as [|n IH]; intros a.
  - rewrite byte_lines_cons. cbn [Z.of_nat seqZ map].
    rewrite Z.add_0_r, Z.sub_diag. reflexivity.
  - rewrite byte_lines_cons. cbn [remove_dups].
    specialize (IH (a + 1)).
    replace (a + 1 + Z.of_nat n) with (a + Z.of_nat (S n)) in IH by lia.
    pose proof (Z.div_le_mono (a + 1) (a + Z.of_nat (S n)) (2 ^ b)).
    destruct (decide_rel elem_of _ _) as [Hin|Hnin].
    + rewrite IH.
      apply elem_of_remove_dups in Hin. rewrite IH in Hin.
      apply elem_of_seqZ in Hin.
      destruct (div_pow2_succ a b Hb) as [Hsame|Hnext]; [|lia].
      rewrite Hsame. reflexivity.
    + rewrite IH.
      destruct (div_pow2_succ a b Hb) as [Hsame|Hnext].
      * exfalso. apply Hnin, elem_of_remove_dups. rewrite IH.
        apply elem_of_seqZ. lia.
      * rewrite (seqZ_cons (a / 2 ^ b)) by lia.
        rewrite Hnext. f_equal. f_equal; lia.
Qed.

Lemma lines_touched_range p b r :
  INT_LOG2 (num_B p) = b -> 0 <= b ->
  0 <= value r -> 0 < len r -> value r + len r <= 2 ^ 64 ->
  lines_touched p r
  = seqZ (value r / 2 ^ b)
         ((value r + len r - 1) / 2 ^ b - value r / 2 ^ b + 1).
Proof.
  intros Hb Hb0 Hval Hlen Hend. unfold lines_touched.
  replace (len r) with (Z.of_nat (S (Z.to_nat (len r - 1)))) at 1 by lia.
  replace (value r + len r - 1)
    with (value r + Z.of_nat (Z.to_nat (len r - 1))) by lia.
  rewrite <- (remove_dups_byte_lines b Hb0).
  f_equal. apply map_ext_in. intros i Hi.
  apply list_elem_of_In, elem_of_seqZ in Hi.
  unfold line_of, wrap64. rewrite Hb, Z.mod_small by lia.
  apply Z.shiftr_div_pow2. lia.
Qed.

Lemma pass_calls_once_per_line p b k r :
  INT_LOG2 (num_B p) = b -> 0 <= b -> 1 <= k <= 30 ->
  0 <= value r -> 0 <= len r -> value r + len r <= 2 ^ 64 ->
  map (line_of p)
      (pass_calls p (Z.ones k) (value r) (Z.to_nat (len r)) 0 (-1))
  = lines_touched p r.
Proof.
  intros Hb Hb0 Hk Hval Hlen Hend.
  destruct (Z.eq_dec (len r) 0) as [Hz|Hnz].
  { unfold lines_touched. rewrite Hz. reflexivity. }
  rewrite (lines_touched_range p b r) by lia.
  destruct (Z.to_nat (len r)) as [|n] eqn:Hn; [lia|].
  cbn [pass_calls]. rewrite Z.add_0_r.
  rewrite (masked_line p b k (value r) Hb) by lia.
  assert (0 < 2 ^ k) by (apply Z.pow_pos_nonneg; lia).
  pose proof (Z.mod_pos_bound (value r / 2 ^ b) (2 ^ k)).
  destruct (Z.eqb_spec (-1) ((value r / 2 ^ b) mod 2 ^ k)); [lia|].
  cbn [negb map].
  pose proof (pass_calls_lines p b k (value r) Hb Hb0 Hk Hval n 1) as Hrest.
  replace (value r + 1 - 1) with (value r) in Hrest by lia.
  replace (0 + 1) with 1 by lia.
  rewrite Hrest by lia.
  assert (0 < 2 ^ b) by (apply Z.pow_pos_nonneg; lia).
  pose proof (Z.div_le_mono (value r) (value r + len r - 1) (2 ^ b)).
  rewrite (seqZ_cons (value r / 2 ^ b)) by lia.
  f_equal.
  - unfold line_of, wrap64. rewrite Hb, Z.mod_small by lia.
    apply Z.shiftr_div_pow2. lia.
  - replace (value r + 1 + Z.of_nat n - 1) with (value r + len r - 1) by lia.
    f_equal; lia.
Qed.

(** Where the replayer does what C1 says: for a record whose bytes do
    not wrap around the address space, the first loop makes one call per
    line touched when a line has at least two bytes, and the second loop
    when there are at least two sets. *)
Theorem replayer_calls_once_per_line p r :
  valid_params p ->
  0 <= value r -> 0 <= len r -> value r + len r <= 2 ^ 64 ->
  (2 <= num_B p -> map (line_of p) (read_calls p r) = lines_touched p r) /\
  (2 <= num_S p -> operation r = "M"%char ->
   map (line_of p) (write_calls p r) = lines_touched p r).
Proof.
  intros ([s [Hs HS]] & [b [Hb HB]] & _) Hval Hlen Hend.
  assert (HlogB : INT_LOG2 (num_B p) = b)
    by (rewrite HB; apply INT_LOG2_pow2; lia).
  assert (HlogS : INT_LOG2 (num_S p) = s)
    by (rewrite HS; apply INT_LOG2_pow2; lia).
  split.
  - intros HB2. unfold read_calls, first_mask.
    rewrite HlogB, mask_pow2 by lia.
    apply (pass_calls_once_per_line p b b r); try lia.
    destruct (Z.eq_dec b 0) as [->|]; [|lia].
    rewrite HB in HB2. simpl in HB2. lia.
  - intros HS2 Hop. unfold write_calls, second_mask.
    rewrite Hop, HlogS, mask_pow2 by lia. cbn [Ascii.eqb Bool.eqb].
    apply (pass_calls_once_per_line p b s r); try lia.
    destruct (Z.eq_dec s 0) as [->|]; [|lia].
    rewrite HS in HS2. simpl in HS2. lia.
Qed.

(** ** End to end *)

(** C9.  With [-S 1 -K 1 -B 16 -p LRU], whatever [malloc] returned, the
    trace of the two loads ends with [hit_count = 0], [miss_count = 2]
    and [eviction_count = 1], and the output of the program is the one
    line [hits:0 misses:2 evictions:1]. *)
Theorem two_loads_one_line_summary (heap : nat -> nat -> Block) :
  (exists st,
     replay_trace one_line_lru (initial_state one_line_lru heap) two_loads
       = Some st /\
     hit_count st = 0 /\ miss_count st = 2 /\ eviction_count st = 1) /\
  main one_line_lru heap two_loads
    = Some ("hits:0 misses:2 evictions:1" ++
            String (ascii_of_nat 10) EmptyString)%string.
Proof.
  assert (Hrun : replay_trace one_line_lru (initial_state one_line_lru heap)
                   two_loads
                 = Some (mkState [[mkBlock true 2 1]] 2 0 1 2)).
  { rewrite replay_trace_calls.
    change (trace_calls one_line_lru two_loads) with [0; 32].
    change (initial_state one_line_lru heap)
      with (mkState [[mkBlock false (tag (heap 0%nat 0%nat))
                               (trackID (heap 0%nat 0%nat))]] 0 0 0 0).
    erewrite (run_calls_step one_line_lru _ 0 _ _ (MissFill 0));
      [|reflexivity|reflexivity|
       |apply miss_result; simpl; unfold INT_MAX; lia
       |simpl; unfold INT_MAX; lia].
    - vm_compute. reflexivity.
    - split; [apply no_match_holds_tag; unfold holds_tag, matches; simpl;
              rewrite andb_false_r; done|].
      split; [eexists; split; [reflexivity|done]|intros; lia]. }
  split.
  - eexists. split; [exact Hrun|]. repeat split.
  - unfold main. rewrite Hrun. vm_compute. reflexivity.
Qed.

(** ** The properties on the cache of one line *)

Lemma after_first_load_reachable : reachable one_line_lru after_first_load.
Proof. exists stale_heap, [0]. vm_compute. reflexivity. Qed.

(** In the set of [tied_stamps] the lines 1 and 2 share the least stamp:
    the victim is line 1. *)
Lemma miss_in_full_set_witness :
  first_min [mkBlock true 0 7; mkBlock true 1 5; mkBlock true 2 5] 1 /\
  access_data three_way_fifo tied_stamps 48 =
    Some (mkState [[mkBlock true 0 7; mkBlock true 3 8; mkBlock true 2 5]]
                  4 0 1 8).
Proof.
  assert (Hfirst : first_min
            [mkBlock true 0 7; mkBlock true 1 5; mkBlock true 2 5] 1).
  { exists (mkBlock true 1 5). split; [reflexivity|]. split.
    - intros [|[|[|j]]] b' Hb'; simpl in Hb'; try discriminate;
        injection Hb' as <-; simpl; lia.
    - intros [|j] b' Hj Hb'; [|lia].
      simpl in Hb'. injection Hb' as <-. simpl. lia. }
  split; [exact Hfirst|].
  destruct (miss_in_full_set_evicts_min_stamp three_way_fifo tied_stamps 48
              [mkBlock true 0 7; mkBlock true 1 5; mkBlock true 2 5])
    as (v & st1 & Hv & Hacc & Hm & He & Hh & Hc & Hcache).
  - vm_compute. reflexivity.
  - vm_compute. reflexivity.
  - vm_compute. reflexivity.
  - vm_compute. reflexivity.
  - vm_compute. reflexivity.
  - vm_compute. reflexivity.
  - exists 1%nat, (mkBlock true 1 5). split; [reflexivity|].
    unfold INT_MAX. simpl. lia.
  - rewrite Hacc. f_equal.
    rewrite (first_min_unique _ _ _ Hv Hfirst) in Hcache.
    destruct st1 as [c m h e cnt]. simpl in Hm, He, Hh, Hc, Hcache.
    subst. vm_compute. reflexivity.
Defined.

Lemma hit_updates_recency_witness :
  exists h b st1,
    first_match [mkBlock true 0 0] (tag_bits one_line_lru 0) h /\
    [mkBlock true 0 0] !! h = Some b /\
    access_data one_line_lru after_first_load 0 = Some st1 /\
    hit_count st1 = hit_count after_first_load + 1 /\
    miss_count st1 = miss_count after_first_load /\
    eviction_count st1 = eviction_count after_first_load /\
    count st1 = count after_first_load /\
    currCache st1 =
      match policy one_line_lru with
      | LRU => <[Z.to_nat (set_index one_line_lru 0) :=
                   <[h := mkBlock (Valid b) (tag b) (count after_first_load)]>
                     [mkBlock true 0 0]]>
                 (currCache after_first_load)
      | FIFO => currCache after_first_load
      end /\
    forall i j bl blk,
      currCache after_first_load !! i = Some bl -> bl !! j = Some blk ->
      exists bl1 blk1,
        currCache st1 !! i = Some bl1 /\ bl1 !! j = Some blk1 /\
        Valid blk1 = Valid blk /\ tag blk1 = tag blk /\
        (i <> Z.to_nat (set_index one_line_lru 0) \/ j <> h -> blk1 = blk) /\
        (policy one_line_lru = FIFO -> blk1 = blk) /\
        (policy one_line_lru = LRU ->
         i = Z.to_nat (set_index one_line_lru 0) -> j = h ->
         trackID blk1 = count after_first_load).
Proof.
  apply (hit_updates_recency_by_policy one_line_lru after_first_load 0
           [mkBlock true 0 0]).
  - exact one_line_lru_valid.
  - exact after_first_load_reachable.
  - vm_compute. reflexivity.
  - vm_compute. reflexivity.
  - vm_compute. reflexivity.
Defined.

Lemma counters_are_conserved_witness :
  exists st,
    run_calls one_line_lru (initial_state one_line_lru stale_heap)
              [0; 32; 32] = Some st /\
    hit_count st + miss_count st = 3 /\
    0 <= eviction_count st <= miss_count st /\
    exists st1, access_data one_line_lru st 0 = Some st1.
Proof.
  destruct (counters_are_conserved one_line_lru stale_heap [0; 32; 32]
              one_line_lru_valid) as [Hdefined Hevery].
  destruct Hdefined as [st Hrun]; [vm_compute; discriminate|].
  exists st. split; [exact Hrun|].
  destruct (Hevery st Hrun) as (Hsum & Hev & Hnext & _).
  split; [exact Hsum|]. split; [exact Hev|].
  apply Hnext.
  vm_compute in Hrun. injection Hrun as <-. vm_compute. reflexivity.
Defined.

Lemma distinct_tags_witness :
  exists st,
    run_calls two_way_fifo (initial_state two_way_fifo stale_heap)
              [0; 16; 0; 32] = Some st /\
    forall i blocks, currCache st !! i = Some blocks -> distinct_tags blocks.
Proof.
  destruct (valid_lines_have_distinct_tags two_way_fifo stale_heap
              [0; 16; 0; 32] two_way_fifo_valid) as [Hdefined Hevery].
  destruct Hdefined as [st Hrun]; [vm_compute; discriminate|].
  exists st. split; [exact Hrun|]. exact (Hevery st Hrun).
Defined.

Lemma stamps_increase_witness :
  0 = count (initial_state one_line_lru stale_heap) /\
  1 = count (initial_state one_line_lru stale_heap) + 1 /\
  0 < 1.
Proof.
  apply (proj2 (proj2 (stamps_increase_from_call_to_call one_line_lru))
           (initial_state one_line_lru stale_heap) 0
           (mkState [[mkBlock true 0 0]] 1 0 0 0)
           after_first_load 32
           (mkState [[mkBlock true 2 1]] 2 0 1 1)).
  - vm_compute. reflexivity.
  - vm_compute. reflexivity.
  - vm_compute. reflexivity.
  - exists 0%nat, 0%nat, [mkBlock false 77 99], (mkBlock false 77 99),
      [mkBlock true 0 0], (mkBlock true 0 0).
    repeat split; discriminate.
  - exists 0%nat, 0%nat, [mkBlock true 0 0], (mkBlock true 0 0),
      [mkBlock true 2 1], (mkBlock true 2 1).
    repeat split; discriminate.
Defined.

Lemma access_again_witness :
  exists st1 st2 blocks1,
    access_data one_line_lru (initial_state one_line_lru stale_heap) 0
      = Some st1 /\
    currCache st1 !! Z.to_nat (set_index one_line_lru 0) = Some blocks1 /\
    holds_tag blocks1 (tag_bits one_line_lru 0) = true /\
    count_incr st1 = Some st2 /\
    (exists st3, access_data one_line_lru st2 0 = Some st3 /\
                 counts_hit st2 st3) /\
    (exists st3, access_data one_line_lru st1 0 = Some st3 /\
                 counts_hit st1 st3).
Proof.
  apply (access_again_is_a_hit one_line_lru
           (initial_state one_line_lru stale_heap) 0).
  - exact one_line_lru_valid.
  - exists stale_heap, []. reflexivity.
  - vm_compute. reflexivity.
Defined.

(** * More on the cache model *)

(** ** A call between two states of a run, case by case *)

Lemma access_data_inv p st a st1 :
  valid_params p -> Inv p st -> access_data p st a = Some st1 ->
  exists blocks,
    currCache st !! Z.to_nat (set_index p a) = Some blocks /\
    length blocks = Z.to_nat (num_K p) /\
    ((exists h b, outcome_ok blocks (tag_bits p a) (Hit h b) /\
                  st1 = hit_state p st (Z.to_nat (set_index p a)) h blocks b) \/
     (exists e, outcome_ok blocks (tag_bits p a) (MissFill e) /\
                st1 = miss_state st (Z.to_nat (set_index p a)) e blocks
                                 (tag_bits p a)) \/
     (exists v, outcome_ok blocks (tag_bits p a) (MissEvict v) /\
                st1 = evict_state st (Z.to_nat (set_index p a)) v blocks
                                  (tag_bits p a))).
Proof.
  intros Hp HI Hacc.
  destruct (addressed_set p (currCache st) a Hp (proj1 (proj1 HI)))
    as (blocks & Hset & HK).
  exists blocks. split; [exact Hset|]. split; [exact HK|].
  destruct (access_data_outcome p st a blocks Hset HK) as (o & Hok & Hres).
  rewrite Hacc in Hres. destruct o as [h b|e|v|]; cbn [outcome_result] in Hres.
  - destruct (hit_count st <? INT_MAX); [|discriminate].
    injection Hres as ->. left. eauto.
  - destruct (miss_count st <? INT_MAX); [|discriminate].
    injection Hres as ->. right. left. eauto.
  - destruct (_ && _); [|discriminate].
    injection Hres as ->. right. right. eauto.
  - discriminate.
Qed.

(** Induction over the states of runs. *)
Lemma reachable_induction p (P : State -> Prop) :
  valid_params p ->
  (forall heap, P (initial_state p heap)) ->
  (forall st a st1,
     Inv p st -> P st -> access_data p st a = Some st1 ->
     count st1 < INT_MAX -> P (tick st1)) ->
  forall st, reachable p st -> P st.
Proof.
  intros Hp Hinit Hstep st (heap & addrs & Hrun).
  assert (Hgen : forall addrs st0 st',
             Inv p st0 -> P st0 -> run_calls p st0 addrs = Some st' -> P st').
  { clear -Hp Hstep. induction addrs as [|a rest IH]; intros st0 st' HI HP Hrun.
    - injection Hrun as <-. exact HP.
    - unfold run_calls in Hrun; fold run_calls in Hrun.
      destruct (access_data p st0 a) as [st1|] eqn:Hacc; [|discriminate].
      cbn [mbind option_bind] in Hrun.
      destruct (count_incr st1) as [st2|] eqn:Hinc; [|discriminate].
      cbn [mbind option_bind] in Hrun.
      pose proof (step_Inv p st0 a st1 st2 Hp HI Hacc Hinc) as HI2.
      apply count_incr_Some in Hinc as [Hlt ->].
      apply (IH _ _ HI2); [|exact Hrun].
      apply (Hstep st0 a st1); assumption. }
  apply (Hgen addrs (initial_state p heap)); auto using Inv_initial.
Qed.

(** ** Occupancy *)

Lemma occupied_bounds blocks : 0 <= occupied blocks <= Z.of_nat (length blocks).
Proof.
  unfold occupied. pose proof (filter_length_le Valid blocks). lia.
Qed.

Lemma occupied_insert blocks k b nb :
  blocks !! k = Some b ->
  occupied (<[k := nb]> blocks)
  = occupied blocks - Z.b2z (Valid b) + Z.b2z (Valid nb).
Proof.
  unfold occupied. revert k. induction blocks as [|x blocks IH]; intros k Hk.
  - discriminate.
  - destruct k as [|k]; simpl in Hk.
    + injection Hk as ->. simpl.
      destruct (Valid b), (Valid nb); simpl length; simpl Z.b2z; lia.
    + specialize (IH k Hk). simpl.
      destruct (Valid x); simpl length; lia.
Qed.

Lemma occupied_cache_insert (c : list (list Block)) i bl bl' :
  c !! i = Some bl ->
  occupied_cache (<[i := bl']> c) = occupied_cache c - occupied bl + occupied bl'.
Proof.
  revert i. induction c as [|x c IH]; intros i Hi.
  - discriminate.
  - destruct i as [|i]; simpl in Hi.
    + injection Hi as ->. simpl. lia.
    + specialize (IH i Hi). simpl. lia.
Qed.

Lemma occupied_all_invalid blocks :
  (forall j b, blocks !! j = Some b -> Valid b = false) -> occupied blocks = 0.
Proof.
  unfold occupied. induction blocks as [|x blocks IH]; intros Hall.
  - reflexivity.
  - simpl. rewrite (Hall 0%nat x eq_refl).
    apply IH. intros j b Hj. apply (Hall (S j) b Hj).
Qed.

Lemma occupied_cache_all_invalid (c : list (list Block)) :
  (forall i blocks j b, c !! i = Some blocks -> blocks !! j = Some b ->
                        Valid b = false) ->
  occupied_cache c = 0.
Proof.
  induction c as [|x c IH]; intros Hall.
  - reflexivity.
  - simpl. rewrite (occupied_all_invalid x), IH; [reflexivity| |].
    + intros i blocks j b Hi Hj. apply (Hall (S i) blocks j b Hi Hj).
    + intros j b Hj. apply (Hall 0%nat x j b eq_refl Hj).
Qed.

(** X1.  The arrays never change their sizes: in every state of a run
    the cache has [S] sets of [K] lines, so that a set never holds more
    than [K] valid lines. *)
Theorem cache_keeps_its_capacity p st :
  valid_params p -> reachable p st ->
  length (currCache st) = Z.to_nat (num_S p) /\
  forall i blocks,
    currCache st !! i = Some blocks ->
    length blocks = Z.to_nat (num_K p) /\ 0 <= occupied blocks <= num_K p.
Proof.
  intros Hp Hreach.
  destruct (reachable_Inv p st Hp Hreach) as (((Hlen & HK) & _) & _).
  split; [exact Hlen|]. intros i blocks Hi.
  specialize (HK i blocks Hi). split; [exact HK|].
  pose proof (occupied_bounds blocks). destruct Hp as (_ & _ & ?). lia.
Qed.

(** X2.  Every miss either fills an invalid line or evicts a valid one:
    in every state of a run, [miss_count] is [eviction_count] plus the
    number of valid lines of the cache. *)
Theorem misses_are_fills_plus_evictions p st :
  valid_params p -> reachable p st ->
  miss_count st = eviction_count st + occupied_cache (currCache st).
Proof.
  intros Hp. revert st. apply (reachable_induction p); [exact Hp| |].
  - intros heap. simpl. rewrite occupied_cache_all_invalid; [reflexivity|].
    intros i blocks j b Hi Hj. eauto using allocate_cache_lookup.
  - intros st a st1 HI HP Hacc _.
    destruct (access_data_inv p st a st1 Hp HI Hacc)
      as (blocks & Hset & HK & [(h & b & Hok & ->)|[(e & Hok & ->)|(v & Hok & ->)]]);
      cbn [tick hit_state miss_state evict_state currCache miss_count
           eviction_count hit_count count].
    + destruct Hok as [_ Hb]. destruct (policy p); [exact HP|].
      rewrite (occupied_cache_insert _ _ blocks) by exact Hset.
      rewrite (occupied_insert _ _ b) by exact Hb.
      unfold stamp; simpl Valid. lia.
    + destruct Hok as [_ [(b0 & Hb0 & Hv0) _]].
      rewrite (occupied_cache_insert _ _ blocks) by exact Hset.
      rewrite (occupied_insert _ _ b0) by exact Hb0.
      rewrite Hv0. simpl. lia.
    + destruct Hok as (_ & Hall & _ & b0 & Hb0 & _).
      rewrite (occupied_cache_insert _ _ blocks) by exact Hset.
      rewrite (occupied_insert _ _ b0) by exact Hb0.
      rewrite (Hall _ _ Hb0). simpl. lia.
Qed.

(** ** What a call leaves alone *)

Lemma store_block_frame c si k f c' :
  store_block c si k f = Some c' ->
  (forall b, Valid b = true -> Valid (f b) = true) ->
  length c' = length c /\
  forall i j blocks b,
    c !! i = Some blocks -> blocks !! j = Some b ->
    exists blocks1 b1,
      c' !! i = Some blocks1 /\ length blocks1 = length blocks /\
      blocks1 !! j = Some b1 /\
      (Valid b = true -> Valid b1 = true) /\
      (i <> si \/ j <> k -> b1 = b).
Proof.
  unfold store_block. intros Hst Hf.
  destruct (c !! si) as [blocks0|] eqn:Hsi; [|discriminate]. simpl in Hst.
  destruct (blocks0 !! k) as [b0|] eqn:Hk; [|discriminate]. simpl in Hst.
  injection Hst as <-. split; [apply length_insert|].
  intros i j blocks b Hi Hj.
  destruct (decide (i = si)) as [->|Hne].
  - assert (blocks = blocks0) by congruence. subst blocks0.
    exists (<[k := f b0]> blocks).
    rewrite list_lookup_insert_eq by (eapply lookup_lt_Some, Hsi).
    destruct (decide (j = k)) as [->|Hnk].
    + assert (b = b0) by congruence. subst b0.
      exists (f b). rewrite list_lookup_insert_eq by (eapply lookup_lt_Some, Hj).
      rewrite length_insert. repeat split; auto. intros [?|?]; congruence.
    + exists b. rewrite list_lookup_insert_ne by congruence.
      rewrite length_insert. repeat split; auto.
  - exists blocks, b. rewrite list_lookup_insert_ne by congruence.
    repeat split; auto.
Qed.

(** X3.  A call of [access_data] changes at most one line, and that
    line lies in the set the address selects: every other line of the
    cache is as before, no array changes its size, and a valid line
    never becomes invalid. *)
Theorem access_changes_one_line p st a st1 :
  access_data p st a = Some st1 ->
  length (currCache st1) = length (currCache st) /\
  exists k,
    forall i j blocks b,
      currCache st !! i = Some blocks -> blocks !! j = Some b ->
      exists blocks1 b1,
        currCache st1 !! i = Some blocks1 /\ length blocks1 = length blocks /\
        blocks1 !! j = Some b1 /\
        (Valid b = true -> Valid b1 = true) /\
        (i <> Z.to_nat (set_index p a) \/ j <> k -> b1 = b).
Proof.
  intros Hacc.
  assert (Hsame : forall c : list (list Block),
             length c = length c /\
             exists k : nat,
               forall i j blocks b,
                 c !! i = Some blocks -> blocks !! j = Some b ->
                 exists blocks1 b1,
                   c !! i = Some blocks1 /\ length blocks1 = length blocks /\
                   blocks1 !! j = Some b1 /\
                   (Valid b = true -> Valid b1 = true) /\
                   (i <> Z.to_nat (set_index p a) \/ j <> k -> b1 = b)).
  { intros c. split; [reflexivity|]. exists 0%nat.
    intros i j blocks b Hi Hj. exists blocks, b. repeat split; auto. }
  inv_access Hacc; cbn [currCache];
    try (match goal with
         | H : store_block _ _ ?k ?f = Some _ |- _ =>
             assert (Hf : forall b0, Valid b0 = true -> Valid (f b0) = true)
               by (intros b0 Hb0; first [reflexivity | exact Hb0]);
             destruct (store_block_frame _ _ _ _ _ H Hf) as [Hlen Hframe];
             split; [exact Hlen|]; exists k; exact Hframe
         end).
  apply Hsame.
Qed.

(** ** Stamps are never shared *)

Lemma distinct_stamps_update (c : list (list Block)) cnt si k blocks nb :
  distinct_stamps c ->
  (forall i bl j b, c !! i = Some bl -> bl !! j = Some b ->
                    Valid b = true -> trackID b < cnt) ->
  c !! si = Some blocks -> trackID nb = cnt ->
  distinct_stamps (<[si := <[k := nb]> blocks]> c).
Proof.
  intros Hd Hlt Hsi Hnb i j i' j' bl b bl' b' Hi Hj Hi' Hj' Hv Hv' Heq.
  pose proof (lookup_update c si k blocks nb i bl j b Hsi Hi Hj) as L.
  pose proof (lookup_update c si k blocks nb i' bl' j' b' Hsi Hi' Hj') as L'.
  destruct L as [(-> & -> & -> & _)|(bl0 & Hi0 & Hj0 & _)];
    destruct L' as [(-> & -> & -> & _)|(bl1 & Hi1 & Hj1 & _)].
  - split; reflexivity.
  - specialize (Hlt _ _ _ _ Hi1 Hj1 Hv'). lia.
  - specialize (Hlt _ _ _ _ Hi0 Hj0 Hv). lia.
  - exact (Hd _ _ _ _ _ _ _ _ Hi0 Hj0 Hi1 Hj1 Hv Hv' Heq).
Qed.

(** X4.  In every state of a run the valid lines of the cache carry
    pairwise different stamps.  So the line of least stamp in a set of
    valid lines is the only one with that stamp: the order of the lines
    never decides which one is evicted. *)
Theorem stamps_are_never_shared p st :
  valid_params p -> reachable p st ->
  distinct_stamps (currCache st) /\
  forall i blocks v bv,
    currCache st !! i = Some blocks -> forallb Valid blocks = true ->
    first_min blocks v -> blocks !! v = Some bv ->
    forall j b, j <> v -> blocks !! j = Some b -> trackID bv < trackID b.
Proof.
  intros Hp Hreach.
  assert (Hd : distinct_stamps (currCache st)).
  { revert st Hreach. apply (reachable_induction p); [exact Hp| |].
    - intros heap i j i' j' bl b bl' b' Hi Hj _ _ Hv.
      simpl in Hi. rewrite (allocate_cache_lookup p heap i bl j b Hi Hj) in Hv.
      discriminate.
    - intros st a st1 HI HP Hacc _.
      assert (Hlt : forall i bl j b,
                 currCache st !! i = Some bl -> bl !! j = Some b ->
                 Valid b = true -> trackID b < count st).
      { intros i bl j b Hi Hj Hv.
        destruct HI as ((_ & Hst & _) & _). apply (Hst i bl j b Hi Hj Hv). }
      destruct (access_data_inv p st a st1 Hp HI Hacc)
        as (blocks & Hset & HK &
            [(h & b & Hok & ->)|[(e & Hok & ->)|(v & Hok & ->)]]);
        cbn [tick hit_state miss_state evict_state currCache].
      + destruct (policy p); [exact HP|].
        apply (distinct_stamps_update _ (count st)); auto.
      + apply (distinct_stamps_update _ (count st)); auto.
      + apply (distinct_stamps_update _ (count st)); auto. }
  split; [exact Hd|].
  intros i blocks v bv Hi Hall (bv' & Hv & Hmin & _) Hbv j b Hne Hj.
  assert (bv' = bv) by congruence. subst bv'.
  apply all_valid_forallb in Hall.
  specialize (Hmin j b Hj).
  destruct (Z.eq_dec (trackID bv) (trackID b)) as [Heq|]; [|lia].
  destruct (Hd i v i j blocks bv blocks b Hi Hv Hi Hj
              (Hall _ _ Hv) (Hall _ _ Hj) Heq) as [_ ?].
  congruence.
Qed.

(** ** Address decoding *)

Lemma valid_params_logs p :
  valid_params p ->
  exists s b, 0 <= s <= 30 /\ 0 <= b <= 30 /\
    num_S p = 2 ^ s /\ num_B p = 2 ^ b /\
    INT_LOG2 (num_S p) = s /\ INT_LOG2 (num_B p) = b.
Proof.
  intros ([s [Hs HS]] & [b [Hb HB]] & _). exists s, b.
  rewrite HS, HB, !INT_LOG2_pow2 by lia. repeat split; lia.
Qed.

(** X5.  The offset bits of an address play no part: two addresses in
    the same line of [B] bytes select the same set and have the same
    tag, and [access_data] does the same for both. *)
Theorem same_line_same_access p st a a' :
  valid_params p -> line_of p a = line_of p a' ->
  set_index p a = set_index p a' /\
  tag_bits p a = tag_bits p a' /\
  access_data p st a = access_data p st a'.
Proof.
  intros Hp Hline.
  destruct (valid_params_logs p Hp) as (s & b & Hs & Hb & _ & _ & HlS & HlB).
  assert (Hset : set_index p a = set_index p a').
  { unfold set_index. unfold line_of in Hline. rewrite Hline. reflexivity. }
  assert (Htag : tag_bits p a = tag_bits p a').
  { unfold tag_bits. unfold line_of in Hline.
    rewrite (Z.add_comm (INT_LOG2 (num_S p))), <- !Z.shiftr_shiftr by lia.
    rewrite Hline. reflexivity. }
  split; [exact Hset|]. split; [exact Htag|].
  unfold access_data. rewrite Hset, Htag. reflexivity.
Qed.

Lemma wrap64_to_long x : 0 <= x < 2 ^ 64 -> wrap64 (to_long x) = x.
Proof.
  intros Hx. unfold wrap64, to_long. destruct (x <? 2 ^ 63).
  - apply Z.mod_small. lia.
  - replace (x - 2 ^ 64) with (x + (-1) * 2 ^ 64) by lia.
    rewrite Z.mod_add by lia. apply Z.mod_small. lia.
Qed.

(** X6.  Decoding loses nothing but the offset: the line of an address
    is its tag (read as an unsigned value) times [S] plus its set index,
    and the set index is below [S].  So two addresses with the same set
    index and the same tag lie in the same line. *)
Theorem decoding_splits_the_line p a :
  valid_params p -> 0 <= a < 2 ^ 64 ->
  0 <= set_index p a < num_S p /\
  line_of p a = wrap64 (tag_bits p a) * num_S p + set_index p a /\
  forall a', 0 <= a' < 2 ^ 64 ->
             set_index p a' = set_index p a -> tag_bits p a' = tag_bits p a ->
             line_of p a' = line_of p a.
Proof.
  intros Hp Ha.
  assert (Hsplit : forall x, 0 <= x < 2 ^ 64 ->
            line_of p x = wrap64 (tag_bits p x) * num_S p + set_index p x).
  { intros x Hx.
    destruct (valid_params_logs p Hp) as (s & b & Hs & Hb & HS & HB & HlS & HlB).
    unfold line_of, tag_bits, set_index, set_mask.
    rewrite (Z.add_comm (INT_LOG2 (num_S p))), <- Z.shiftr_shiftr by lia.
    rewrite HlS, HlB, HS, mask_pow2, Z.land_ones by lia.
    rewrite !Z.shiftr_div_pow2 by lia.
    assert (0 < 2 ^ s) by (apply Z.pow_pos_nonneg; lia).
    assert (0 < 2 ^ b) by (apply Z.pow_pos_nonneg; lia).
    assert (2 ^ s <= 2 ^ 30) by (apply Z.pow_le_mono_r; lia).
    assert (0 <= x / 2 ^ b <= x).
    { split; [apply Z.div_pos; lia|].
      apply Z.div_le_upper_bound; [lia|]. nia. }
    assert (0 <= x / 2 ^ b / 2 ^ s <= x / 2 ^ b).
    { split; [apply Z.div_pos; lia|].
      apply Z.div_le_upper_bound; [lia|]. nia. }
    pose proof (Z.mod_pos_bound (x / 2 ^ b) (2 ^ s)).
    change (2 ^ 30) with 1073741824 in *.
    rewrite wrap64_to_long by lia.
    rewrite to_long_small
      by (change (2 ^ 63) with 9223372036854775808; lia).
    pose proof (Z.div_mod (x / 2 ^ b) (2 ^ s)). lia. }
  split; [apply set_index_range, Hp|]. split; [apply Hsplit, Ha|].
  intros a' Ha' Hset Htag. rewrite (Hsplit a' Ha'), (Hsplit a Ha).
  rewrite Hset, Htag. reflexivity.
Qed.

(** ** LRU keeps the line used last *)

(** Under LRU every call stamps the line it uses with the clock. *)
Lemma lru_access_stamps p st a st1 :
  valid_params p -> policy p = LRU -> Inv p st ->
  access_data p st a = Some st1 ->
  exists blocks k nb,
    currCache st !! Z.to_nat (set_index p a) = Some blocks /\
    length blocks = Z.to_nat (num_K p) /\
    (k < length blocks)%nat /\
    Valid nb = true /\ tag nb = tag_bits p a /\ trackID nb = count st /\
    currCache st1
    = <[Z.to_nat (set_index p a) := <[k := nb]> blocks]> (currCache st).
Proof.
  intros Hp Hpol HI Hacc.
  destruct (access_data_inv p st a st1 Hp HI Hacc)
    as (blocks & Hset & HK &
        [(h & b & Hok & ->)|[(e & Hok & ->)|(v & Hok & ->)]]);
    exists blocks.
  - destruct Hok as [[(b' & Hb' & Hm) _] Hb].
    assert (b' = b) by congruence. subst b'.
    apply matches_true in Hm as [Ht Hv].
    exists h, (stamp (count st) b). unfold hit_state. rewrite Hpol.
    repeat split; auto. eapply lookup_lt_Some, Hb.
  - destruct Hok as [_ [(b0 & Hb0 & _) _]].
    exists e, (mkBlock true (tag_bits p a) (count st)).
    repeat split; auto. eapply lookup_lt_Some, Hb0.
  - destruct Hok as (_ & _ & _ & b0 & Hb0 & _).
    exists v, (mkBlock true (tag_bits p a) (count st)).
    repeat split; auto. eapply lookup_lt_Some, Hb0.
Qed.

(** X7.  Under LRU, with at least two lines per set, the line used by a
    call is not the victim of the next call: after calls for [a] and then
    for [b], which select the same set and have different tags, the set
    holds both tags. *)
Theorem lru_keeps_most_recent p st a b :
  valid_params p -> policy p = LRU -> 2 <= num_K p ->
  reachable p st -> count st + 1 < INT_MAX ->
  set_index p b = set_index p a -> tag_bits p b <> tag_bits p a ->
  exists st' blocks,
    run_calls p st [a; b] = Some st' /\
    currCache st' !! Z.to_nat (set_index p a) = Some blocks /\
    holds_tag blocks (tag_bits p a) = true /\
    holds_tag blocks (tag_bits p b) = true.
Proof.
  intros Hp Hpol HK2 Hreach Hlt Hsame Htags.
  pose proof (reachable_Inv p st Hp Hreach) as HI.
  destruct (access_data_defined p st a Hp HI) as [st1 Hacc]; [lia|].
  pose proof (access_data_count _ _ _ _ Hacc) as Hc1.
  assert (Hinc : count_incr st1 = Some (tick st1))
    by (apply count_incr_Some; split; [lia|reflexivity]).
  pose proof (step_Inv p st a st1 _ Hp HI Hacc Hinc) as HI2.
  destruct (lru_access_stamps p st a st1 Hp Hpol HI Hacc)
    as (blocks & k & nb & Hset & HK & Hk & Hv & Ht & Hs & Hcache).
  destruct (access_data_defined p (tick st1) b Hp HI2) as [st3 Hacc3];
    [simpl; lia|].
  pose proof (access_data_count _ _ _ _ Hacc3) as Hc3. simpl in Hc3.
  exists (tick st3).
  assert (Hset2 : currCache (tick st1) !! Z.to_nat (set_index p b)
                  = Some (<[k := nb]> blocks)).
  { simpl. rewrite Hcache, Hsame. apply update_lookup_same, Hset. }
  assert (Hnb : <[k := nb]> blocks !! k = Some nb)
    by (apply list_lookup_insert_eq, Hk).
  assert (Hnomatch : matches (tag_bits p b) nb = false).
  { unfold matches. rewrite Ht.
    destruct (Z.eqb_spec (tag_bits p a) (tag_bits p b)); [congruence|done]. }
  (* the line at [k] survives the second call *)
  assert (Hkeep : exists x nb',
             x <> k /\
             (currCache st3 = currCache (tick st1) \/
              currCache st3
              = <[Z.to_nat (set_index p b) := <[x := nb']> (<[k := nb]> blocks)]>
                  (currCache (tick st1)))).
  { destruct (access_data_inv p (tick st1) b st3 Hp HI2 Hacc3)
      as (blocks2 & Hset2' & HKb &
          [(h & b' & Hok & ->)|[(e & Hok & ->)|(v & Hok & ->)]]);
      assert (blocks2 = <[k := nb]> blocks) by congruence; subst blocks2.
    - destruct Hok as [[(b'' & Hb'' & Hm) _] Hb].
      exists h, (stamp (count (tick st1)) b'). split; [|right; unfold hit_state; rewrite Hpol; reflexivity].
      intros ->. congruence.
    - destruct Hok as [_ [(b0 & Hb0 & Hv0) _]].
      exists e, (mkBlock true (tag_bits p b) (count (tick st1))).
      split; [|right; reflexivity]. intros ->. congruence.
    - destruct Hok as (_ & Hall & (bv & Hbv & Hmin & _) & _).
      exists v, (mkBlock true (tag_bits p b) (count (tick st1))).
      split; [|right; reflexivity]. intros ->.
      assert (bv = nb) by congruence. subst bv.
      (* another line of the set has an older stamp *)
      assert (exists j, j <> k /\ (j < length blocks)%nat) as (j & Hjk & Hj).
      { destruct k as [|k]; [exists 1%nat|exists 0%nat]; split; lia. }
      destruct (lookup_lt_is_Some_2 blocks j Hj) as [bj Hbj].
      assert (Hbj' : <[k := nb]> blocks !! j = Some bj)
        by (rewrite list_lookup_insert_ne by congruence; exact Hbj).
      specialize (Hmin j bj Hbj').
      destruct HI as ((_ & Hst & _) & _).
      specialize (Hst _ blocks j bj Hset Hbj (Hall _ _ Hbj')). lia. }
  destruct Hkeep as (x & nb' & Hx & Hcache3).
  assert (Hlook : exists blocks3,
             currCache (tick st3) !! Z.to_nat (set_index p a) = Some blocks3 /\
             blocks3 !! k = Some nb).
  { simpl. rewrite <- Hsame. destruct Hcache3 as [->| ->].
    - eauto.
    - eexists. split; [apply update_lookup_same, Hset2|].
      rewrite list_lookup_insert_ne by congruence. exact Hnb. }
  destruct Hlook as (blocks3 & Hb3 & Hk3).
  exists blocks3. split; [|split; [exact Hb3|split]].
  - apply (run_calls_two p st a b st1 st3); auto; lia.
  - apply (holds_tag_lookup _ _ k nb); [exact Hk3|].
    apply matches_true. auto.
  - destruct (access_data_holds_tag p (tick st1) b st3 _ Hset2)
      as (blocks3' & Hb3' & _ & Hhold); [|exact Hacc3|].
    + rewrite length_insert. exact HK.
    + simpl in Hb3. rewrite <- Hsame in Hb3.
      assert (blocks3' = blocks3) by congruence. subst. exact Hhold.
Qed.

(** ** What [malloc] left in the lines does not matter *)

Lemma same_line_matches t b1 b2 :
  same_line b1 b2 -> matches t b1 = matches t b2.
Proof.
  intros [Hv Heq]. destruct (Valid b1) eqn:Hv1.
  - rewrite (Heq eq_refl). reflexivity.
  - unfold matches. rewrite <- Hv, Hv1, !andb_false_r. reflexivity.
Qed.

Lemma same_line_all_valid bl1 bl2 :
  Forall2 same_line bl1 bl2 -> all_valid bl1 -> bl1 = bl2.
Proof.
  induction 1 as [|b1 b2 bl1 bl2 [_ Heq] _ IH]; intros Hall; [reflexivity|].
  f_equal.
  - apply Heq, (Hall 0%nat b1 eq_refl).
  - apply IH. intros j b Hj. apply (Hall (S j) b Hj).
Qed.

Lemma same_line_outcome bl1 bl2 t o :
  Forall2 same_line bl1 bl2 -> outcome_ok bl1 t o -> outcome_ok bl2 t o.
Proof.
  intros HF.
  assert (Hno : no_match bl1 t -> no_match bl2 t).
  { intros Hno j b2 Hj.
    destruct (Forall2_lookup_r _ _ _ _ _ HF Hj) as (b1 & Hj1 & Hs).
    rewrite <- (same_line_matches t b1 b2 Hs). eauto. }
  destruct o as [h b|e|v|]; cbn [outcome_ok].
  - intros [[(b' & Hb' & Hm) Hpre] Hb].
    assert (b' = b) by congruence. subst b'.
    destruct (Forall2_lookup_l _ _ _ _ _ HF Hb) as (b2 & Hb2 & Hs).
    pose proof Hm as Hm'. apply matches_true in Hm' as [_ Hv].
    destruct Hs as [_ Heq]. rewrite <- (Heq Hv) in Hb2.
    split; [split|exact Hb2].
    + eauto.
    + intros j bj Hj Hbj.
      destruct (Forall2_lookup_r _ _ _ _ _ HF Hbj) as (b1 & Hj1 & Hs).
      rewrite <- (same_line_matches t b1 bj Hs). eauto.
  - intros [Hn [(b & Hb & Hv) Hpre]]. split; [auto|]. split.
    + destruct (Forall2_lookup_l _ _ _ _ _ HF Hb) as (b2 & Hb2 & [Hs _]).
      exists b2. split; [exact Hb2|congruence].
    + intros j bj Hj Hbj.
      destruct (Forall2_lookup_r _ _ _ _ _ HF Hbj) as (b1 & Hj1 & [Hs _]).
      rewrite <- Hs. eauto.
  - intros (Hn & Hall & Hrest).
    rewrite <- (same_line_all_valid bl1 bl2 HF Hall). auto.
  - intros (Hn & Hall & Hrest).
    rewrite <- (same_line_all_valid bl1 bl2 HF Hall). auto.
Qed.

Lemma same_results_step p st1 st2 a st1' :
  valid_params p -> Inv p st1 -> Inv p st2 -> same_results st1 st2 ->
  access_data p st1 a = Some st1' ->
  exists st2', access_data p st2 a = Some st2' /\ same_results st1' st2'.
Proof.
  intros Hp HI1 HI2 (HF & Hm & Hh & He & Hc) Hacc.
  destruct (addressed_set p (currCache st1) a Hp (proj1 (proj1 HI1)))
    as (bl1 & Hset1 & HK1).
  destruct (Forall2_lookup_l _ _ _ _ _ HF Hset1) as (bl2 & Hset2 & HFb).
  assert (HK2 : length bl2 = Z.to_nat (num_K p))
    by (rewrite <- (Forall2_length _ _ _ HFb); exact HK1).
  destruct (access_data_outcome p st1 a bl1 Hset1 HK1) as (o & Hok & Hres).
  rewrite Hacc in Hres.
  rewrite (access_data_by_outcome p st2 a bl2 o Hset2 HK2
             (same_line_outcome _ _ _ _ HFb Hok)).
  assert (Hins : forall k nb,
             Forall2 (Forall2 same_line)
               (<[Z.to_nat (set_index p a) := <[k := nb]> bl1]> (currCache st1))
               (<[Z.to_nat (set_index p a) := <[k := nb]> bl2]> (currCache st2))).
  { intros k nb. apply Forall2_insert; [exact HF|].
    apply Forall2_insert; [exact HFb|]. split; auto. }
  destruct o as [h b|e|v|]; cbn [outcome_result] in *.
  - rewrite <- Hh. destruct (hit_count st1 <? INT_MAX); [|discriminate].
    injection Hres as ->. eexists. split; [reflexivity|].
    unfold same_results, hit_state; cbn [currCache miss_count hit_count
      eviction_count count].
    rewrite Hm, Hh, He, Hc. split; [|auto].
    destruct (policy p); [exact HF|]. rewrite <- Hc. apply Hins.
  - rewrite <- Hm. destruct (miss_count st1 <? INT_MAX); [|discriminate].
    injection Hres as ->. eexists. split; [reflexivity|].
    unfold same_results, miss_state; cbn [currCache miss_count hit_count
      eviction_count count].
    rewrite <- Hm, <- Hh, <- He, <- Hc. split; [apply Hins|auto].
  - rewrite <- Hm, <- He. destruct (_ && _); [|discriminate].
    injection Hres as ->. eexists. split; [reflexivity|].
    unfold same_results, evict_state; cbn [currCache miss_count hit_count
      eviction_count count].
    rewrite <- Hm, <- Hh, <- He, <- Hc. split; [apply Hins|auto].
  - discriminate.
Qed.

Lemma same_results_run p : forall addrs st1 st2 st1',
  valid_params p -> Inv p st1 -> Inv p st2 -> same_results st1 st2 ->
  run_calls p st1 addrs = Some st1' ->
  exists st2', run_calls p st2 addrs = Some st2' /\ same_results st1' st2'.
Proof.
  induction addrs as [|a rest IH]; intros st1 st2 st1' Hp HI1 HI2 Hs Hrun.
  - injection Hrun as <-. exists st2. split; [reflexivity|exact Hs].
  - unfold run_calls in *; fold run_calls in *.
    destruct (access_data p st1 a) as [x1|] eqn:Hacc; [|discriminate].
    cbn [mbind option_bind] in Hrun.
    destruct (count_incr x1) as [y1|] eqn:Hinc; [|discriminate].
    cbn [mbind option_bind] in Hrun.
    destruct (same_results_step p st1 st2 a x1 Hp HI1 HI2 Hs Hacc)
      as (x2 & Hacc2 & (HF & Hm & Hh & He & Hc)).
    rewrite Hacc2. cbn [mbind option_bind].
    pose proof Hinc as Hinc'. apply count_incr_Some in Hinc' as [Hlt ->].
    assert (Hinc2 : count_incr x2 = Some (tick x2))
      by (apply count_incr_Some; split; [lia|reflexivity]).
    rewrite Hinc2. cbn [mbind option_bind].
    apply (IH (tick x1) (tick x2)); [exact Hp| | | |exact Hrun].
    + exact (step_Inv p st1 a x1 (tick x1) Hp HI1 Hacc Hinc).
    + exact (step_Inv p st2 a x2 (tick x2) Hp HI2 Hacc2 Hinc2).
    + unfold same_results; cbn [tick currCache miss_count hit_count
        eviction_count count]. rewrite Hc. auto.
Qed.

Lemma same_results_initial p heap1 heap2 :
  same_results (initial_state p heap1) (initial_state p heap2).
Proof.
  unfold same_results, initial_state; cbn [currCache miss_count hit_count
    eviction_count count].
  split; [|auto].
  apply Forall2_same_length_lookup. split.
  - rewrite (proj1 (allocate_cache_shape p heap1)),
      (proj1 (allocate_cache_shape p heap2)). reflexivity.
  - intros i bl1 bl2 H1 H2.
    apply Forall2_same_length_lookup. split.
    + rewrite (proj2 (allocate_cache_shape p heap1) _ _ H1),
        (proj2 (allocate_cache_shape p heap2) _ _ H2). reflexivity.
    + intros j b1 b2 Hb1 Hb2.
      pose proof (allocate_cache_lookup p heap1 _ _ _ _ H1 Hb1) as Hv1.
      pose proof (allocate_cache_lookup p heap2 _ _ _ _ H2 Hb2) as Hv2.
      split; congruence.
Qed.

(** X8.  The contents of the memory that [malloc] returns have no
    influence: two runs over the same addresses, started from caches
    allocated in different memory, are both defined or both undefined,
    end with the same counters, and their caches differ at most in
    invalid lines. *)
Theorem heap_contents_do_not_matter p heap1 heap2 addrs st1 :
  valid_params p ->
  run_calls p (initial_state p heap1) addrs = Some st1 ->
  exists st2,
    run_calls p (initial_state p heap2) addrs = Some st2 /\
    same_results st1 st2.
Proof.
  intros Hp Hrun.
  apply (same_results_run p addrs (initial_state p heap1));
    auto using Inv_initial, same_results_initial.
Qed.

Lemma heap_contents_witness :
  exists st2,
    run_calls one_line_lru (initial_state one_line_lru zeroed_heap) [0; 32]
      = Some st2 /\
    same_results (mkState [[mkBlock true 2 1]] 2 0 1 2) st2.
Proof.
  apply (heap_contents_do_not_matter one_line_lru stale_heap zeroed_heap
           [0; 32]).
  - exact one_line_lru_valid.
  - vm_compute. reflexivity.
Defined.

(** X13.  What the program prints does not depend on the memory that
    [malloc] returned for the cache: [allocate_cache] initialises only
    the valid flags, and the tags and stamps it leaves uninitialised are
    never looked at before they are written. *)
Theorem summary_ignores_uninitialised_memory p heap1 heap2 trace :
  valid_params p -> main p heap1 trace = main p heap2 trace.
Proof.
  intros Hp. unfold main. rewrite !replay_trace_calls.
  destruct (run_calls p (initial_state p heap1) (trace_calls p trace))
    as [st1|] eqn:H1.
  - destruct (same_results_run p _ _ (initial_state p heap2) st1 Hp
                (Inv_initial p heap1) (Inv_initial p heap2)
                (same_results_initial p heap1 heap2) H1)
      as (st2 & -> & _ & Hm & Hh & He & _).
    cbn [mbind option_bind]. rewrite Hm, Hh, He. reflexivity.
  - destruct (run_calls p (initial_state p heap2) (trace_calls p trace))
      as [st2|] eqn:H2; [|reflexivity].
    destruct (same_results_run p _ _ (initial_state p heap1) st2 Hp
                (Inv_initial p heap2) (Inv_initial p heap1)
                (same_results_initial p heap2 heap1) H2)
      as (st1 & Hrun & _).
    congruence.
Qed.

Lemma summary_ignores_memory_witness :
  main one_line_lru stale_heap two_loads =
  main one_line_lru zeroed_heap two_loads.
Proof.
  apply (summary_ignores_uninitialised_memory one_line_lru stale_heap
           zeroed_heap two_loads).
  exact one_line_lru_valid.
Defined.

(** ** Hits come from earlier calls *)

Lemma store_block_lines c si k f c' i bl j b :
  store_block c si k f = Some c' ->
  c' !! i = Some bl -> bl !! j = Some b ->
  (i = si /\ exists bl0 b0, c !! si = Some bl0 /\ bl0 !! k = Some b0 /\
                            b = f b0) \/
  (exists bl0, c !! i = Some bl0 /\ bl0 !! j = Some b).
Proof.
  unfold store_block. intros Hst Hi Hj.
  destruct (c !! si) as [blocks|] eqn:Hsi; [|discriminate]. simpl in Hst.
  destruct (blocks !! k) as [b0|] eqn:Hk; [|discriminate]. simpl in Hst.
  injection Hst as <-.
  destruct (lookup_update c si k blocks (f b0) i bl j b Hsi Hi Hj)
    as [(-> & -> & -> & _)|(bl0 & Hi0 & Hj0 & _)]; [left|right; eauto].
  split; [reflexivity|]. exists blocks, b0. auto.
Qed.

Lemma lines_from_more p addrs addrs' c :
  lines_from p addrs c -> (forall a, In a addrs -> In a addrs') ->
  lines_from p addrs' c.
Proof.
  intros Hl Hin i blocks j b Hi Hj Hv.
  destruct (Hl i blocks j b Hi Hj Hv) as (a & Ha & Hrest). eauto.
Qed.

Lemma lines_from_step p hist st a st1 :
  lines_from p hist (currCache st) -> access_data p st a = Some st1 ->
  lines_from p (hist ++ [a]) (currCache st1).
Proof.
  intros Hl Hacc.
  assert (Hold : lines_from p (hist ++ [a]) (currCache st))
    by (apply (lines_from_more p hist); [exact Hl|intros; apply in_app_iff; auto]).
  inv_access Hacc; cbn [currCache];
    try (match goal with
         | H : store_block _ _ _ _ = Some _ |- _ =>
             intros i bl j b Hi Hj Hv;
             destruct (store_block_lines _ _ _ _ _ _ _ _ _ H Hi Hj)
               as [(-> & bl0 & b0 & Hsi & Hk & ->)|(bl0 & Hi0 & Hj0)];
             [|exact (Hold _ _ _ _ Hi0 Hj0 Hv)];
             first [ exact (Hold _ _ _ _ Hsi Hk Hv)
                   | exists a; split;
                     [apply in_app_iff; right; left; reflexivity|auto] ]
         end).
  exact Hold.
Qed.

Lemma lines_from_run p : forall addrs hist st st',
  lines_from p hist (currCache st) -> run_calls p st addrs = Some st' ->
  lines_from p (hist ++ addrs) (currCache st').
Proof.
  induction addrs as [|a rest IH]; intros hist st st' Hl Hrun.
  - injection Hrun as <-. rewrite app_nil_r. exact Hl.
  - unfold run_calls in Hrun; fold run_calls in Hrun.
    destruct (access_data p st a) as [st1|] eqn:Hacc; [|discriminate].
    cbn [mbind option_bind] in Hrun.
    destruct (count_incr st1) as [st2|] eqn:Hinc; [|discriminate].
    cbn [mbind option_bind] in Hrun.
    apply count_incr_Some in Hinc as [_ ->].
    replace (hist ++ a :: rest) with ((hist ++ [a]) ++ rest)
      by (rewrite <- app_assoc; reflexivity).
    apply (IH (hist ++ [a]) (tick st1) st'); [|exact Hrun].
    exact (lines_from_step p hist st a st1 Hl Hacc).
Qed.

(** X9.  The cache holds nothing but what was asked for: after a run
    from the freshly allocated cache, every valid line holds the set and
    the tag of an address of an earlier call.  So a call for a set and a
    tag that no earlier call had is a miss. *)
Theorem hits_come_from_earlier_calls p heap addrs st :
  valid_params p ->
  run_calls p (initial_state p heap) addrs = Some st ->
  lines_from p addrs (currCache st) /\
  forall a st1,
    (forall a', In a' addrs ->
                ~ (set_index p a' = set_index p a /\
                   tag_bits p a' = tag_bits p a)) ->
    access_data p st a = Some st1 ->
    counts_miss st st1 \/ counts_miss_eviction st st1.
Proof.
  intros Hp Hrun.
  assert (Hl : lines_from p addrs (currCache st)).
  { apply (lines_from_run p addrs [] (initial_state p heap)); [|exact Hrun].
    intros i blocks j b Hi Hj Hv. simpl in Hi.
    rewrite (allocate_cache_lookup p heap i blocks j b Hi Hj) in Hv.
    discriminate. }
  split; [exact Hl|].
  intros a st1 Hnew Hacc.
  pose proof (run_calls_Inv p addrs _ _ Hp (Inv_initial p heap) Hrun) as HI.
  destruct (addressed_set p (currCache st) a Hp (proj1 (proj1 HI)))
    as (blocks & Hset & HK).
  apply (access_data_missing p st a blocks st1 Hset HK); [|exact Hacc].
  apply no_match_holds_tag. intros j b Hj.
  destruct (matches (tag_bits p a) b) eqn:Hm; [|reflexivity].
  apply matches_true in Hm as [Ht Hv].
  destruct (Hl _ _ _ _ Hset Hj Hv) as (a' & Hin & Hsi & Htag).
  exfalso. apply (Hnew a' Hin). split; [|congruence].
  pose proof (set_index_range p a Hp). pose proof (set_index_range p a' Hp).
  lia.
Qed.

(** * More on the replayer *)

(** ** The calls of a record *)

Lemma pass_calls_sublist p mask val : forall n i prev,
  pass_calls p mask val n i prev
    `sublist_of` map (fun k => wrap64 (val + k)) (seqZ i (Z.of_nat n)).
Proof.
  induction n as [|n IH]; intros i prev.
  - apply sublist_nil_l.
  - rewrite seqZ_cons by lia.
    replace (Z.pred (Z.of_nat (S n))) with (Z.of_nat n) by lia.
    cbn [pass_calls map]. destruct (negb _).
    + apply sublist_skip. apply IH.
    + apply sublist_cons. apply IH.
Qed.

Lemma seqZ_to_nat m n : seqZ m (Z.of_nat (Z.to_nat n)) = seqZ m n.
Proof. unfold seqZ. rewrite Nat2Z.id. reflexivity. Qed.

(** X11.  The calls that [replay_trace] makes for a record are for
    bytes of the record, in increasing order and none twice: each loop
    calls [access_data] for a subsequence of the byte addresses
    [value, value+1, ..., value+len-1], so at most [len] times; for a
    record of length 0 there is no call and the state is left as it is;
    for a longer one the first call of each loop is for the first
    byte. *)
Theorem calls_are_bytes_of_the_record p r :
  read_calls p r `sublist_of` span_bytes r /\
  write_calls p r `sublist_of` span_bytes r /\
  (length (read_calls p r) <= Z.to_nat (len r))%nat /\
  (len r = 0 -> forall st, replay_access p st r = Some st) /\
  (valid_params p -> 0 < len r ->
   (exists rest, read_calls p r = wrap64 (value r) :: rest) /\
   (operation r = "M"%char ->
    exists rest, write_calls p r = wrap64 (value r) :: rest)).
Proof.
  assert (Hsub : forall mask,
             pass_calls p mask (value r) (Z.to_nat (len r)) 0 (-1)
               `sublist_of` span_bytes r).
  { intros mask. unfold span_bytes. rewrite <- (seqZ_to_nat 0 (len r)).
    apply pass_calls_sublist. }
  assert (Hfirst : forall mask,
             0 <= to_long (Z.land (Z.shiftr (wrap64 (value r))
                                            (INT_LOG2 (num_B p))) mask) ->
             0 < len r ->
             exists rest,
               pass_calls p mask (value r) (Z.to_nat (len r)) 0 (-1)
               = wrap64 (value r) :: rest).
  { intros mask Hnn Hlen.
    destruct (Z.to_nat (len r)) as [|n] eqn:Hn; [lia|].
    cbn [pass_calls]. rewrite Z.add_0_r.
    destruct (Z.eqb_spec (-1)
                (to_long (Z.land (Z.shiftr (wrap64 (value r))
                                           (INT_LOG2 (num_B p))) mask)));
      [lia|].
    cbn [negb]. eauto. }
  split; [apply Hsub|]. split.
  { unfold write_calls. destruct (Ascii.eqb _ _); [apply Hsub|].
    apply sublist_nil_l. }
  split.
  { pose proof (sublist_length _ _ (pass_calls_sublist p (first_mask p)
                  (value r) (Z.to_nat (len r)) 0 (-1))) as Hle.
    rewrite length_map, length_seqZ in Hle. unfold read_calls. lia. }
  split.
  { intros Hz st. unfold replay_access. rewrite Hz. simpl.
    destruct (Ascii.eqb _ _); reflexivity. }
  intros Hp Hlen. split.
  - apply Hfirst; [|exact Hlen]. exact (proj1 (masked_nonneg p _ Hp)).
  - intros Hop. unfold write_calls. rewrite Hop. cbn [Ascii.eqb Bool.eqb].
    apply Hfirst; [|exact Hlen]. exact (proj2 (masked_nonneg p _ Hp)).
Qed.

(** ** A direct-mapped cache has no use for a policy *)

Lemma one_line_outcome_ok t b :
  (Valid b = true -> trackID b < INT_MAX) ->
  outcome_ok [b] t (one_line_outcome t b).
Proof.
  intros Hlt. unfold one_line_outcome.
  destruct (matches t b) eqn:Hm.
  - split; [|reflexivity]. split; [eauto|intros; lia].
  - assert (Hno : no_match [b] t).
    { intros [|j] b' Hj; simpl in Hj; [|discriminate]. congruence. }
    destruct (Valid b) eqn:Hv; cbn [outcome_ok].
    + split; [exact Hno|]. split.
      { intros [|j] b' Hj; simpl in Hj; [|discriminate]. congruence. }
      split; [|eauto].
      exists b. split; [reflexivity|]. split.
      * intros [|j] b' Hj; simpl in Hj; [|discriminate].
        injection Hj as <-. lia.
      * intros; lia.
    + split; [exact Hno|]. split; [eauto|intros; lia].
Qed.

Lemma same_tag_matches t b1 b2 :
  same_tag b1 b2 -> matches t b1 = matches t b2.
Proof.
  intros [Hv Heq]. unfold matches. rewrite <- Hv.
  destruct (Valid b1); [rewrite (Heq eq_refl); reflexivity|].
  rewrite !andb_false_r. reflexivity.
Qed.

Lemma same_contents_step p pol1 pol2 st1 st2 a st1' :
  valid_params p -> num_K p = 1 ->
  Inv (with_policy p pol1) st1 -> Inv (with_policy p pol2) st2 ->
  same_contents st1 st2 ->
  access_data (with_policy p pol1) st1 a = Some st1' ->
  exists st2',
    access_data (with_policy p pol2) st2 a = Some st2' /\
    same_contents st1' st2'.
Proof.
  intros Hp HK1 HI1 HI2 (HF & Hm & Hh & He & Hc) Hacc.
  assert (Hp1 : valid_params (with_policy p pol1)) by exact Hp.
  assert (Hp2 : valid_params (with_policy p pol2)) by exact Hp.
  destruct (addressed_set _ (currCache st1) a Hp1 (proj1 (proj1 HI1)))
    as (bl1 & Hset1 & HKa).
  destruct (Forall2_lookup_l _ _ _ _ _ HF Hset1) as (bl2 & Hset2 & HFb).
  change (set_index (with_policy p pol1) a)
    with (set_index (with_policy p pol2) a) in Hset2.
  cbn [with_policy num_K] in HKa. rewrite HK1 in HKa.
  destruct bl1 as [|b1 [|? ?]]; try discriminate HKa.
  inversion HFb as [|? b2 ? bl2' Hsame Hnil]; subst.
  inversion Hnil; subst.
  assert (Hlt1 : Valid b1 = true -> trackID b1 < INT_MAX).
  { intros Hv. destruct HI1 as ((_ & Hst & _) & Hcnt & _).
    specialize (Hst _ _ 0%nat b1 Hset1 eq_refl Hv). lia. }
  assert (Hlt2 : Valid b2 = true -> trackID b2 < INT_MAX).
  { intros Hv. destruct HI2 as ((_ & Hst & _) & Hcnt & _).
    specialize (Hst _ _ 0%nat b2 Hset2 eq_refl Hv). lia. }
  rewrite (access_data_by_outcome _ st1 a [b1] _ Hset1
             ltac:(cbn [with_policy num_K]; rewrite HK1; reflexivity)
             (one_line_outcome_ok _ b1 Hlt1)) in Hacc.
  rewrite (access_data_by_outcome _ st2 a [b2] _ Hset2
             ltac:(cbn [with_policy num_K]; rewrite HK1; reflexivity)
             (one_line_outcome_ok _ b2 Hlt2)).
  change (tag_bits (with_policy p pol2) a)
    with (tag_bits (with_policy p pol1) a).
  change (set_index (with_policy p pol2) a)
    with (set_index (with_policy p pol1) a).
  unfold one_line_outcome in *.
  rewrite <- (same_tag_matches _ b1 b2 Hsame).
  destruct Hsame as [Hv Htag]. rewrite <- Hv.
  assert (Hins : forall nb1 nb2,
             same_tag nb1 nb2 ->
             Forall2 (Forall2 same_tag)
               (<[Z.to_nat (set_index (with_policy p pol1) a) := <[0%nat := nb1]> [b1]]>
                  (currCache st1))
               (<[Z.to_nat (set_index (with_policy p pol1) a) := <[0%nat := nb2]> [b2]]>
                  (currCache st2))).
  { intros nb1 nb2 Hnb. apply Forall2_insert; [exact HF|].
    apply Forall2_insert; [|exact Hnb]. constructor; [split; auto|constructor]. }
  destruct (matches (tag_bits (with_policy p pol1) a) b1) eqn:Hmt;
    [|destruct (Valid b1) eqn:Hv1]; cbn [outcome_result] in *.
  - rewrite <- Hh. destruct (hit_count st1 <? INT_MAX); [|discriminate].
    injection Hacc as <-. eexists. split; [reflexivity|].
    unfold same_contents, hit_state; cbn [currCache miss_count hit_count
      eviction_count count with_policy policy].
    split; [|repeat split; lia].
    assert (Hst : forall c1 c2, same_tag (stamp c1 b1) (stamp c2 b2))
      by (intros; split; auto).
    assert (Hl : forall c2, same_tag b1 (stamp c2 b2)) by (intros; split; auto).
    assert (Hr : forall c1, same_tag (stamp c1 b1) b2) by (intros; split; auto).
    assert (Hid1 : <[Z.to_nat (set_index (with_policy p pol1) a) := <[0%nat := b1]> [b1]]>
                     (currCache st1) = currCache st1)
      by (apply list_insert_id; exact Hset1).
    assert (Hid2 : <[Z.to_nat (set_index (with_policy p pol1) a) := <[0%nat := b2]> [b2]]>
                     (currCache st2) = currCache st2)
      by (apply list_insert_id; exact Hset2).
    destruct pol1, pol2.
    + exact HF.
    + rewrite <- Hid1. apply Hins, Hl.
    + rewrite <- Hid2. apply Hins, Hr.
    + apply Hins, Hst.
  - rewrite <- Hm, <- He. destruct (_ && _); [|discriminate].
    injection Hacc as <-. eexists. split; [reflexivity|].
    unfold same_contents, evict_state; cbn [currCache miss_count hit_count
      eviction_count count].
    rewrite <- Hm, <- Hh, <- He, <- Hc.
    split; [apply Hins; split; auto|auto].
  - rewrite <- Hm. destruct (miss_count st1 <? INT_MAX); [|discriminate].
    injection Hacc as <-. eexists. split; [reflexivity|].
    unfold same_contents, miss_state; cbn [currCache miss_count hit_count
      eviction_count count].
    rewrite <- Hm, <- Hh, <- He, <- Hc.
    split; [apply Hins; split; auto|auto].
Qed.

Lemma same_contents_run p pol1 pol2 : forall addrs st1 st2 st1',
  valid_params p -> num_K p = 1 ->
  Inv (with_policy p pol1) st1 -> Inv (with_policy p pol2) st2 ->
  same_contents st1 st2 ->
  run_calls (with_policy p pol1) st1 addrs = Some st1' ->
  exists st2',
    run_calls (with_policy p pol2) st2 addrs = Some st2' /\
    same_contents st1' st2'.
Proof.
  induction addrs as [|a rest IH];
    intros st1 st2 st1' Hp HK1 HI1 HI2 Hs Hrun.
  - injection Hrun as <-. exists st2. split; [reflexivity|exact Hs].
  - unfold run_calls in *; fold run_calls in *.
    destruct (access_data (with_policy p pol1) st1 a) as [x1|] eqn:Hacc;
      [|discriminate].
    cbn [mbind option_bind] in Hrun.
    destruct (count_incr x1) as [y1|] eqn:Hinc; [|discriminate].
    cbn [mbind option_bind] in Hrun.
    destruct (same_contents_step p pol1 pol2 st1 st2 a x1 Hp HK1 HI1 HI2
                Hs Hacc) as (x2 & Hacc2 & (HF & Hm & Hh & He & Hc)).
    rewrite Hacc2. cbn [mbind option_bind].
    pose proof Hinc as Hinc'. apply count_incr_Some in Hinc' as [Hlt ->].
    assert (Hinc2 : count_incr x2 = Some (tick x2))
      by (apply count_incr_Some; split; [lia|reflexivity]).
    rewrite Hinc2. cbn [mbind option_bind].
    apply (IH (tick x1) (tick x2)); [exact Hp|exact HK1| | | |exact Hrun].
    + exact (step_Inv (with_policy p pol1) st1 a x1 (tick x1) Hp HI1 Hacc Hinc).
    + exact (step_Inv (with_policy p pol2) st2 a x2 (tick x2) Hp HI2 Hacc2
               Hinc2).
    + unfold same_contents; cbn [tick currCache miss_count hit_count
        eviction_count count]. rewrite Hc. auto.
Qed.

(** X12.  With one line per set the policy makes no difference: two
    runs over the same addresses from the same freshly allocated cache,
    one under each policy, are both defined or both undefined, end with
    the same counters, and their lines hold the same tags. *)
Theorem one_line_per_set_needs_no_policy p pol1 pol2 heap addrs st1 :
  valid_params p -> num_K p = 1 ->
  run_calls (with_policy p pol1) (initial_state (with_policy p pol1) heap)
            addrs = Some st1 ->
  exists st2,
    run_calls (with_policy p pol2) (initial_state (with_policy p pol2) heap)
              addrs = Some st2 /\
    same_contents st1 st2.
Proof.
  intros Hp HK1 Hrun.
  apply (same_contents_run p pol1 pol2 addrs
           (initial_state (with_policy p pol1) heap));
    auto using Inv_initial.
  change (initial_state (with_policy p pol2) heap)
    with (initial_state (with_policy p pol1) heap).
  unfold same_contents. split; [|auto].
  apply Forall2_same_length_lookup. split; [reflexivity|].
  intros i bl1 bl2 H1 H2. assert (bl1 = bl2) by congruence. subst bl2.
  apply Forall2_same_length_lookup. split; [reflexivity|].
  intros j b1 b2 Hb1 Hb2. assert (b1 = b2) by congruence. subst.
  split; auto.
Qed.

(** ** The properties on example inputs *)

Lemma two_way_lru_valid : valid_params two_way_lru.
Proof.
  split; [exists 0; split; [lia|reflexivity]|].
  split; [exists 4; split; [lia|reflexivity]|].
  unfold INT_MAX; simpl; lia.
Qed.

Lemma four_sets_lru_valid : valid_params four_sets_lru.
Proof.
  split; [exists 2; split; [lia|reflexivity]|].
  split; [exists 4; split; [lia|reflexivity]|].
  unfold INT_MAX; simpl; lia.
Qed.

Lemma cache_keeps_its_capacity_witness :
  length (currCache after_first_load) = Z.to_nat (num_S one_line_lru) /\
  forall i blocks,
    currCache after_first_load !! i = Some blocks ->
    length blocks = Z.to_nat (num_K one_line_lru) /\
    0 <= occupied blocks <= num_K one_line_lru.
Proof.
  exact (cache_keeps_its_capacity one_line_lru after_first_load
           one_line_lru_valid after_first_load_reachable).
Defined.

Lemma misses_are_fills_witness :
  miss_count after_first_load =
  eviction_count after_first_load + occupied_cache (currCache after_first_load).
Proof.
  exact (misses_are_fills_plus_evictions one_line_lru after_first_load
           one_line_lru_valid after_first_load_reachable).
Defined.

Lemma access_changes_one_line_witness :
  length [[mkBlock true 2 1]] = length (currCache after_first_load) /\
  exists k,
    forall i j blocks b,
      currCache after_first_load !! i = Some blocks -> blocks !! j = Some b ->
      exists blocks1 b1,
        [[mkBlock true 2 1]] !! i = Some blocks1 /\
        length blocks1 = length blocks /\
        blocks1 !! j = Some b1 /\
        (Valid b = true -> Valid b1 = true) /\
        (i <> Z.to_nat (set_index one_line_lru 32) \/ j <> k -> b1 = b).
Proof.
  apply (access_changes_one_line one_line_lru after_first_load 32
           (mkState [[mkBlock true 2 1]] 2 0 1 1)).
  vm_compute. reflexivity.
Defined.

Lemma stamps_are_never_shared_witness :
  distinct_stamps (currCache after_first_load) /\
  forall i blocks v bv,
    currCache after_first_load !! i = Some blocks ->
    forallb Valid blocks = true ->
    first_min blocks v -> blocks !! v = Some bv ->
    forall j b, j <> v -> blocks !! j = Some b -> trackID bv < trackID b.
Proof.
  exact (stamps_are_never_shared one_line_lru after_first_load
           one_line_lru_valid after_first_load_reachable).
Defined.

Lemma same_line_same_access_witness :
  set_index one_line_lru 0 = set_index one_line_lru 5 /\
  tag_bits one_line_lru 0 = tag_bits one_line_lru 5 /\
  access_data one_line_lru after_first_load 0 =
  access_data one_line_lru after_first_load 5.
Proof.
  apply (same_line_same_access one_line_lru after_first_load 0 5).
  - exact one_line_lru_valid.
  - vm_compute. reflexivity.
Defined.

Lemma decoding_splits_the_line_witness :
  0 <= set_index four_sets_lru 100 < num_S four_sets_lru /\
  line_of four_sets_lru 100 =
    wrap64 (tag_bits four_sets_lru 100) * num_S four_sets_lru +
    set_index four_sets_lru 100 /\
  forall a', 0 <= a' < 2 ^ 64 ->
             set_index four_sets_lru a' = set_index four_sets_lru 100 ->
             tag_bits four_sets_lru a' = tag_bits four_sets_lru 100 ->
             line_of four_sets_lru a' = line_of four_sets_lru 100.
Proof.
  apply (decoding_splits_the_line four_sets_lru 100).
  - exact four_sets_lru_valid.
  - lia.
Defined.

Lemma lru_keeps_most_recent_witness :
  exists st' blocks,
    run_calls two_way_lru (initial_state two_way_lru stale_heap) [0; 16]
      = Some st' /\
    currCache st' !! Z.to_nat (set_index two_way_lru 0) = Some blocks /\
    holds_tag blocks (tag_bits two_way_lru 0) = true /\
    holds_tag blocks (tag_bits two_way_lru 16) = true.
Proof.
  apply (lru_keeps_most_recent two_way_lru
           (initial_state two_way_lru stale_heap) 0 16).
  - exact two_way_lru_valid.
  - reflexivity.
  - simpl. lia.
  - exists stale_heap, []. reflexivity.
  - unfold INT_MAX. simpl. lia.
  - vm_compute. reflexivity.
  - vm_compute. discriminate.
Defined.

Lemma hits_come_from_earlier_calls_witness :
  lines_from one_line_lru [0] (currCache after_first_load) /\
  forall a st1,
    (forall a', In a' [0] ->
                ~ (set_index one_line_lru a' = set_index one_line_lru a /\
                   tag_bits one_line_lru a' = tag_bits one_line_lru a)) ->
    access_data one_line_lru after_first_load a = Some st1 ->
    counts_miss after_first_load st1 \/
    counts_miss_eviction after_first_load st1.
Proof.
  apply (hits_come_from_earlier_calls one_line_lru stale_heap [0]
           after_first_load).
  - exact one_line_lru_valid.
  - vm_compute. reflexivity.
Defined.

Lemma replayer_calls_once_per_line_witness :
  (2 <= num_B four_sets_lru ->
   map (line_of four_sets_lru) (read_calls four_sets_lru (mkAccess "M" 0 32))
   = lines_touched four_sets_lru (mkAccess "M" 0 32)) /\
  (2 <= num_S four_sets_lru -> operation (mkAccess "M" 0 32) = "M"%char ->
   map (line_of four_sets_lru) (write_calls four_sets_lru (mkAccess "M" 0 32))
   = lines_touched four_sets_lru (mkAccess "M" 0 32)).
Proof.
  apply (replayer_calls_once_per_line four_sets_lru (mkAccess "M" 0 32)).
  - exact four_sets_lru_valid.
  - simpl. lia.
  - simpl. lia.
  - simpl. lia.
Defined.

Lemma one_line_per_set_witness :
  exists st2,
    run_calls (with_policy one_line_lru FIFO)
              (initial_state (with_policy one_line_lru FIFO) stale_heap)
              [0; 32] = Some st2 /\
    same_contents (mkState [[mkBlock true 2 1]] 2 0 1 2) st2.
Proof.
  apply (one_line_per_set_needs_no_policy one_line_lru LRU FIFO stale_heap
           [0; 32]).
  - exact one_line_lru_valid.
  - reflexivity.
  - vm_compute. reflexivity.
Defined.

(** * The command line *)

(** ** [NOT_POWER2] *)

Lemma clz_from_log2 : forall n x,
  0 < x < 2 ^ Z.of_nat n -> clz_from n x = Z.of_nat n - 1 - Z.log2 x.
Proof.
  induction n as [|n IH]; intros x Hx.
  - simpl in Hx. lia.
  - cbn [clz_from].
    assert (Hlog : Z.log2 x < Z.of_nat (S n))
      by (apply Z.log2_lt_pow2; lia).
    destruct (Z.testbit x (Z.of_nat n)) eqn:Hbit.
    + assert (~ Z.log2 x < Z.of_nat n).
      { intros Hlt. rewrite Z.bits_above_log2 in Hbit by lia. discriminate. }
      lia.
    + assert (Z.log2 x <> Z.of_nat n).
      { intros Heq. rewrite <- Heq, Z.bit_log2 in Hbit by lia. discriminate. }
      rewrite IH; [lia|]. split; [lia|]. apply Z.log2_lt_pow2; lia.
Qed.

Lemma ctz_from_zeros x : forall n i,
  0 <= i -> (forall j, 0 <= j < i -> Z.testbit x j = false) ->
  0 <= ctz_from n i x <= Z.of_nat n /\
  (forall j, 0 <= j < i + ctz_from n i x -> Z.testbit x j = false) /\
  (ctz_from n i x < Z.of_nat n -> Z.testbit x (i + ctz_from n i x) = true).
Proof.
  induction n as [|n IH]; intros i Hi Hlow.
  - cbn [ctz_from]. rewrite Z.add_0_r. split; [simpl; lia|].
    split; [exact Hlow|]. simpl. lia.
  - cbn [ctz_from]. destruct (Z.testbit x i) eqn:Hbit.
    + rewrite Z.add_0_r. split; [lia|]. split; [exact Hlow|auto].
    + destruct (IH (i + 1)) as (Hr & Hz & Hone); [lia| |].
      { intros j Hj. destruct (Z.eq_dec j i) as [->|]; [exact Hbit|].
        apply Hlow. lia. }
      split; [lia|]. split.
      * intros j Hj. apply Hz. lia.
      * intros Hlt.
        replace (i + (1 + ctz_from n (i + 1) x))
          with (i + 1 + ctz_from n (i + 1) x) by lia.
        apply Hone. lia.
Qed.

Lemma NOT_POWER2_pow2 s : 0 <= s <= 30 -> NOT_POWER2 (2 ^ s) = Some false.
Proof.
  intros Hs.
  assert (Hall : forallb
            (fun n => match NOT_POWER2 (2 ^ Z.of_nat n) with
                      | Some false => true | _ => false end)
            (seq 0 31) = true) by (vm_compute; reflexivity).
  rewrite forallb_forall in Hall.
  assert (Hin : In (Z.to_nat s) (seq 0 31)) by (apply in_seq; lia).
  apply Hall in Hin. rewrite Z2Nat.id in Hin by lia.
  destruct (NOT_POWER2 (2 ^ s)) as [[|]|]; [discriminate|reflexivity|discriminate].
Qed.

Lemma NOT_POWER2_positive x :
  0 < x < 2 ^ 31 -> NOT_POWER2 x = Some false ->
  exists s, 0 <= s <= 30 /\ x = 2 ^ s.
Proof.
  intros Hx. unfold NOT_POWER2.
  assert (Hw : wrap32 x = x)
    by (unfold wrap32; apply Z.mod_small;
        change (2 ^ 31) with 2147483648 in Hx;
        change (2 ^ 32) with 4294967296; lia).
  rewrite Hw. destruct (Z.eqb_spec x 0) as [|_]; [lia|].
  intros [= Hneg]. apply negb_false_iff, Z.eqb_eq in Hneg.
  assert (Hclz : builtin_clz x = 31 - Z.log2 x).
  { unfold builtin_clz. rewrite (clz_from_log2 32); [simpl; lia|].
    change (2 ^ Z.of_nat 32) with 4294967296.
    change (2 ^ 31) with 2147483648 in Hx. lia. }
  assert (Hlog : 0 <= Z.log2 x < 31).
  { split; [apply Z.log2_nonneg|]. apply Z.log2_lt_pow2; lia. }
  destruct (ctz_from_zeros x 32 0) as (_ & Hz & _); [lia|intros; lia|].
  fold (builtin_ctz x) in Hz.
  assert (Hctz : builtin_ctz x = Z.log2 x) by lia.
  rewrite Hctz in Hz.
  exists (Z.log2 x). split; [lia|].
  apply Z.bits_inj'. intros n Hn.
  rewrite Z.pow2_bits_eqb by lia.
  destruct (Z.eqb_spec (Z.log2 x) n) as [<-|Hne].
  - apply Z.bit_log2. lia.
  - destruct (Z_lt_le_dec n (Z.log2 x)).
    + apply Hz. lia.
    + apply Z.bits_above_log2; lia.
Qed.

Lemma NOT_POWER2_negative x :
  - 2 ^ 31 <= x < 0 -> NOT_POWER2 x = Some false -> x = - 2 ^ 31.
Proof.
  intros Hx. unfold NOT_POWER2.
  destruct (wrap32 x =? 0); [discriminate|].
  intros [= Hneg]. apply negb_false_iff, Z.eqb_eq in Hneg.
  assert (Hhigh : Z.testbit x 31 = true).
  { rewrite Z.testbit_true by lia.
    change (2 ^ 31) with 2147483648 in *.
    replace (x / 2147483648) with (-1); [reflexivity|].
    apply Z.div_unique with (r := x + 2147483648); lia. }
  assert (Hclz : builtin_clz x = 0).
  { unfold builtin_clz. cbn [clz_from]. change (Z.of_nat 31) with 31.
    rewrite Hhigh. reflexivity. }
  destruct (ctz_from_zeros x 32 0) as (_ & Hz & _); [lia|intros; lia|].
  fold (builtin_ctz x) in Hz.
  assert (Hctz : builtin_ctz x = 31) by lia.
  rewrite Hctz in Hz.
  assert (Hmod : x mod 2 ^ 31 = 0).
  { apply Z.bits_inj'. intros n Hn. rewrite Z.bits_0.
    destruct (Z_lt_le_dec n 31).
    - rewrite Z.mod_pow2_bits_low by lia. apply Hz. lia.
    - apply Z.mod_pow2_bits_high. lia. }
  change (2 ^ 31) with 2147483648 in *.
  pose proof (Z.div_mod x 2147483648). lia.
Qed.

(** X14.  [NOT_POWER2] on an [int]: it has no defined result exactly at 0
    (where the two builtins have none); it is false, so that the value
    passes the check of [-S] and [-B], exactly for the powers of two
    [1, 2, 4, ..., 2^30] and for [INT_MIN]. *)
Theorem NOT_POWER2_on_int x :
  - 2 ^ 31 <= x < 2 ^ 31 ->
  (NOT_POWER2 x = None <-> x = 0) /\
  (NOT_POWER2 x = Some false <->
   (exists s, 0 <= s <= 30 /\ x = 2 ^ s) \/ x = - 2 ^ 31).
Proof.
  intros Hx. split.
  - unfold NOT_POWER2, wrap32.
    change (2 ^ 31) with 2147483648 in Hx.
    change (2 ^ 32) with 4294967296.
    destruct (Z.eqb_spec (x mod 4294967296) 0) as [Hz|Hnz].
    + split; [intros _|reflexivity].
      pose proof (Z.div_mod x 4294967296). lia.
    + split; [discriminate|]. intros ->. exfalso. apply Hnz. reflexivity.
  - split.
    + intros Hnp. destruct (Z_lt_le_dec 0 x) as [Hpos|Hneg].
      * left. apply NOT_POWER2_positive; [lia|exact Hnp].
      * right. destruct (Z.eq_dec x 0) as [->|Hne].
        -- vm_compute in Hnp. discriminate.
        -- apply NOT_POWER2_negative; [lia|exact Hnp].
    + intros [(s & Hs & ->)| ->].
      * apply NOT_POWER2_pow2, Hs.
      * vm_compute. reflexivity.
Qed.

(** X15.  [INT_LOG2] is the integer part of the binary logarithm on every
    non-zero [unsigned int]. *)
Theorem INT_LOG2_is_floor_log2 x :
  0 < x < 2 ^ 32 ->
  INT_LOG2 x = Z.log2 x /\ 2 ^ INT_LOG2 x <= x < 2 ^ (INT_LOG2 x + 1).
Proof.
  intros Hx.
  assert (Hlog : INT_LOG2 x = Z.log2 x).
  { unfold INT_LOG2, builtin_clz. rewrite (clz_from_log2 32); [simpl; lia|].
    exact Hx. }
  split; [exact Hlog|]. rewrite Hlog.
  replace (Z.log2 x + 1) with (Z.succ (Z.log2 x)) by lia.
  apply Z.log2_spec. lia.
Qed.

(** ** [parse_arguments] *)

Lemma parse_options_app atoi fopen : forall l1 l2 g,
  parse_options atoi fopen g (l1 ++ l2) =
  match parse_options atoi fopen g l1 with
  | Going g1 => parse_options atoi fopen g1 l2
  | stopped => stopped
  end.
Proof.
  induction l1 as [|[c optarg] l1 IH]; intros l2 g; [reflexivity|].
  cbn [app parse_options].
  destruct (parse_option atoi fopen g c optarg); [apply IH|reflexivity..].
Qed.

Lemma option_cases (c : ascii) :
  c = "S"%char \/ c = "K"%char \/ c = "B"%char \/ c = "p"%char \/
  c = "t"%char \/ c = "v"%char \/ c = "h"%char \/
  (Ascii.eqb c "S" = false /\ Ascii.eqb c "K" = false /\
   Ascii.eqb c "B" = false /\ Ascii.eqb c "p" = false /\
   Ascii.eqb c "t" = false /\ Ascii.eqb c "v" = false /\
   Ascii.eqb c "h" = false).
Proof.
  destruct (Ascii.eqb_spec c "S"); [tauto|].
  destruct (Ascii.eqb_spec c "K"); [tauto|].
  destruct (Ascii.eqb_spec c "B"); [tauto|].
  destruct (Ascii.eqb_spec c "p"); [tauto|].
  destruct (Ascii.eqb_spec c "t"); [tauto|].
  destruct (Ascii.eqb_spec c "v"); [tauto|].
  destruct (Ascii.eqb_spec c "h"); [tauto|].
  repeat right. repeat split; reflexivity.
Qed.

Lemma parse_option_checked atoi fopen all g c optarg g1 :
  In (c, optarg) all -> args_checked atoi fopen all g ->
  parse_option atoi fopen g c optarg = Going g1 ->
  args_checked atoi fopen all g1.
Proof.
  intros Hin (HS & HK & HB & Hpol & Hfp) Hopt.
  destruct (option_cases c)
    as [->|[->|[->|[->|[->|[->|[->|(e1 & e2 & e3 & e4 & e5 & e6 & e7)]]]]]]];
    unfold parse_option in Hopt.
  - cbn [Ascii.eqb Bool.eqb] in Hopt.
    destruct (NOT_POWER2 (atoi optarg)) as [[|]|] eqn:Hnp; try discriminate.
    injection Hopt as <-. unfold args_checked; cbn.
    split; [right; eauto|]. auto.
  - cbn [Ascii.eqb Bool.eqb] in Hopt.
    destruct (Z.leb_spec (atoi optarg) 0); [discriminate|].
    injection Hopt as <-. unfold args_checked; cbn.
    split; [exact HS|]. split; [right; eauto|]. auto.
  - cbn [Ascii.eqb Bool.eqb] in Hopt.
    destruct (NOT_POWER2 (atoi optarg)) as [[|]|] eqn:Hnp; try discriminate.
    injection Hopt as <-. unfold args_checked; cbn.
    split; [exact HS|]. split; [exact HK|]. split; [right; eauto|]. auto.
  - cbn [Ascii.eqb Bool.eqb] in Hopt.
    destruct (String.eqb_spec optarg "LRU") as [->|Hl].
    + injection Hopt as <-. unfold args_checked; cbn.
      repeat (split; [assumption|]). split; [|exact Hfp].
      intros pol [= <-]. exact Hin.
    + destruct (String.eqb_spec optarg "FIFO") as [->|Hf].
      * injection Hopt as <-. unfold args_checked; cbn.
        repeat (split; [assumption|]). split; [|exact Hfp].
        intros pol [= <-]. exact Hin.
      * destruct (arg_policy g) as [pol0|] eqn:Hp0; [|discriminate].
        injection Hopt as <-. unfold args_checked; cbn.
        exact (conj HS (conj HK (conj HB (conj Hpol Hfp)))).
  - cbn [Ascii.eqb Bool.eqb] in Hopt.
    destruct (fopen optarg) eqn:Hopen; [|discriminate].
    injection Hopt as <-. unfold args_checked; cbn.
    repeat (split; [assumption|]).
    intros path [= <-]. split; [exact Hopen|exact Hin].
  - cbn [Ascii.eqb Bool.eqb] in Hopt.
    injection Hopt as <-. unfold args_checked; cbn. auto.
  - cbn [Ascii.eqb Bool.eqb] in Hopt. discriminate.
  - rewrite e1, e2, e3, e4, e5, e6, e7 in Hopt. discriminate.
Qed.

Lemma parse_options_checked atoi fopen all : forall opts g g1,
  (forall o, In o opts -> In o all) -> args_checked atoi fopen all g ->
  parse_options atoi fopen g opts = Going g1 ->
  args_checked atoi fopen all g1.
Proof.
  induction opts as [|[c optarg] rest IH]; intros g g1 Hsub Hg Hrun.
  - injection Hrun as <-. exact Hg.
  - cbn [parse_options] in Hrun.
    destruct (parse_option atoi fopen g c optarg) as [g2| |] eqn:Hopt;
      try discriminate.
    apply (IH g2); [intros o Ho; apply Hsub; right; exact Ho| |exact Hrun].
    apply (parse_option_checked atoi fopen all g c optarg);
      [apply Hsub; left; reflexivity|exact Hg|exact Hopt].
Qed.

Lemma args_checked_at_start atoi fopen all :
  args_checked atoi fopen all globals_at_start.
Proof.
  unfold args_checked, globals_at_start; cbn.
  repeat split; try (left; reflexivity); discriminate.
Qed.

(** X16.  When [parse_arguments] returns (instead of leaving the program), the
    globals describe a cache the simulator can run on: [S] and [B] are
    powers of two, [K] is positive, a policy is set and the trace file is
    open; and each of the five was given on the command line. *)
Theorem accepted_arguments_are_valid atoi fopen opts g :
  (forall s, - 2 ^ 31 <= atoi s < 2 ^ 31) ->
  parse_arguments atoi fopen opts = Going g ->
  exists pol path sS sK sB,
    arg_policy g = Some pol /\ trace_fp g = Some path /\
    fopen path = true /\
    valid_params (mkParams (arg_S g) (arg_K g) (arg_B g) pol) /\
    In ("S"%char, sS) opts /\ atoi sS = arg_S g /\
    In ("K"%char, sK) opts /\ atoi sK = arg_K g /\
    In ("B"%char, sB) opts /\ atoi sB = arg_B g /\
    In ("p"%char, policy_name pol) opts /\ In ("t"%char, path) opts.
Proof.
  intros Hint Hparse. unfold parse_arguments in Hparse.
  destruct (parse_options atoi fopen globals_at_start opts) as [g1| |] eqn:Hrun;
    try discriminate.
  destruct (_ || _) eqn:Hcheck in Hparse; [discriminate|].
  injection Hparse as <-.
  repeat (apply orb_false_elim in Hcheck as [Hcheck ?]).
  destruct (arg_policy g1) as [pol|] eqn:Hpol; [|discriminate].
  destruct (trace_fp g1) as [path|] eqn:Hpath; [|discriminate].
  destruct (parse_options_checked atoi fopen opts opts _ g1
              (fun o H => H) (args_checked_at_start atoi fopen opts) Hrun)
    as (HS & HK & HB & Hp & Hfp).
  destruct (Hfp path Hpath) as [Hopen Ht].
  specialize (Hp pol Hpol).
  destruct HS as [HS|(HS & sS & HinS & HaS)]; [lia|].
  destruct HK as [HK|(HK & sK & HinK & HaK)]; [lia|].
  destruct HB as [HB|(HB & sB & HinB & HaB)]; [lia|].
  exists pol, path, sS, sK, sB.
  repeat (split; [first [reflexivity|assumption]|]).
  split; [|repeat (split; [assumption|]); assumption].
  unfold valid_params; cbn [num_S num_K num_B].
  split; [|split].
  - apply NOT_POWER2_positive; [|exact HS].
    specialize (Hint sS). rewrite HaS in Hint. lia.
  - apply NOT_POWER2_positive; [|exact HB].
    specialize (Hint sB). rewrite HaB in Hint. lia.
  - specialize (Hint sK). rewrite HaK in Hint. unfold INT_MAX.
    change (2 ^ 31) with 2147483648 in Hint. lia.
Qed.

Lemma accepted_arguments_witness :
  exists g, parse_arguments example_atoi example_fopen example_options
            = Going g /\
  exists pol path sS sK sB,
    arg_policy g = Some pol /\ trace_fp g = Some path /\
    example_fopen path = true /\
    valid_params (mkParams (arg_S g) (arg_K g) (arg_B g) pol) /\
    In ("S"%char, sS) example_options /\ example_atoi sS = arg_S g /\
    In ("K"%char, sK) example_options /\ example_atoi sK = arg_K g /\
    In ("B"%char, sB) example_options /\ example_atoi sB = arg_B g /\
    In ("p"%char, policy_name pol) example_options /\
    In ("t"%char, path) example_options.
Proof.
  exists (mkGlobals 0 1 2 16 (Some LRU) (Some "yi2.trace"%string)).
  split; [vm_compute; reflexivity|].
  apply (accepted_arguments_are_valid example_atoi example_fopen
           example_options).
  - intros s. unfold example_atoi.
    destruct (String.eqb s "16"); [lia|].
    destruct (String.eqb s "2"); [lia|].
    destruct (String.eqb s "1"); lia.
  - vm_compute. reflexivity.
Defined.

Lemma policy_stays_set atoi fopen : forall opts g g1,
  arg_policy g <> None -> parse_options atoi fopen g opts = Going g1 ->
  arg_policy g1 <> None.
Proof.
  induction opts as [|[c optarg] rest IH]; intros g g1 Hset Hrun.
  - injection Hrun as <-. exact Hset.
  - cbn [parse_options] in Hrun.
    destruct (parse_option atoi fopen g c optarg) as [g2| |] eqn:Hopt;
      try discriminate.
    apply (IH g2 g1); [|exact Hrun].
    unfold parse_option in Hopt.
    repeat match type of Hopt with
    | (if ?b then _ else _) = _ => destruct b
    | match ?x with _ => _ end = _ => destruct x eqn:?
    end; try discriminate; injection Hopt as <-; cbn; congruence.
Qed.

(** X17.  The check of [-p] looks at the global, not at the argument: once a
    policy has been set, a later [-p] with a name that is neither [FIFO]
    nor [LRU] is not rejected, and the program goes on as if it had not
    been given.  Given first, the same option ends the program. *)
Theorem unknown_policy_after_known_is_ignored atoi fopen
    before known mid name after :
  known = "FIFO"%string \/ known = "LRU"%string ->
  name <> "FIFO"%string -> name <> "LRU"%string ->
  parse_arguments atoi fopen
    (before ++ ("p"%char, known) :: mid ++ ("p"%char, name) :: after) =
  parse_arguments atoi fopen (before ++ ("p"%char, known) :: mid ++ after) /\
  parse_arguments atoi fopen (("p"%char, name) :: after) =
  Exited policy_unknown.
Proof.
  intros Hknown Hf Hl.
  apply String.eqb_neq in Hf, Hl.
  split.
  - unfold parse_arguments.
    rewrite !parse_options_app.
    destruct (parse_options atoi fopen globals_at_start before) as [g0| |];
      [|reflexivity..].
    cbn [parse_options].
    destruct (parse_option atoi fopen g0 "p" known) as [g1| |] eqn:Hopt;
      [|reflexivity..].
    rewrite !parse_options_app.
    destruct (parse_options atoi fopen g1 mid) as [g2| |] eqn:Hmid;
      [|reflexivity..].
    cbn [parse_options].
    assert (Hset : arg_policy g2 <> None).
    { apply (policy_stays_set atoi fopen mid g1 g2); [|exact Hmid].
      unfold parse_option in Hopt. cbn [Ascii.eqb Bool.eqb] in Hopt.
      destruct Hknown as [-> | ->]; cbn in Hopt;
        injection Hopt as <-; cbn; discriminate. }
    unfold parse_option. cbn [Ascii.eqb Bool.eqb].
    rewrite Hf, Hl.
    destruct (arg_policy g2) as [pol|] eqn:Hp2; [|congruence].
    destruct g2; cbn in *. rewrite Hp2. reflexivity.
  - unfold parse_arguments. cbn [parse_options].
    unfold parse_option. cbn [Ascii.eqb Bool.eqb].
    rewrite Hf, Hl. reflexivity.
Qed.

Lemma unknown_policy_witness :
  parse_arguments example_atoi example_fopen
    (example_options ++ [("p"%char, "MRU"%string)]) =
  parse_arguments example_atoi example_fopen example_options /\
  parse_arguments example_atoi example_fopen
    [("p"%char, "MRU"%string)] = Exited policy_unknown.
Proof.
  apply (unknown_policy_after_known_is_ignored example_atoi example_fopen
           [("S"%char, "1"); ("K"%char, "2"); ("B"%char, "16")]%string
           "LRU"%string [("t"%char, "yi2.trace"%string)] "MRU"%string []).
  - right. reflexivity.
  - discriminate.
  - discriminate.
Defined.

(** X18.  [parse_arguments] ends the program with status 0 only at a [-h], and
    only when every option before it was accepted. *)
Theorem exit_0_only_for_help atoi fopen opts why :
  parse_arguments atoi fopen opts = Exited why -> exit_status why = 0 ->
  exists before optarg after g,
    opts = before ++ ("h"%char, optarg) :: after /\
    parse_options atoi fopen globals_at_start before = Going g.
Proof.
  intros Hparse Hstatus.
  assert (Hwhy : why = help_asked) by (destruct why; simpl in Hstatus; done).
  subst why. unfold parse_arguments in Hparse.
  assert (Hrun : parse_options atoi fopen globals_at_start opts
                 = Exited help_asked).
  { destruct (parse_options atoi fopen globals_at_start opts); try done.
    destruct (_ || _) in Hparse; discriminate. }
  clear Hparse Hstatus. revert Hrun. generalize globals_at_start.
  induction opts as [|[c optarg] rest IH]; intros g Hrun; [discriminate|].
  cbn [parse_options] in Hrun.
  destruct (parse_option atoi fopen g c optarg) as [g1| |] eqn:Hopt;
    try discriminate.
  - destruct (IH g1 Hrun) as (before & optarg' & after & g2 & -> & Hbefore).
    exists ((c, optarg) :: before), optarg', after, g2.
    split; [reflexivity|]. cbn [parse_options]. rewrite Hopt. exact Hbefore.
  - injection Hrun as ->.
    assert (c = "h"%char) as ->.
    { destruct (option_cases c)
        as [->|[->|[->|[->|[->|[->|[->|(e1 & e2 & e3 & e4 & e5 & e6 & e7)]]]]]]];
        unfold parse_option in Hopt;
        [cbn [Ascii.eqb Bool.eqb] in Hopt..|];
        [ destruct (NOT_POWER2 _) as [[|]|]; discriminate
        | destruct (_ <=? _); discriminate
        | destruct (NOT_POWER2 _) as [[|]|]; discriminate
        | destruct (if String.eqb optarg "LRU" then _ else _); discriminate
        | destruct (fopen _); discriminate
        | discriminate
        | reflexivity
        | rewrite e1, e2, e3, e4, e5, e6, e7 in Hopt; discriminate ]. }
    exists [], optarg, rest, g. split; reflexivity.
Qed.

Lemma exit_0_witness :
  exists before optarg after g,
    example_options ++ [("h"%char, EmptyString)] =
      before ++ ("h"%char, optarg) :: after /\
    parse_options example_atoi example_fopen globals_at_start before
      = Going g.
Proof.
  apply (exit_0_only_for_help example_atoi example_fopen
           (example_options ++ [("h"%char, EmptyString)]) help_asked).
  - vm_compute. reflexivity.
  - reflexivity.
Defined.

Lemma NOT_POWER2_on_int_witness :
  (NOT_POWER2 16 = None <-> 16 = 0) /\
  (NOT_POWER2 16 = Some false <->
   (exists s, 0 <= s <= 30 /\ 16 = 2 ^ s) \/ 16 = - 2 ^ 31).
Proof.
  apply (NOT_POWER2_on_int 16). lia.
Defined.

Lemma INT_LOG2_is_floor_log2_witness :
  INT_LOG2 16 = Z.log2 16 /\ 2 ^ INT_LOG2 16 <= 16 < 2 ^ (INT_LOG2 16 + 1).
Proof.
  apply (INT_LOG2_is_floor_log2 16). lia.
Defined.
